(** * Retirement simulation: model of [retire_sim] and its verified properties

    A shallow embedding of [retire_sim/israeli_tax.py], [retire_sim/model.py]
    and [retire_sim/search.py].

    Numbers.  Python [float] values are idealised as exact rationals ([Q]):
    every arithmetic operation is the exact one, comparisons are the exact
    order, and [==] is equality of rationals.  The one operation of the
    source that has no rational counterpart, the power [x ** y] used by
    [Params.r_month], is a parameter of the development ([float_pow]); on a
    negative base Python's power is a complex number, and the first
    comparison of a balance then raises [TypeError].  Division by a zero
    float raises [ZeroDivisionError].  Both are kept, through the error
    monad [exc].  In the joint search the rounding of a float subtraction
    decides a branch on ordinary inputs (it derives person 2's age, which is
    then compared with person 2's current age); that subtraction is a
    parameter as well ([float_sub]), so that what is proved of the search
    holds for the rounded operation.

    Containers.  Optional lists are [option (list _)]; the set of applied
    one-time events is a [gset nat]; the data frame of a result is the list
    of its monthly records. *)

From Stdlib Require Import QArith Qround Lqa ZArith List Sorted Bool String Lia.
From stdpp Require Import base gmap sets.
Import ListNotations.

Local Open Scope Q_scope.

(** ** Exceptions *)

Inductive exn : Type :=
| ZeroDivisionError
| ValueError
| TypeError.

Inductive exc (A : Type) : Type :=
| Return (a : A)
| Raise (e : exn).
Arguments Return {A} a.
Arguments Raise {A} e.

Definition bind {A B : Type} (c : exc A) (f : A -> exc B) : exc B :=
  match c with
  | Return a => f a
  | Raise e => Raise e
  end.

Declare Scope exc_scope.
Delimit Scope exc_scope with exc.
Notation "'let*' x ':=' c 'in' k" := (bind c (fun x => k))
  (at level 10, x name, c at level 100, k at level 200) : exc_scope.
Local Open Scope exc_scope.

(** ** Float primitives on rationals *)

Definition Qleb (x y : Q) : bool := Qle_bool x y.
Definition Qltb (x y : Q) : bool := negb (Qle_bool y x).

(** Python's [max(a, b)] and [min(a, b)]: the first argument wins ties. *)
Definition py_max (a b : Q) : Q := if Qltb a b then b else a.
Definition py_min (a b : Q) : Q := if Qltb b a then b else a.

(** Python's [x / y] on floats. *)
Definition py_div (x y : Q) : exc Q :=
  if Qeq_bool y 0 then Raise ZeroDivisionError else Return (x / y).

(** Python's one-argument [round]: nearest integer, ties to even. *)
Definition py_round (x : Q) : Z :=
  let f := Qfloor x in
  match Qcompare (x - inject_Z f) (1 # 2) with
  | Lt => f
  | Gt => (f + 1)%Z
  | Eq => if Z.even f then f else (f + 1)%Z
  end.

(** Python's [range(n)], as the list of its integers. *)
Definition py_range (n : Z) : list Z :=
  List.map Z.of_nat (List.seq 0 (Z.to_nat n)).

(** ** israeli_tax.py *)

Module IsraeliTax.

Record TaxBracket : Type := mkTaxBracket {
  threshold : Q;
  rate : Q;
  base_tax : Q
}.

Definition ISRAELI_TAX_BRACKETS : list TaxBracket :=
  [ mkTaxBracket 0 (10 # 100) 0;
    mkTaxBracket 84120 (14 # 100) 8412;
    mkTaxBracket 120720 (20 # 100) 13536;
    mkTaxBracket 193800 (31 # 100) 28152;
    mkTaxBracket 269280 (35 # 100) 51551;
    mkTaxBracket 560280 (47 # 100) 153401;
    mkTaxBracket 721560 (50 # 100) 229203 ].

Record NationalInsuranceConfig : Type := mkNationalInsuranceConfig {
  rate_low : Q;
  rate_high : Q;
  threshold_low_monthly : Q;
  cap_monthly : Q
}.

Definition NATIONAL_INSURANCE : NationalInsuranceConfig :=
  mkNationalInsuranceConfig (427 # 10000) (1217 # 10000) 7522 50695.

(** The bracket loop of [calculate_income_tax]: [tax] is the running value
    of the local variable, [brackets] what is left to enumerate. *)
Fixpoint income_tax_loop (annual_income : Q) (brackets : list TaxBracket) (tax : Q) : Q :=
  match brackets with
  | [] => tax
  | bracket :: rest =>
    match rest with
    | [] =>
      if Qltb (threshold bracket) annual_income
      then base_tax bracket + (annual_income - threshold bracket) * rate bracket
      else tax
    | next_bracket :: _ =>
      if Qleb annual_income (threshold next_bracket)
      then base_tax bracket + (annual_income - threshold bracket) * rate bracket
      else income_tax_loop annual_income rest tax
    end
  end.

Definition calculate_income_tax (annual_income : Q) : Q :=
  if Qleb annual_income 0 then 0
  else income_tax_loop annual_income ISRAELI_TAX_BRACKETS 0.

Definition calculate_national_insurance (monthly_income : Q) : Q :=
  if Qleb monthly_income 0 then 0
  else
    let capped_income := py_min monthly_income (cap_monthly NATIONAL_INSURANCE) in
    if Qleb capped_income (threshold_low_monthly NATIONAL_INSURANCE)
    then capped_income * rate_low NATIONAL_INSURANCE
    else
      let low_part := threshold_low_monthly NATIONAL_INSURANCE * rate_low NATIONAL_INSURANCE in
      let high_part :=
        (capped_income - threshold_low_monthly NATIONAL_INSURANCE) * rate_high NATIONAL_INSURANCE in
      low_part + high_part.

Definition calculate_monthly_tax_from_gross (gross_monthly_income : Q) : Q :=
  if Qleb gross_monthly_income 0 then 0
  else
    let annual_income := gross_monthly_income * 12 in
    let annual_income_tax := calculate_income_tax annual_income in
    let monthly_income_tax := annual_income_tax / 12 in
    let monthly_ni := calculate_national_insurance gross_monthly_income in
    monthly_income_tax + monthly_ni.

Definition calculate_net_from_gross (gross_monthly_income : Q) : Q :=
  let total_tax := calculate_monthly_tax_from_gross gross_monthly_income in
  gross_monthly_income - total_tax.

Definition get_effective_tax_rate (gross_monthly_income : Q) : Q :=
  if Qleb gross_monthly_income 0 then 0
  else
    let total_tax := calculate_monthly_tax_from_gross gross_monthly_income in
    (total_tax / gross_monthly_income) * 100.

(** The dictionary [tax_summary] returns. *)
Record TaxSummary : Type := mkTaxSummary {
  gross_monthly : Q;
  gross_annual : Q;
  income_tax_annual : Q;
  income_tax_monthly : Q;
  national_insurance_monthly : Q;
  total_tax_monthly : Q;
  net_monthly : Q;
  effective_rate_pct : Q
}.

Definition tax_summary (gross_monthly_income : Q) : TaxSummary :=
  let annual_income := gross_monthly_income * 12 in
  let annual_income_tax := calculate_income_tax annual_income in
  let monthly_income_tax := annual_income_tax / 12 in
  let monthly_ni := calculate_national_insurance gross_monthly_income in
  let total_tax := monthly_income_tax + monthly_ni in
  let net_income := gross_monthly_income - total_tax in
  {| gross_monthly := gross_monthly_income;
     gross_annual := annual_income;
     income_tax_annual := annual_income_tax;
     income_tax_monthly := monthly_income_tax;
     national_insurance_monthly := monthly_ni;
     total_tax_monthly := total_tax;
     net_monthly := net_income;
     effective_rate_pct :=
       if Qltb 0 gross_monthly_income then total_tax / gross_monthly_income * 100
       else 0 |}.

End IsraeliTax.

(** ** model.py: schedule resolvers *)

(** [if not schedule]: an absent and an empty list are both falsy. *)
Definition falsy {A : Type} (l : option (list A)) : bool :=
  match l with
  | None | Some [] => true
  | Some (_ :: _) => false
  end.

Definition entries {A : Type} (l : option (list A)) : list A :=
  match l with
  | None => []
  | Some xs => xs
  end.

Definition Schedule : Type := option (list (Q * Q)).

Definition get_income_at_age (age base_income : Q) (income_schedule : Schedule) : Q :=
  if falsy income_schedule then base_income
  else
    let applicable_changes :=
      List.filter (fun e => Qleb (fst e) age) (entries income_schedule) in
    match List.rev applicable_changes with
    | [] => base_income
    | last_change :: _ => snd last_change
    end.

Definition get_expense_at_age (age base_expense : Q) (expense_schedule : Schedule) : Q :=
  if falsy expense_schedule then base_expense
  else
    let applicable_changes :=
      List.filter (fun e => Qleb (fst e) age) (entries expense_schedule) in
    match List.rev applicable_changes with
    | [] => base_expense
    | last_change :: _ => snd last_change
    end.

(** ** model.py: data *)

(** A one-time event: [(age, amount, description)]. *)
Definition OneTimeEvent : Type := (Q * Q * string)%type.

Record Params : Type := mkParams {
  age_now : Q;
  retire_age : Q;
  pension_start_age : Q;
  income_schedule : Schedule;
  spouse_age_now : Q;
  spouse_retire_age : Q;
  spouse_pension_start_age : Q;
  spouse_income_schedule : Schedule;
  one_time_events : option (list OneTimeEvent);
  expense_schedule : Schedule;
  end_age : Q;
  r_annual_real : Q;
  gross_income_month : Q;
  pension_rate : Q;
  pension_rate_employer : Q;
  hishtalmut_rate_employee : Q;
  hishtalmut_rate_employer : Q;
  hishtalmut_salary_cap : Q;
  spouse_gross_income_month : Q;
  spouse_pension_rate : Q;
  spouse_pension_rate_employer : Q;
  spouse_hishtalmut_rate_employee : Q;
  spouse_hishtalmut_rate_employer : Q;
  spouse_hishtalmut_salary_cap : Q;
  spend_month : Q;
  liquid_now : Q;
  pension_now : Q;
  spouse_pension_now : Q;
  min_assets : Q;
  mekadem : Q;
  spouse_mekadem : Q;
  old_age_pension_month : Q;
  old_age_pension_start_age : Q;
  pension_tax_free_amount : Q
}.

(** The properties of [Params] other than [r_month]. *)
Definition contrib_pension_month (self : Params) : Q :=
  let employee_contrib := gross_income_month self * pension_rate self in
  let employer_contrib := gross_income_month self * pension_rate_employer self in
  employee_contrib + employer_contrib.

Definition contrib_pension_employee_month (self : Params) : Q :=
  gross_income_month self * pension_rate self.

Definition contrib_hishtalmut_month (self : Params) : Q :=
  let capped_salary := py_min (gross_income_month self) (hishtalmut_salary_cap self) in
  let employee_contrib := capped_salary * hishtalmut_rate_employee self in
  let employer_contrib := capped_salary * hishtalmut_rate_employer self in
  employee_contrib + employer_contrib.

Definition contrib_hishtalmut_employee_month (self : Params) : Q :=
  let capped_salary := py_min (gross_income_month self) (hishtalmut_salary_cap self) in
  capped_salary * hishtalmut_rate_employee self.

Definition spouse_contrib_pension_month (self : Params) : Q :=
  let employee_contrib := spouse_gross_income_month self * spouse_pension_rate self in
  let employer_contrib :=
    spouse_gross_income_month self * spouse_pension_rate_employer self in
  employee_contrib + employer_contrib.

Definition spouse_contrib_pension_employee_month (self : Params) : Q :=
  spouse_gross_income_month self * spouse_pension_rate self.

Definition spouse_contrib_hishtalmut_month (self : Params) : Q :=
  let capped_salary :=
    py_min (spouse_gross_income_month self) (spouse_hishtalmut_salary_cap self) in
  let employee_contrib := capped_salary * spouse_hishtalmut_rate_employee self in
  let employer_contrib := capped_salary * spouse_hishtalmut_rate_employer self in
  employee_contrib + employer_contrib.

Definition spouse_contrib_hishtalmut_employee_month (self : Params) : Q :=
  let capped_salary :=
    py_min (spouse_gross_income_month self) (spouse_hishtalmut_salary_cap self) in
  capped_salary * spouse_hishtalmut_rate_employee self.

(** [Params()] with every field at its default. *)
Definition default_params : Params := {|
  age_now := 38; retire_age := 65; pension_start_age := 67;
  income_schedule := None;
  spouse_age_now := 36; spouse_retire_age := 65; spouse_pension_start_age := 67;
  spouse_income_schedule := None;
  one_time_events := None;
  expense_schedule := None;
  end_age := 95;
  r_annual_real := 3 # 100;
  gross_income_month := 18000;
  pension_rate := 6 # 100; pension_rate_employer := 125 # 1000;
  hishtalmut_rate_employee := 25 # 1000; hishtalmut_rate_employer := 75 # 1000;
  hishtalmut_salary_cap := 15712;
  spouse_gross_income_month := 15000;
  spouse_pension_rate := 6 # 100; spouse_pension_rate_employer := 125 # 1000;
  spouse_hishtalmut_rate_employee := 25 # 1000; spouse_hishtalmut_rate_employer := 75 # 1000;
  spouse_hishtalmut_salary_cap := 15712;
  spend_month := 16000;
  liquid_now := 300000; pension_now := 400000; spouse_pension_now := 350000;
  min_assets := 150000;
  mekadem := 230; spouse_mekadem := 230;
  old_age_pension_month := 2000; old_age_pension_start_age := 70;
  pension_tax_free_amount := 5000
|}.

Inductive Person : Type := Person1 | Person2.

(** The reason strings of [Result]; the numbers an f-string interpolates
    are kept as arguments. *)
Inductive Reason : Type :=
| NoReason
| RetireBeforeNow (who : Person)
| RetireAfterPensionStart (who : Person)
| IncomeScheduleBeforeNow (who : Person) (schedule_age now : Q)
| IncomeScheduleAtOrAfterRetire (who : Person) (schedule_age retire : Q)
| IncomeScheduleNegative (who : Person) (schedule_income : Q)
| EventBeforeNow (event_age now : Q)
| EventAfterEnd (event_age horizon : Q)
| ExpenseScheduleBeforeNow (schedule_age now : Q)
| ExpenseScheduleAfterEnd (schedule_age horizon : Q)
| ExpenseScheduleNegative (schedule_expense : Q)
| FellBelowMinimum (min_k age1 age2 : Q)
| BelowMinimumAtEnd (min_k end_k : Q)
| Feasible.

Definition person_name (who : Person) : string :=
  match who with Person1 => "Person 1" | Person2 => "Person 2" end.

(** The text of each reason, with the interpolated numbers left as [{}]. *)
Definition describe (r : Reason) : string :=
  match r with
  | NoReason => EmptyString
  | RetireBeforeNow who =>
      person_name who ++ " retirement age cannot be before current age"
  | RetireAfterPensionStart who =>
      person_name who ++ " retirement age cannot be after pension start age"
  | IncomeScheduleBeforeNow who _ _ =>
      person_name who ++ " income schedule age {} cannot be before current age {}"
  | IncomeScheduleAtOrAfterRetire who _ _ =>
      person_name who ++ " income schedule age {} cannot be at or after retirement age {}"
  | IncomeScheduleNegative who _ =>
      person_name who ++ " income schedule income {} cannot be negative"
  | EventBeforeNow _ _ => "One-time event at age {} cannot be before current age {}"
  | EventAfterEnd _ _ => "One-time event at age {} cannot be after end age {}"
  | ExpenseScheduleBeforeNow _ _ => "Expense schedule age {} cannot be before current age {}"
  | ExpenseScheduleAfterEnd _ _ => "Expense schedule age {} cannot be after end age {}"
  | ExpenseScheduleNegative _ => "Expense schedule expense {} cannot be negative"
  | FellBelowMinimum _ _ _ =>
      "Assets fell below minimum (₪{}K) at person 1 age {}, person 2 age {}"
  | BelowMinimumAtEnd _ _ => "Assets below minimum (₪{}K) at end age (₪{}K)"
  | Feasible => "Feasible retirement scenario for both people"
  end%string.

Inductive Phase : Type := both_working | one_working | bridge | post_pension.

(** One row of the data frame: the dictionary appended to [records]. *)
Module Month.
Record t : Type := mk {
  month : Z;
  age1 : Q;
  age2 : Q;
  phase : Phase;
  liquid : Q;
  pension1 : Q;
  pension2 : Q;
  salary1_gross : Q;
  salary1_net : Q;
  hishtalmut1 : Q;
  salary2_gross : Q;
  salary2_net : Q;
  hishtalmut2 : Q;
  pension1_income : Q;
  pension2_income : Q;
  pension1_income_net : Q;
  pension2_income_net : Q;
  one_time_event : Q;
  total_pension_income : Q;
  old_age_pension : Q;
  monthly_expense : Q;
  liquid_change : Q;
  person1_working : bool;
  person2_working : bool
}.
End Month.

Record Result : Type := mkResult {
  ok : bool;
  reason : Reason;
  df : list Month.t;
  pension_at_start : Q;
  pension_income_month : Q;
  spouse_pension_at_start : Q;
  spouse_pension_income_month : Q;
  liquid_end : Q;
  liquid_at_pension_start : Q
}.

(** One dictionary of the list [compare_scenarios] returns. *)
Module Scenario.
Record t : Type := mk {
  retirement_age : Q;
  spouse_retirement_age : Q;
  feasible : bool;
  reason : Reason;
  liquid_at_pension_start : Q;
  pension_at_start : Q;
  pension_income_month : Q;
  spouse_pension_at_start : Q;
  spouse_pension_income_month : Q;
  liquid_end : Q;
  working_years : Q;
  spouse_working_years : Q
}.
End Scenario.

(** [Result(ok=False, reason=..., df=pd.DataFrame())]: the other fields take
    their defaults. *)
Definition rejected (why : Reason) : Result :=
  mkResult false why [] 0 0 0 0 0 0.

(** The local variables of [simulate] that live across iterations of the
    month loop. *)
Record State : Type := mkState {
  liquid : Q;
  pension1 : Q;
  pension2 : Q;
  pension1_income_active : bool;
  pension1_income_month : Q;
  pension2_income_active : bool;
  pension2_income_month : Q;
  old_age_pension1_active : bool;
  old_age_pension2_active : bool;
  liquid_at_first_pension_start : Q;
  first_pension_started : bool;
  min_assets_violated : bool;
  min_assets_violation_reason : Reason;
  applied_events : gset nat;
  records : list Month.t
}.

Definition init_state (params : Params) : State := {|
  liquid := liquid_now params;
  pension1 := pension_now params;
  pension2 := spouse_pension_now params;
  pension1_income_active := false;
  pension1_income_month := 0;
  pension2_income_active := false;
  pension2_income_month := 0;
  old_age_pension1_active := false;
  old_age_pension2_active := false;
  liquid_at_first_pension_start := 0;
  first_pension_started := false;
  min_assets_violated := false;
  min_assets_violation_reason := NoReason;
  applied_events := ∅;
  records := []
|}.

(** ** model.py: input validation of [simulate] *)

Fixpoint check_income_schedule (who : Person) (now retire : Q) (l : list (Q * Q))
  : option Reason :=
  match l with
  | [] => None
  | (schedule_age, schedule_income) :: rest =>
    if Qltb schedule_age now then Some (IncomeScheduleBeforeNow who schedule_age now)
    else if Qleb retire schedule_age
    then Some (IncomeScheduleAtOrAfterRetire who schedule_age retire)
    else if Qltb schedule_income 0 then Some (IncomeScheduleNegative who schedule_income)
    else check_income_schedule who now retire rest
  end.

Fixpoint check_one_time_events (now horizon : Q) (l : list OneTimeEvent) : option Reason :=
  match l with
  | [] => None
  | (event_age, amount, description) :: rest =>
    if Qltb event_age now then Some (EventBeforeNow event_age now)
    else if Qltb horizon event_age then Some (EventAfterEnd event_age horizon)
    else check_one_time_events now horizon rest
  end.

Fixpoint check_expense_schedule (now horizon : Q) (l : list (Q * Q)) : option Reason :=
  match l with
  | [] => None
  | (schedule_age, schedule_expense) :: rest =>
    if Qltb schedule_age now then Some (ExpenseScheduleBeforeNow schedule_age now)
    else if Qltb horizon schedule_age then Some (ExpenseScheduleAfterEnd schedule_age horizon)
    else if Qltb schedule_expense 0 then Some (ExpenseScheduleNegative schedule_expense)
    else check_expense_schedule now horizon rest
  end.

(** The checks at the head of [simulate], in their order; [Some why] is the
    early [return Result(ok=False, reason=why, df=pd.DataFrame())]. *)
Definition validate (retire_age : Q) (params : Params) (spouse_retire_age : Q)
  : option Reason :=
  if Qltb retire_age (age_now params) then Some (RetireBeforeNow Person1)
  else if Qltb spouse_retire_age (spouse_age_now params) then Some (RetireBeforeNow Person2)
  else if Qltb (pension_start_age params) retire_age
  then Some (RetireAfterPensionStart Person1)
  else if Qltb (spouse_pension_start_age params) spouse_retire_age
  then Some (RetireAfterPensionStart Person2)
  else
    match check_income_schedule Person1 (age_now params) retire_age
            (entries (income_schedule params)) with
    | Some why => Some why
    | None =>
    match check_income_schedule Person2 (spouse_age_now params) spouse_retire_age
            (entries (spouse_income_schedule params)) with
    | Some why => Some why
    | None =>
    match check_one_time_events (age_now params) (end_age params)
            (entries (one_time_events params)) with
    | Some why => Some why
    | None =>
      check_expense_schedule (age_now params) (end_age params)
        (entries (expense_schedule params))
    end end end.

Definition total_months (params : Params) : Z :=
  let older_age_now := py_max (age_now params) (spouse_age_now params) in
  py_round ((end_age params - older_age_now) * 12).

(** The loop over [enumerate(params.one_time_events)] inside a month:
    [idx] is the index of the head of [events]; the accumulator holds
    [liquid], [one_time_event_amount] and [applied_events]. *)
Fixpoint apply_events (age1 : Q) (idx : nat) (events : list OneTimeEvent)
    (acc : Q * Q * gset nat) : Q * Q * gset nat :=
  match events with
  | [] => acc
  | (event_age, amount, description) :: rest =>
    let '(liquid, one_time_event_amount, applied_events) := acc in
    if Qleb event_age age1 && bool_decide (idx ∉ applied_events)
    then apply_events age1 (S idx) rest
           (liquid + amount, one_time_event_amount + amount, applied_events ∪ {[ idx ]})
    else apply_events age1 (S idx) rest acc
  end.

(** ** Scenarios of the closed runs *)

(** A power function for the closed runs below.  It is exact on the only base
    they use: every scenario has [r_annual_real = 0], and [1 ** y = 1]. *)
Definition pow_at_one (x y : Q) : Q := x.

(** Rounding to the nearest binary64 float, ties to even, for the closed
    runs below: the mantissa has 53 bits; the exponent is not bounded (no
    overflow and no subnormal numbers, which ages do not reach). *)
Definition binary64 (x : Q) : Q :=
  if Qeq_bool x 0 then 0
  else
    let a := if Qltb x 0 then - x else x in
    let e0 := (Z.log2 (Qnum a) - Z.log2 (Zpos (Qden a)) - 52)%Z in
    let e := if Qltb (a / Qpower 2 e0) (Qpower 2 52) then (e0 - 1)%Z else e0 in
    let mantissa := py_round (a / Qpower 2 e) in
    (if Qltb x 0 then - inject_Z mantissa else inject_Z mantissa) * Qpower 2 e.

(** The float subtraction: the exact difference, rounded. *)
Definition binary64_sub (x y : Q) : Q := binary64 (x - y).

(** A household in which both persons have the same age, with no return, no
    contribution and no schedule. *)
Definition scenario (age retire pension_start horizon_age gross1 gross2 spend
    liquid0 pension0 floor divisor : Q) (events : option (list OneTimeEvent))
  : Params := {|
  age_now := age; retire_age := retire; pension_start_age := pension_start;
  income_schedule := None;
  spouse_age_now := age; spouse_retire_age := retire;
  spouse_pension_start_age := pension_start;
  spouse_income_schedule := None;
  one_time_events := events;
  expense_schedule := None;
  end_age := horizon_age;
  r_annual_real := 0;
  gross_income_month := gross1;
  pension_rate := 0; pension_rate_employer := 0;
  hishtalmut_rate_employee := 0; hishtalmut_rate_employer := 0;
  hishtalmut_salary_cap := 15712;
  spouse_gross_income_month := gross2;
  spouse_pension_rate := 0; spouse_pension_rate_employer := 0;
  spouse_hishtalmut_rate_employee := 0; spouse_hishtalmut_rate_employer := 0;
  spouse_hishtalmut_salary_cap := 15712;
  spend_month := spend;
  liquid_now := liquid0; pension_now := pension0; spouse_pension_now := pension0;
  min_assets := floor;
  mekadem := divisor; spouse_mekadem := divisor;
  old_age_pension_month := 2000; old_age_pension_start_age := 70;
  pension_tax_free_amount := 5000
|}.

(** Both work for the whole year simulated. *)
Definition working_year : Params :=
  scenario 40 65 67 41 20000 0 10000 100000 400000 0 200 None.


(** The horizon lies before the current age. *)
Definition horizon_in_the_past : Params :=
  scenario 40 65 67 30 20000 0 10000 100000 400000 0 200 None.


(** Retired at 66, payout from 67, two years simulated. *)
Definition payout_starts : Params :=
  scenario 66 66 67 68 0 0 1000 100000 400000 0 200 None.

(** Retired, one year simulated; the floor, not the target, limits spending. *)
Definition floor_binds : Params :=
  scenario 40 40 67 41 18000 15000 1000 1200000 400000 900000 200 None.

(** Retired, one year simulated, ending exactly on the floor. *)
Definition touches_floor : Params :=
  scenario 40 40 67 41 0 0 1000 112000 400000 100000 200 None.

(** As [touches_floor], with a floor one unit higher. *)
Definition breaks_floor : Params :=
  scenario 40 40 67 41 0 0 1000 112000 400000 100001 200 None.

(** Both work for the year simulated and save: pension and hishtalmut
    contributions are deducted and matched, person 1 earns above the
    hishtalmut salary cap. *)
Definition saving_year : Params := {|
  age_now := 40; retire_age := 65; pension_start_age := 67;
  income_schedule := None;
  spouse_age_now := 40; spouse_retire_age := 65;
  spouse_pension_start_age := 67;
  spouse_income_schedule := None;
  one_time_events := None;
  expense_schedule := None;
  end_age := 41;
  r_annual_real := 0;
  gross_income_month := 20000;
  pension_rate := 6 # 100; pension_rate_employer := 65 # 1000;
  hishtalmut_rate_employee := 25 # 1000; hishtalmut_rate_employer := 75 # 1000;
  hishtalmut_salary_cap := 15712;
  spouse_gross_income_month := 10000;
  spouse_pension_rate := 6 # 100; spouse_pension_rate_employer := 65 # 1000;
  spouse_hishtalmut_rate_employee := 25 # 1000;
  spouse_hishtalmut_rate_employer := 75 # 1000;
  spouse_hishtalmut_salary_cap := 15712;
  spend_month := 10000;
  liquid_now := 100000; pension_now := 400000; spouse_pension_now := 400000;
  min_assets := 0;
  mekadem := 200; spouse_mekadem := 200;
  old_age_pension_month := 2000; old_age_pension_start_age := 70;
  pension_tax_free_amount := 5000
|}.



(** Retired, one year simulated; person 2 is 22.8 years old, which is not a
    binary fraction: the field holds the nearest float. *)
Definition ages_55_and_22_8 : Params := {|
  age_now := 55; retire_age := 55; pension_start_age := 67;
  income_schedule := None;
  spouse_age_now := binary64 (228 # 10); spouse_retire_age := binary64 (228 # 10);
  spouse_pension_start_age := 67;
  spouse_income_schedule := None;
  one_time_events := None;
  expense_schedule := None;
  end_age := 56;
  r_annual_real := 0;
  gross_income_month := 0;
  pension_rate := 0; pension_rate_employer := 0;
  hishtalmut_rate_employee := 0; hishtalmut_rate_employer := 0;
  hishtalmut_salary_cap := 15712;
  spouse_gross_income_month := 0;
  spouse_pension_rate := 0; spouse_pension_rate_employer := 0;
  spouse_hishtalmut_rate_employee := 0; spouse_hishtalmut_rate_employer := 0;
  spouse_hishtalmut_salary_cap := 15712;
  spend_month := 1000;
  liquid_now := 100000; pension_now := 400000; spouse_pension_now := 400000;
  min_assets := 0;
  mekadem := 200; spouse_mekadem := 200;
  old_age_pension_month := 2000; old_age_pension_start_age := 70;
  pension_tax_free_amount := 5000
|}.


(** ** model.py: the simulation engine *)

Section Engine.

(** Python's [x ** y] on floats. *)
Variable float_pow : Q -> Q -> Q.

(** The property [Params.r_month], for a base that is not negative; for a
    negative base see [real_balance]. *)
Definition r_month (params : Params) : Q :=
  float_pow (1 + r_annual_real params) (1 / 12) - 1.

(** [r_month] is a float for a base [1 + r_annual_real] that is not
    negative.  For a negative base it is a complex number, and so is every
    balance that has grown by it: the arithmetic of the month goes through,
    and the first comparison of a balance raises [TypeError]. *)
Definition real_balance (params : Params) : exc unit :=
  if Qltb (1 + r_annual_real params) 0 then Raise TypeError else Return tt.

(** The body of [for month in range(total_months)].  The salary figures of
    a person ([gross_p1], [tax_p1], ...) are bound ahead of the test
    [if person1_working] and used under it only; the test of a conditional
    assignment of the source is repeated at each variable it assigns. *)
Definition month_body (retire_age : Q) (params : Params) (spouse_retire_age : Q)
    (st : State) (month : Z) : exc State :=
  let age1 := age_now params + inject_Z month / 12 in
  let age2 := spouse_age_now params + inject_Z month / 12 in
  let r_month := r_month params in
  (* Apply returns to all accounts *)
  let liquid := liquid st * (1 + r_month) in
  let pension1 := pension1 st * (1 + r_month) in
  let pension2 := pension2 st * (1 + r_month) in
  let net_income_this_month := 0 in
  (* Person 1 working? *)
  let person1_working := Qltb age1 retire_age in
  let gross_p1 :=
    get_income_at_age age1 (gross_income_month params) (income_schedule params) in
  let tax_p1 := IsraeliTax.calculate_monthly_tax_from_gross gross_p1 in
  let employee_pension_p1 := gross_p1 * pension_rate params in
  let capped_salary_p1 := py_min gross_p1 (hishtalmut_salary_cap params) in
  let employee_hishtalmut_p1 := capped_salary_p1 * hishtalmut_rate_employee params in
  let net_p1 := gross_p1 - tax_p1 - employee_pension_p1 - employee_hishtalmut_p1 in
  let employer_hishtalmut_p1 := capped_salary_p1 * hishtalmut_rate_employer params in
  let employer_pension_p1 := gross_p1 * pension_rate_employer params in
  let net_income_this_month :=
    if person1_working then net_income_this_month + net_p1 else net_income_this_month in
  let salary1_gross := if person1_working then gross_p1 else 0 in
  let salary1_net := if person1_working then net_p1 else 0 in
  let hishtalmut1 :=
    if person1_working then employee_hishtalmut_p1 + employer_hishtalmut_p1 else 0 in
  let liquid := if person1_working then liquid + hishtalmut1 else liquid in
  let pension1 :=
    if person1_working then pension1 + (employee_pension_p1 + employer_pension_p1)
    else pension1 in
  (* Person 2 working? *)
  let person2_working := Qltb age2 spouse_retire_age in
  let gross_p2 :=
    get_income_at_age age2 (spouse_gross_income_month params)
      (spouse_income_schedule params) in
  let tax_p2 := IsraeliTax.calculate_monthly_tax_from_gross gross_p2 in
  let employee_pension_p2 := gross_p2 * spouse_pension_rate params in
  let capped_salary_p2 := py_min gross_p2 (spouse_hishtalmut_salary_cap params) in
  let employee_hishtalmut_p2 :=
    capped_salary_p2 * spouse_hishtalmut_rate_employee params in
  let net_p2 := gross_p2 - tax_p2 - employee_pension_p2 - employee_hishtalmut_p2 in
  let employer_hishtalmut_p2 :=
    capped_salary_p2 * spouse_hishtalmut_rate_employer params in
  let employer_pension_p2 := gross_p2 * spouse_pension_rate_employer params in
  let net_income_this_month :=
    if person2_working then net_income_this_month + net_p2 else net_income_this_month in
  let salary2_gross := if person2_working then gross_p2 else 0 in
  let salary2_net := if person2_working then net_p2 else 0 in
  let hishtalmut2 :=
    if person2_working then employee_hishtalmut_p2 + employer_hishtalmut_p2 else 0 in
  let liquid := if person2_working then liquid + hishtalmut2 else liquid in
  let pension2 :=
    if person2_working then pension2 + (employee_pension_p2 + employer_pension_p2)
    else pension2 in
  (* Add net income to liquid *)
  let liquid := liquid + net_income_this_month in
  (* Apply one-time events (if any) at the appropriate age *)
  let '(liquid, one_time_event_amount, applied_events) :=
    apply_events age1 0 (entries (one_time_events params))
      (liquid, 0, applied_events st) in
  (* Activate pension income when each person reaches pension start age *)
  let activate1 :=
    negb (pension1_income_active st) && Qleb (pension_start_age params) age1 in
  let* pension1_income_month :=
    (if activate1 then py_div pension1 (mekadem params)
     else Return (pension1_income_month st)) in
  let pension1_income_active := pension1_income_active st || activate1 in
  let liquid_at_first_pension_start :=
    if activate1 && negb (first_pension_started st) then liquid
    else liquid_at_first_pension_start st in
  let first_pension_started := first_pension_started st || activate1 in
  let activate2 :=
    negb (pension2_income_active st) && Qleb (spouse_pension_start_age params) age2 in
  let* pension2_income_month :=
    (if activate2 then py_div pension2 (spouse_mekadem params)
     else Return (pension2_income_month st)) in
  (* From here on balances are compared: [max(0.0, ...)] on a payout,
     [liquid < params.min_assets] *)
  let* compared := real_balance params in
  let pension2_income_active := pension2_income_active st || activate2 in
  let liquid_at_first_pension_start :=
    if activate2 && negb first_pension_started then liquid
    else liquid_at_first_pension_start in
  let first_pension_started := first_pension_started || activate2 in
  (* Activate old age pension when each person reaches the start age *)
  let old_age_pension1_active :=
    old_age_pension1_active st || Qleb (old_age_pension_start_age params) age1 in
  let old_age_pension2_active :=
    old_age_pension2_active st || Qleb (old_age_pension_start_age params) age2 in
  let old_age_pension1_amount :=
    if old_age_pension1_active then old_age_pension_month params else 0 in
  let old_age_pension2_amount :=
    if old_age_pension2_active then old_age_pension_month params else 0 in
  let total_old_age_pension := old_age_pension1_amount + old_age_pension2_amount in
  (* Calculate total pension income this month (after tax) *)
  let total_pension_income_net := 0 in
  let pension_gross_p1 := pension1_income_month in
  let taxable_pension_p1 := py_max 0 (pension_gross_p1 - pension_tax_free_amount params) in
  let pension_tax_p1 := IsraeliTax.calculate_monthly_tax_from_gross taxable_pension_p1 in
  let pension_net_p1 :=
    if pension1_income_active then pension_gross_p1 - pension_tax_p1 else 0 in
  let total_pension_income_net :=
    if pension1_income_active then total_pension_income_net + pension_net_p1
    else total_pension_income_net in
  let pension1 := if pension1_income_active then pension1 - pension_gross_p1 else pension1 in
  let pension_gross_p2 := pension2_income_month in
  let taxable_pension_p2 := py_max 0 (pension_gross_p2 - pension_tax_free_amount params) in
  let pension_tax_p2 := IsraeliTax.calculate_monthly_tax_from_gross taxable_pension_p2 in
  let pension_net_p2 :=
    if pension2_income_active then pension_gross_p2 - pension_tax_p2 else 0 in
  let total_pension_income_net :=
    if pension2_income_active then total_pension_income_net + pension_net_p2
    else total_pension_income_net in
  let pension2 := if pension2_income_active then pension2 - pension_gross_p2 else pension2 in
  (* Add pension income and old age pension to liquid *)
  let liquid := liquid + total_pension_income_net in
  let liquid := liquid + total_old_age_pension in
  (* Get monthly spending at current age and deduct it from liquid *)
  let current_monthly_expense :=
    get_expense_at_age age1 (spend_month params) (expense_schedule params) in
  let liquid := liquid - current_monthly_expense in
  (* Track if liquid went below minimum assets threshold (but continue) *)
  let violation := negb (min_assets_violated st) && Qltb liquid (min_assets params) in
  let min_assets_violation_reason :=
    if violation then FellBelowMinimum (min_assets params / 1000) age1 age2
    else min_assets_violation_reason st in
  let min_assets_violated := min_assets_violated st || violation in
  (* Determine phase for display *)
  let phase :=
    if person1_working && person2_working then both_working
    else if person1_working || person2_working then one_working
    else if negb pension1_income_active && negb pension2_income_active then bridge
    else post_pension in
  (* Net change to liquid from cash flows (excluding investment returns) *)
  let total_income_to_liquid :=
    net_income_this_month + total_pension_income_net + total_old_age_pension
    + hishtalmut1 + hishtalmut2 + one_time_event_amount in
  let liquid_change := total_income_to_liquid - current_monthly_expense in
  let row := {|
    Month.month := month;
    Month.age1 := age1;
    Month.age2 := age2;
    Month.phase := phase;
    Month.liquid := liquid;
    Month.pension1 := pension1;
    Month.pension2 := pension2;
    Month.salary1_gross := salary1_gross;
    Month.salary1_net := salary1_net;
    Month.hishtalmut1 := hishtalmut1;
    Month.salary2_gross := salary2_gross;
    Month.salary2_net := salary2_net;
    Month.hishtalmut2 := hishtalmut2;
    Month.pension1_income := if pension1_income_active then pension1_income_month else 0;
    Month.pension2_income := if pension2_income_active then pension2_income_month else 0;
    Month.pension1_income_net := pension_net_p1;
    Month.pension2_income_net := pension_net_p2;
    Month.one_time_event := one_time_event_amount;
    Month.total_pension_income := total_pension_income_net;
    Month.old_age_pension := total_old_age_pension;
    Month.monthly_expense := current_monthly_expense;
    Month.liquid_change := liquid_change;
    Month.person1_working := person1_working;
    Month.person2_working := person2_working
  |} in
  Return {|
    liquid := liquid;
    pension1 := pension1;
    pension2 := pension2;
    pension1_income_active := pension1_income_active;
    pension1_income_month := pension1_income_month;
    pension2_income_active := pension2_income_active;
    pension2_income_month := pension2_income_month;
    old_age_pension1_active := old_age_pension1_active;
    old_age_pension2_active := old_age_pension2_active;
    liquid_at_first_pension_start := liquid_at_first_pension_start;
    first_pension_started := first_pension_started;
    min_assets_violated := min_assets_violated;
    min_assets_violation_reason := min_assets_violation_reason;
    applied_events := applied_events;
    records := records st ++ [row]
  |}.

(** The month loop, over the months still to run. *)
Fixpoint run_months (retire_age : Q) (params : Params) (spouse_retire_age : Q)
    (st : State) (months : list Z) : exc State :=
  match months with
  | [] => Return st
  | month :: rest =>
    let* st' := month_body retire_age params spouse_retire_age st month in
    run_months retire_age params spouse_retire_age st' rest
  end.

(** What [simulate] returns after the loop. *)
Definition verdict (params : Params) (st : State) : Result :=
  let liquid_end := liquid st in
  if min_assets_violated st then
    {| ok := false;
       reason := min_assets_violation_reason st;
       df := records st;
       pension_at_start := pension1 st;
       pension_income_month := pension1_income_month st;
       spouse_pension_at_start := pension2 st;
       spouse_pension_income_month := pension2_income_month st;
       liquid_end := liquid_end;
       liquid_at_pension_start := liquid_at_first_pension_start st |}
  else if Qltb liquid_end (min_assets params) then
    {| ok := false;
       reason := BelowMinimumAtEnd (min_assets params / 1000) (liquid_end / 1000);
       df := records st;
       pension_at_start := pension1 st;
       pension_income_month := pension1_income_month st;
       spouse_pension_at_start := pension2 st;
       spouse_pension_income_month := pension2_income_month st;
       liquid_end := liquid_end;
       liquid_at_pension_start := liquid_at_first_pension_start st |}
  else
    {| ok := true;
       reason := Feasible;
       df := records st;
       pension_at_start := if pension1_income_active st then pension1 st else 0;
       pension_income_month := pension1_income_month st;
       spouse_pension_at_start := if pension2_income_active st then pension2 st else 0;
       spouse_pension_income_month := pension2_income_month st;
       liquid_end := liquid_end;
       liquid_at_pension_start := liquid_at_first_pension_start st |}.

(** [if retire_age is None: retire_age = params.retire_age] *)
Definition default_retire_age (arg : option Q) (params : Params) : Q :=
  match arg with
  | None => retire_age params
  | Some a => a
  end.

(** [if spouse_retire_age is None: spouse_retire_age = params.spouse_retire_age] *)
Definition default_spouse_retire_age (arg : option Q) (params : Params) : Q :=
  match arg with
  | None => spouse_retire_age params
  | Some a => a
  end.

Definition simulate (retire_age : Q) (params : Params) (spouse_retire_age : option Q)
  : exc Result :=
  let spouse_retire_age := default_spouse_retire_age spouse_retire_age params in
  match validate retire_age params spouse_retire_age with
  | Some why => Return (rejected why)
  | None =>
    let* st := run_months retire_age params spouse_retire_age (init_state params)
                 (py_range (total_months params)) in
    Return (verdict params st)
  end.

(** ** search.py *)

(** Python's [range(start, stop, step)], as the list of its integers. *)
Definition py_range3 (start stop step : Z) : exc (list Z) :=
  if (step =? 0)%Z then Raise ValueError
  else
    let n :=
      if (0 <? step)%Z then ((stop - start + step - 1) / step)%Z
      else ((start - stop - step - 1) / (- step))%Z in
    Return (List.map (fun i => (start + Z.of_nat i * step)%Z) (List.seq 0 (Z.to_nat n))).

(** The loop [for m in range(0, total_months + 1, step_months)] of
    [find_earliest_retirement], over the values of [m] still to visit. *)
Fixpoint scan_retirement (params : Params) (min_age max_age spouse_retire_age : Q)
    (ms : list Z) : exc (option (Q * Result)) :=
  match ms with
  | [] => Return None
  | m :: rest =>
    let retire_age := min_age + inject_Z m / 12 in
    (* Don't exceed max_age *)
    let retire_age := if Qltb max_age retire_age then max_age else retire_age in
    let* result := simulate retire_age params (Some spouse_retire_age) in
    if ok result then Return (Some (retire_age, result))
    else if Qleb max_age retire_age then Return None
    else scan_retirement params min_age max_age spouse_retire_age rest
  end.

(** The bounds after defaulting and clamping. *)
Definition clamped_min_age (params : Params) (min_age : option Q) : Q :=
  let min_age := match min_age with None => age_now params | Some a => a end in
  if Qltb min_age (age_now params) then age_now params else min_age.

Definition clamped_max_age (params : Params) (max_age : option Q) : Q :=
  let max_age := match max_age with None => pension_start_age params | Some a => a end in
  if Qltb (pension_start_age params) max_age then pension_start_age params else max_age.

(** [(None, None)] is [None]; [(retire_age, result)] is [Some (retire_age, result)]. *)
Definition find_earliest_retirement (params : Params)
    (min_age max_age spouse_retire_age : option Q) (step_months : Z)
  : exc (option (Q * Result)) :=
  let spouse_retire_age := default_spouse_retire_age spouse_retire_age params in
  let min_age := clamped_min_age params min_age in
  let max_age := clamped_max_age params max_age in
  if Qltb max_age min_age then Return None
  else
    let total_months := py_round ((max_age - min_age) * 12) in
    let* ms := py_range3 0 (total_months + 1) step_months in
    scan_retirement params min_age max_age spouse_retire_age ms.

(** [Params(...)] of [find_max_monthly_expense]: a copy of [params] with
    [spend_month=mid]. *)
Definition test_params (params : Params) (mid : Q) : Params := {|
  age_now := age_now params;
  retire_age := retire_age params;
  pension_start_age := pension_start_age params;
  income_schedule := income_schedule params;
  spouse_age_now := spouse_age_now params;
  spouse_retire_age := spouse_retire_age params;
  spouse_pension_start_age := spouse_pension_start_age params;
  spouse_income_schedule := spouse_income_schedule params;
  one_time_events := one_time_events params;
  expense_schedule := expense_schedule params;
  end_age := end_age params;
  r_annual_real := r_annual_real params;
  gross_income_month := gross_income_month params;
  pension_rate := pension_rate params;
  pension_rate_employer := pension_rate_employer params;
  hishtalmut_rate_employee := hishtalmut_rate_employee params;
  hishtalmut_rate_employer := hishtalmut_rate_employer params;
  hishtalmut_salary_cap := hishtalmut_salary_cap params;
  spouse_gross_income_month := spouse_gross_income_month params;
  spouse_pension_rate := spouse_pension_rate params;
  spouse_pension_rate_employer := spouse_pension_rate_employer params;
  spouse_hishtalmut_rate_employee := spouse_hishtalmut_rate_employee params;
  spouse_hishtalmut_rate_employer := spouse_hishtalmut_rate_employer params;
  spouse_hishtalmut_salary_cap := spouse_hishtalmut_salary_cap params;
  spend_month := mid;
  liquid_now := liquid_now params;
  min_assets := min_assets params;
  pension_now := pension_now params;
  spouse_pension_now := spouse_pension_now params;
  mekadem := mekadem params;
  spouse_mekadem := spouse_mekadem params;
  old_age_pension_month := old_age_pension_month params;
  old_age_pension_start_age := old_age_pension_start_age params;
  pension_tax_free_amount := pension_tax_free_amount params
|}.

(** The variables of the binary search that live across its iterations;
    [best] pairs [best_spend] with [best_result], which are set together. *)
Record Bracket : Type := mkBracket {
  low : Q;
  high : Q;
  best : option (Q * Result)
}.

(** [result.ok and result.liquid_end >= target_end_assets - tolerance] *)
Definition meets_target (target_end_assets tolerance : Q) (result : Result) : bool :=
  ok result && Qleb (target_end_assets - tolerance) (liquid_end result).

(** The loop [for iteration in range(max_iterations)], with [iterations]
    rounds still to go. *)
Fixpoint bisect (params : Params) (target_end_assets retire_age spouse_retire_age
    tolerance : Q) (iterations : nat) (b : Bracket) : exc Bracket :=
  match iterations with
  | O => Return b
  | S iterations' =>
    let mid := (low b + high b) / 2 in
    let* result :=
      simulate retire_age (test_params params mid) (Some spouse_retire_age) in
    let b' :=
      if meets_target target_end_assets tolerance result
      then {| low := mid; high := high b; best := Some (mid, result) |}
      else {| low := low b; high := mid; best := best b |} in
    (* Check convergence *)
    if Qltb (high b' - low b') (tolerance / 10) then Return b'
    else bisect params target_end_assets retire_age spouse_retire_age tolerance
           iterations' b'
  end.

(** The bracket the search starts from. *)
Definition initial_bracket (params : Params) : Bracket :=
  let total_months := total_months params in
  let max_estimate :=
    liquid_now params * 2
    + (gross_income_month params + spouse_gross_income_month params)
      * inject_Z total_months in
  {| low := 0;
     high := if (0 <? total_months)%Z then max_estimate / inject_Z total_months
             else 1000000;
     best := None |}.

Definition find_max_monthly_expense (params : Params) (target_end_assets : Q)
    (retire_age spouse_retire_age : option Q) (tolerance : Q) (max_iterations : Z)
  : exc (option (Q * Result)) :=
  let retire_age := default_retire_age retire_age params in
  let spouse_retire_age := default_spouse_retire_age spouse_retire_age params in
  let* b := bisect params target_end_assets retire_age spouse_retire_age tolerance
              (Z.to_nat max_iterations) (initial_bracket params) in
  (* Verify the best result actually meets the target *)
  match best b with
  | Some (best_spend, best_result) =>
    if meets_target target_end_assets tolerance best_result
    then Return (Some (best_spend, best_result))
    else Return None
  | None => Return None
  end.

(** Python's [x - y] on floats, with its rounding.  The joint search derives
    person 2's retirement age by two subtractions and compares the result
    with person 2's current age: in exact arithmetic that test could never
    hold, with rounded subtractions it does on ordinary ages. *)
Variable float_sub : Q -> Q -> Q.

(** The loop of [find_earliest_joint_retirement], over the values of [m]
    still to visit; [Return None] in the second test is the [break], the
    recursive call in the third is the [continue]. *)
Fixpoint scan_joint_retirement (params : Params) (min_age age_diff : Q) (ms : list Z)
  : exc (option (Q * Q * Result)) :=
  match ms with
  | [] => Return None
  | m :: rest =>
    let retire_age1 := min_age + inject_Z m / 12 in
    let retire_age2 := float_sub retire_age1 age_diff in
    (* Check bounds *)
    if Qltb (pension_start_age params) retire_age1
       || Qltb (spouse_pension_start_age params) retire_age2
    then Return None
    else if Qltb retire_age1 (age_now params)
            || Qltb retire_age2 (spouse_age_now params)
    then scan_joint_retirement params min_age age_diff rest
    else
      let* result := simulate retire_age1 params (Some retire_age2) in
      if ok result then Return (Some (retire_age1, retire_age2, result))
      else scan_joint_retirement params min_age age_diff rest
  end.

(** The bounds of the joint search after defaulting and clamping. *)
Definition joint_min_age (params : Params) (min_age : option Q) : Q :=
  let min_age :=
    match min_age with
    | None => py_max (age_now params) (spouse_age_now params)
    | Some a => a
    end in
  if Qltb min_age (py_max (age_now params) (spouse_age_now params))
  then py_max (age_now params) (spouse_age_now params)
  else min_age.

Definition joint_max_age (params : Params) (max_age : option Q) : Q :=
  let max_age :=
    match max_age with
    | None => py_min (pension_start_age params) (spouse_pension_start_age params)
    | Some a => a
    end in
  if Qltb (py_min (pension_start_age params) (spouse_pension_start_age params)) max_age
  then py_min (pension_start_age params) (spouse_pension_start_age params)
  else max_age.

(** [(None, None, None)] is [None]. *)
Definition find_earliest_joint_retirement (params : Params) (min_age max_age : option Q)
    (step_months : Z) : exc (option (Q * Q * Result)) :=
  let min_age := joint_min_age params min_age in
  let max_age := joint_max_age params max_age in
  if Qltb max_age min_age then Return None
  else
    (* Calculate the age for each person when they both retire at same time *)
    let age_diff := float_sub (age_now params) (spouse_age_now params) in
    let total_months := py_round ((max_age - min_age) * 12) in
    let* ms := py_range3 0 (total_months + 1) step_months in
    scan_joint_retirement params min_age age_diff ms.

(** The loop [for retire_age in retirement_ages] of [compare_scenarios], with
    the list [scenarios] built so far. *)
Fixpoint compare_loop (params : Params) (spouse_retire_age : Q)
    (retirement_ages : list Q) (scenarios : list Scenario.t) : exc (list Scenario.t) :=
  match retirement_ages with
  | [] => Return scenarios
  | retire_age :: rest =>
    let* result := simulate retire_age params (Some spouse_retire_age) in
    compare_loop params spouse_retire_age rest
      (scenarios ++ [{|
         Scenario.retirement_age := retire_age;
         Scenario.spouse_retirement_age := spouse_retire_age;
         Scenario.feasible := ok result;
         Scenario.reason := reason result;
         Scenario.liquid_at_pension_start := liquid_at_pension_start result;
         Scenario.pension_at_start := pension_at_start result;
         Scenario.pension_income_month := pension_income_month result;
         Scenario.spouse_pension_at_start := spouse_pension_at_start result;
         Scenario.spouse_pension_income_month := spouse_pension_income_month result;
         Scenario.liquid_end := liquid_end result;
         Scenario.working_years := retire_age - age_now params;
         Scenario.spouse_working_years := spouse_retire_age - spouse_age_now params
       |}])
  end.

Definition compare_scenarios (params : Params) (retirement_ages : list Q)
    (spouse_retire_age : option Q) : exc (list Scenario.t) :=
  let spouse_retire_age := default_spouse_retire_age spouse_retire_age params in
  compare_loop params spouse_retire_age retirement_ages [].

(** ** Vocabulary of the properties *)

(** Sorted ascending by effective age. *)
Definition by_age (e1 e2 : Q * Q) : Prop := fst e1 <= fst e2.

Definition sorted_by_age (l : list (Q * Q)) : Prop := Sorted.Sorted by_age l.

(** [e] is an entry of [l] in effect at [age] whose effective age is the
    largest among the entries in effect at [age]. *)
Definition latest_at_or_before (age : Q) (l : list (Q * Q)) (e : Q * Q) : Prop :=
  In e l /\ fst e <= age /\ forall e', In e' l -> fst e' <= age -> fst e' <= fst e.

(** What both resolvers compute on a non-empty schedule. *)
Definition last_applicable (age base : Q) (l : list (Q * Q)) : Q :=
  match List.rev (List.filter (fun e => Qleb (fst e) age) l) with
  | [] => base
  | last_change :: _ => snd last_change
  end.

(** Person 1's and person 2's age in the month numbered [m]. *)
Definition age1_at (p : Params) (m : Z) : Q := age_now p + inject_Z m / 12.

Definition age2_at (p : Params) (m : Z) : Q := spouse_age_now p + inject_Z m / 12.

(** The floor test of one row: [liquid < params.min_assets]. *)
Definition below_floor (p : Params) (row : Month.t) : bool :=
  Qltb (Month.liquid row) (min_assets p).

(** The preconditions of [simulate], in the words of the specification: a
    retirement age before the current age or after the pension-activation
    age, an income-schedule entry outside [[current age, retirement age)]
    or with negative income, a one-time event outside
    [[primary current age, horizon age]], an expense-schedule entry outside
    that interval or with negative expense. *)
Definition precondition_violated (ra : Q) (p : Params) (sra : Q) : Prop :=
  ra < age_now p \/ sra < spouse_age_now p \/
  pension_start_age p < ra \/ spouse_pension_start_age p < sra \/
  (exists a i, In (a, i) (entries (income_schedule p)) /\
     (a < age_now p \/ ra <= a \/ i < 0)) \/
  (exists a i, In (a, i) (entries (spouse_income_schedule p)) /\
     (a < spouse_age_now p \/ sra <= a \/ i < 0)) \/
  (exists a amount d, In (a, amount, d) (entries (one_time_events p)) /\
     (a < age_now p \/ end_age p < a)) \/
  (exists a e, In (a, e) (entries (expense_schedule p)) /\
     (a < age_now p \/ end_age p < a \/ e < 0)).

(** The reasons the validation of [simulate] can give. *)
Definition is_validation_reason (why : Reason) : bool :=
  match why with
  | RetireBeforeNow _ | RetireAfterPensionStart _
  | IncomeScheduleBeforeNow _ _ _ | IncomeScheduleAtOrAfterRetire _ _ _
  | IncomeScheduleNegative _ _
  | EventBeforeNow _ _ | EventAfterEnd _ _
  | ExpenseScheduleBeforeNow _ _ | ExpenseScheduleAfterEnd _ _
  | ExpenseScheduleNegative _ => true
  | NoReason | FellBelowMinimum _ _ _ | BelowMinimumAtEnd _ _ | Feasible => false
  end.

(** The bounds that hold of every input that passes validation. *)
Record validated (ra : Q) (p : Params) (sra : Q) : Prop := {
  v_retire1 : age_now p <= ra /\ ra <= pension_start_age p;
  v_retire2 : spouse_age_now p <= sra /\ sra <= spouse_pension_start_age p;
  v_income1 : forall a i, In (a, i) (entries (income_schedule p)) ->
                age_now p <= a /\ a < ra /\ 0 <= i;
  v_income2 : forall a i, In (a, i) (entries (spouse_income_schedule p)) ->
                spouse_age_now p <= a /\ a < sra /\ 0 <= i;
  v_events : forall a amount d, In (a, amount, d) (entries (one_time_events p)) ->
               age_now p <= a /\ a <= end_age p;
  v_expense : forall a e, In (a, e) (entries (expense_schedule p)) ->
                age_now p <= a /\ a <= end_age p /\ 0 <= e
}.

(** The state the loop of [simulate] ends in. *)
Definition final_state (ra : Q) (p : Params) (sra : option Q) : exc State :=
  run_months ra p (default_spouse_retire_age sra p) (init_state p)
    (py_range (total_months p)).

Definition event_age (ev : OneTimeEvent) : Q := fst (fst ev).

Definition event_amount (ev : OneTimeEvent) : Q := snd (fst ev).

(** The amount the event loop of one month adds: the amounts of the events
    whose age is reached and whose index is not yet in [applied]. *)
Fixpoint due_amount (age : Q) (idx : nat) (events : list OneTimeEvent)
    (applied : gset nat) : Q :=
  match events with
  | [] => 0
  | ev :: rest =>
    (if Qleb (event_age ev) age && bool_decide (idx ∉ applied)
     then event_amount ev else 0)
    + due_amount age (S idx) rest applied
  end.

(** The state before the month numbered [k], that is after [k] months. *)
Definition state_at (ra : Q) (p : Params) (sra : option Q) (k : nat) : exc State :=
  run_months ra p (default_spouse_retire_age sra p) (init_state p)
    (py_range (Z.of_nat k)).

(** The number of months of a run. *)
Definition horizon (p : Params) : nat := Z.to_nat (total_months p).






(** What one month does to the payout of one person, given through the
    accessors of that person: [active], [payout] and [balance] read the
    state, [divisor] is the person's mekadem, [row_gross] and [row_net] are
    the person's payout columns of the month's row. *)
Definition payout_step (p : Params) (active : State -> bool)
    (payout balance : State -> Q) (divisor row_gross row_net : Q)
    (st st' : State) : Prop :=
  (active st = false -> active st' = true ->
     payout st' = balance st * (1 + r_month p) / divisor) /\
  (active st = true -> active st' = true /\ payout st' = payout st) /\
  (active st' = true ->
     balance st' = balance st * (1 + r_month p) - payout st' /\
     row_gross = payout st' /\
     row_net = payout st'
               - IsraeliTax.calculate_monthly_tax_from_gross
                   (py_max 0 (payout st' - pension_tax_free_amount p))).





(** [if retire_age > max_age: retire_age = max_age] *)
Definition clamp_age (max_age a : Q) : Q := if Qltb max_age a then max_age else a.

(** The retirement ages the scan visits when none of them is feasible: the
    candidate of each [m], up to and including the first that reaches
    [max_age]. *)
Fixpoint scanned_ages (min_age max_age : Q) (ms : list Z) : list Q :=
  match ms with
  | [] => []
  | m :: rest =>
    let a := clamp_age max_age (min_age + inject_Z m / 12) in
    a :: (if Qleb max_age a then [] else scanned_ages min_age max_age rest)
  end.

(** The grid of candidate ages of a call of [find_earliest_retirement]. *)
Definition retirement_grid (p : Params) (min_age max_age : option Q) (step_months : Z)
  : list Q :=
  let lo := clamped_min_age p min_age in
  let hi := clamped_max_age p max_age in
  if Qltb hi lo then []
  else
    match py_range3 0 (py_round ((hi - lo) * 12) + 1) step_months with
    | Return ms => scanned_ages lo hi ms
    | Raise _ => []
    end.

(** [a] is the first age of [grid] at which [simulate] reports feasible, and
    [r] is the result of that simulation. *)
Definition first_feasible (p : Params) (sra : Q) (grid : list Q) (a : Q) (r : Result)
  : Prop :=
  exists before after, grid = before ++ a :: after /\
    simulate a p (Some sra) = Return r /\ ok r = true /\
    forall a', In a' before ->
      exists r', simulate a' p (Some sra) = Return r' /\ ok r' = false.

Definition none_feasible (p : Params) (sra : Q) (grid : list Q) : Prop :=
  forall a', In a' grid ->
    exists r', simulate a' p (Some sra) = Return r' /\ ok r' = false.

(** The bracket after one iteration that simulated [mid] with [result]. *)
Definition narrow (target tolerance : Q) (b : Bracket) (mid : Q) (result : Result)
  : Bracket :=
  if meets_target target tolerance result
  then {| low := mid; high := high b; best := Some (mid, result) |}
  else {| low := low b; high := mid; best := best b |}.

(** The midpoints the binary search simulates, in order. *)
Fixpoint midpoints (p : Params) (target ra sra tolerance : Q) (iterations : nat)
    (b : Bracket) : list Q :=
  match iterations with
  | O => []
  | S iterations' =>
    let mid := (low b + high b) / 2 in
    match simulate ra (test_params p mid) (Some sra) with
    | Raise _ => [mid]
    | Return result =>
      let b' := narrow target tolerance b mid result in
      mid :: (if Qltb (high b' - low b') (tolerance / 10) then []
              else midpoints p target ra sra tolerance iterations' b')
    end
  end.

(** [mid] was simulated and its result is feasible and meets the target. *)
Definition works (p : Params) (target ra sra tolerance mid : Q) (r : Result) : Prop :=
  simulate ra (test_params p mid) (Some sra) = Return r /\
  ok r = true /\ target - tolerance <= liquid_end r.

(** The invariant of the search on [best]. *)
Definition best_works (p : Params) (target ra sra tolerance : Q) (b : Bracket) : Prop :=
  match best b with
  | Some (e, r) => works p target ra sra tolerance e r
  | None => True
  end.



(** The reason of a result whose series is [rows] and whose end balance is
    [liquid_end]: the first row below the floor decides, then the end
    balance. *)
Definition reason_of_series (p : Params) (rows : list Month.t) (liquid_end : Q) : Reason :=
  match List.find (below_floor p) rows with
  | Some row => FellBelowMinimum (min_assets p / 1000) (Month.age1 row) (Month.age2 row)
  | None =>
    if Qltb liquid_end (min_assets p)
    then BelowMinimumAtEnd (min_assets p / 1000) (liquid_end / 1000)
    else Feasible
  end.

(** The pair of retirement ages the joint search tries for the value [m] of
    its loop variable. *)
Definition joint_candidate (p : Params) (lo : Q) (m : Z) : Q * Q :=
  (lo + inject_Z m / 12,
   float_sub (lo + inject_Z m / 12) (float_sub (age_now p) (spouse_age_now p))).

(** The candidates of a call of [find_earliest_joint_retirement]. *)
Definition joint_grid (p : Params) (min_age max_age : option Q) (step_months : Z)
  : list (Q * Q) :=
  let lo := joint_min_age p min_age in
  let hi := joint_max_age p max_age in
  if Qltb hi lo then []
  else
    match py_range3 0 (py_round ((hi - lo) * 12) + 1) step_months with
    | Return ms => List.map (joint_candidate p lo) ms
    | Raise _ => []
    end.


(** The candidate [c] is below a current age: the loop skips it. *)
Definition before_current_age (p : Params) (c : Q * Q) : Prop :=
  fst c < age_now p \/ snd c < spouse_age_now p.


(** The dictionary [compare_scenarios] builds for one retirement age. *)
Definition scenario_of (p : Params) (sra a : Q) (r : Result) : Scenario.t := {|
  Scenario.retirement_age := a;
  Scenario.spouse_retirement_age := sra;
  Scenario.feasible := ok r;
  Scenario.reason := reason r;
  Scenario.liquid_at_pension_start := liquid_at_pension_start r;
  Scenario.pension_at_start := pension_at_start r;
  Scenario.pension_income_month := pension_income_month r;
  Scenario.spouse_pension_at_start := spouse_pension_at_start r;
  Scenario.spouse_pension_income_month := spouse_pension_income_month r;
  Scenario.liquid_end := liquid_end r;
  Scenario.working_years := a - age_now p;
  Scenario.spouse_working_years := sra - spouse_age_now p
|}.

(** The record of [scs] for the age [a] comes from the simulation of [a]. *)
Definition scenario_for (p : Params) (sra : Q) (a : Q) (s : Scenario.t) : Prop :=
  exists r, simulate a p (Some sra) = Return r /\ s = scenario_of p sra a r.

(** The state [st'] is the state [st] of a run that spends at least as
    much: the liquid figures of [st'] are at least those of [st], a floor
    violation of [st'] is one of [st], and everything else is the same. *)
Definition cash_le (st st' : State) : Prop :=
  liquid st <= liquid st' /\
  pension1 st' = pension1 st /\ pension2 st' = pension2 st /\
  pension1_income_active st' = pension1_income_active st /\
  pension1_income_month st' = pension1_income_month st /\
  pension2_income_active st' = pension2_income_active st /\
  pension2_income_month st' = pension2_income_month st /\
  old_age_pension1_active st' = old_age_pension1_active st /\
  old_age_pension2_active st' = old_age_pension2_active st /\
  first_pension_started st' = first_pension_started st /\
  liquid_at_first_pension_start st <= liquid_at_first_pension_start st' /\
  (min_assets_violated st' = true -> min_assets_violated st = true) /\
  applied_events st' = applied_events st /\
  Forall2 (fun row row' => Month.liquid row <= Month.liquid row')
    (records st) (records st').

(** The liquid balance before the month of the row of index [k] of a
    series: the starting balance, or the balance of the row before. *)
Definition liquid_before (p : Params) (rows : list Month.t) (k : nat) : Q :=
  match k with
  | O => liquid_now p
  | S j => List.nth j (List.map Month.liquid rows) (liquid_now p)
  end.


(** * Properties *)

(** ** Comparisons *)

Lemma Qleb_le (x y : Q) : Qleb x y = true <-> x <= y.
Proof. unfold Qleb. apply Qle_bool_iff. Qed.

Lemma Qltb_lt (x y : Q) : Qltb x y = true <-> x < y.
Proof.
  unfold Qltb. rewrite negb_true_iff. split.
  - intros H. apply Qnot_le_lt. intros Hle.
    apply Qle_bool_iff in Hle. congruence.
  - intros H. destruct (Qle_bool y x) eqn:E; [|reflexivity].
    apply Qle_bool_iff in E. exfalso. exact (Qlt_not_le _ _ H E).
Qed.

Lemma Qleb_gt (x y : Q) : Qleb x y = false <-> y < x.
Proof using.
  rewrite <- Qltb_lt. unfold Qltb, Qleb.
  destruct (Qle_bool x y); simpl; split; intros H;
    first [discriminate H|reflexivity].
Qed.

Lemma Qltb_ge (x y : Q) : Qltb x y = false <-> y <= x.
Proof using.
  rewrite <- Qleb_le. unfold Qltb, Qleb.
  destruct (Qle_bool y x); simpl; split; intros H;
    first [discriminate H|reflexivity].
Qed.

(** Moves every boolean comparison of the context and the goal to [Prop]. *)
Ltac reflect_cmp :=
  repeat match goal with
  | H : Qleb _ _ = true |- _ => apply Qleb_le in H
  | H : Qleb _ _ = false |- _ => apply Qleb_gt in H
  | H : Qltb _ _ = true |- _ => apply Qltb_lt in H
  | H : Qltb _ _ = false |- _ => apply Qltb_ge in H
  | |- Qleb _ _ = true => apply Qleb_le
  | |- Qleb _ _ = false => apply Qleb_gt
  | |- Qltb _ _ = true => apply Qltb_lt
  | |- Qltb _ _ = false => apply Qltb_ge
  end.

(** ** Schedule resolver *)

Lemma get_income_at_age_entries (age base : Q) (l : list (Q * Q)) :
  get_income_at_age age base (Some l) = last_applicable age base l.
Proof. destruct l; reflexivity. Qed.

Lemma get_expense_at_age_entries (age base : Q) (l : list (Q * Q)) :
  get_expense_at_age age base (Some l) = last_applicable age base l.
Proof. destruct l; reflexivity. Qed.

#[local] Instance by_age_trans : Transitive by_age.
Proof. intros x y z. unfold by_age. apply Qle_trans. Qed.

Lemma strongly_sorted_snoc (l : list (Q * Q)) (e : Q * Q) :
  Sorted.StronglySorted by_age (l ++ [e]) -> forall x, In x l -> by_age x e.
Proof.
  induction l as [|a l IH]; simpl; intros Hs x Hx; [contradiction|].
  inversion Hs as [|? ? Hs' Hall]; subst.
  destruct Hx as [<-|Hx].
  - rewrite List.Forall_forall in Hall. apply Hall. apply in_or_app. right. now left.
  - now apply IH.
Qed.

Lemma strongly_sorted_filter (f : Q * Q -> bool) (l : list (Q * Q)) :
  Sorted.StronglySorted by_age l -> Sorted.StronglySorted by_age (List.filter f l).
Proof.
  induction 1 as [|a l Hs IH Hall]; simpl; [constructor|].
  destruct (f a); [|assumption].
  constructor; [assumption|].
  rewrite List.Forall_forall in *. intros x Hx.
  apply filter_In in Hx. now apply Hall.
Qed.

Lemma last_applicable_latest (age base : Q) (l : list (Q * Q)) :
  sorted_by_age l ->
  (exists e, In e l /\ fst e <= age) ->
  exists e, latest_at_or_before age l e /\ last_applicable age base l = snd e.
Proof.
  intros Hs [e0 [Hin0 Hle0]].
  apply Sorted.Sorted_StronglySorted in Hs; [|exact by_age_trans].
  apply (strongly_sorted_filter (fun e => Qleb (fst e) age)) in Hs.
  unfold last_applicable.
  destruct (List.rev (List.filter (fun e => Qleb (fst e) age) l)) as [|e rest] eqn:E.
  - exfalso.
    assert (Hin : In e0 (List.filter (fun e => Qleb (fst e) age) l)).
    { apply filter_In. split; [assumption|]. now apply Qleb_le. }
    apply in_rev in Hin. rewrite E in Hin. contradiction.
  - assert (Ef : List.filter (fun e => Qleb (fst e) age) l = List.rev rest ++ [e]).
    { rewrite <- (rev_involutive (List.filter _ l)), E. reflexivity. }
    exists e. split; [|reflexivity].
    assert (Hine : In e (List.filter (fun e => Qleb (fst e) age) l)).
    { rewrite Ef. apply in_or_app. right. now left. }
    apply filter_In in Hine. destruct Hine as [Hine Hage].
    apply Qleb_le in Hage.
    repeat split; try assumption.
    intros e' Hin' Hle'.
    assert (Hf : In e' (List.filter (fun e => Qleb (fst e) age) l)).
    { apply filter_In. split; [assumption|]. now apply Qleb_le. }
    rewrite Ef in Hf, Hs. apply in_app_or in Hf. destruct Hf as [Hf|[<-|[]]].
    + exact (strongly_sorted_snoc _ _ Hs _ Hf).
    + apply Qle_refl.
Qed.

Lemma last_applicable_none (age base : Q) (l : list (Q * Q)) :
  (forall e, In e l -> age < fst e) -> last_applicable age base l = base.
Proof.
  intros Hnone. unfold last_applicable.
  destruct (List.rev (List.filter (fun e => Qleb (fst e) age) l)) as [|e rest] eqn:E;
    [reflexivity|].
  exfalso.
  assert (Hin : In e (List.filter (fun e => Qleb (fst e) age) l)).
  { apply in_rev. rewrite E. now left. }
  apply filter_In in Hin. destruct Hin as [Hin Hle].
  apply Qleb_le in Hle. apply Hnone in Hin.
  exact (Qlt_not_le _ _ Hin Hle).
Qed.

(** C3: both resolvers return the base value on an absent or empty schedule;
    on a schedule sorted ascending by effective age they return the value of
    an entry in effect at the queried age whose effective age is the largest
    such, and the base value when no entry is in effect; on a single entry
    [(a1, v1)] that is the base value when [age < a1] and [v1] otherwise. *)
Theorem schedule_resolver_latest_at_or_before (age base : Q) (l : list (Q * Q))
    (Hsorted : sorted_by_age l) :
  (forall s : Schedule, falsy s = true ->
     get_income_at_age age base s = base /\ get_expense_at_age age base s = base) /\
  ((exists e, In e l /\ fst e <= age) ->
     exists e, latest_at_or_before age l e /\
       get_income_at_age age base (Some l) = snd e /\
       get_expense_at_age age base (Some l) = snd e) /\
  ((forall e, In e l -> age < fst e) ->
     get_income_at_age age base (Some l) = base /\
     get_expense_at_age age base (Some l) = base) /\
  (forall a1 v1 : Q,
     get_income_at_age age base (Some [(a1, v1)]) = (if Qltb age a1 then base else v1) /\
     get_expense_at_age age base (Some [(a1, v1)]) = (if Qltb age a1 then base else v1)).
Proof.
  repeat split.
  - unfold get_income_at_age. now rewrite H.
  - unfold get_expense_at_age. now rewrite H.
  - intros Hex.
    destruct (last_applicable_latest age base l Hsorted Hex) as [e [Hlatest Hval]].
    exists e. rewrite get_income_at_age_entries, get_expense_at_age_entries. auto.
  - rewrite get_income_at_age_entries. now apply last_applicable_none.
  - rewrite get_expense_at_age_entries. now apply last_applicable_none.
  - unfold get_income_at_age, Qltb, Qleb. simpl. now destruct (Qle_bool a1 age).
  - unfold get_expense_at_age, Qltb, Qleb. simpl. now destruct (Qle_bool a1 age).
Qed.

(** ** The month loop *)

#[local] Arguments Qplus : simpl never.
#[local] Arguments Qminus : simpl never.
#[local] Arguments Qmult : simpl never.
#[local] Arguments Qdiv : simpl never.
#[local] Arguments Qopp : simpl never.
#[local] Arguments inject_Z : simpl never.

Lemma bind_Return {A B : Type} (c : exc A) (f : A -> exc B) (b : B) :
  bind c f = Return b -> exists a, c = Return a /\ f a = Return b.
Proof. destruct c as [a|e]; simpl; [eauto | discriminate]. Qed.

Lemma py_div_Return (x y q : Q) : py_div x y = Return q -> q = x / y /\ ~ y == 0.
Proof.
  unfold py_div. destruct (Qeq_bool y 0) eqn:E; [discriminate|].
  intros [= <-]. split; [reflexivity|].
  intros H. apply Qeq_bool_iff in H. congruence.
Qed.

Lemma py_div_nonzero (x y : Q) : ~ y == 0 -> py_div x y = Return (x / y).
Proof.
  intros H. unfold py_div. destruct (Qeq_bool y 0) eqn:E; [|reflexivity].
  apply Qeq_bool_iff in E. contradiction.
Qed.

(** Splits a successful run of [month_body] into its straight-line cases. *)
Ltac month_body_inv H :=
  unfold month_body in H;
  match type of H with
  | context [apply_events ?a ?i ?e ?acc] =>
    let l := fresh "liquid_ev" in
    let a' := fresh "amount_ev" in
    let s := fresh "applied_ev" in
    let E := fresh "Eev" in
    destruct (apply_events a i e acc) as [[l a'] s] eqn:E
  end;
  apply bind_Return in H;
  let q1 := fresh "payout1" in
  let Hq1 := fresh "Hpayout1" in
  destruct H as [q1 [Hq1 H]];
  apply bind_Return in H;
  let q2 := fresh "payout2" in
  let Hq2 := fresh "Hpayout2" in
  destruct H as [q2 [Hq2 H]];
  apply bind_Return in H;
  let u := fresh "compared" in
  let Hu := fresh "Hreal" in
  destruct H as [u [Hu H]];
  injection H as H; subst.

Lemma month_body_records (ra : Q) (p : Params) (sra : Q) (st st' : State) (m : Z) :
  month_body ra p sra st m = Return st' ->
  exists row, records st' = records st ++ [row] /\
    Month.liquid row = liquid st' /\ Month.month row = m /\
    Month.age1 row = age1_at p m /\ Month.age2 row = age2_at p m.
Proof.
  intros H. month_body_inv H. simpl. eexists. split; [reflexivity|].
  simpl. repeat split.
Qed.

Lemma month_body_violated (ra : Q) (p : Params) (sra : Q) (st st' : State) (m : Z) :
  month_body ra p sra st m = Return st' ->
  min_assets_violated st' =
    min_assets_violated st || Qltb (liquid st') (min_assets p).
Proof.
  intros H. month_body_inv H. simpl.
  destruct (min_assets_violated st); reflexivity.
Qed.

Lemma real_balance_nonneg (p : Params) :
  0 <= 1 + r_annual_real p -> real_balance p = Return tt.
Proof.
  intros H. unfold real_balance. apply Qltb_ge in H. now rewrite H.
Qed.



Lemma month_body_returns (ra : Q) (p : Params) (sra : Q) (st : State) (m : Z) :
  0 <= 1 + r_annual_real p -> ~ mekadem p == 0 -> ~ spouse_mekadem p == 0 ->
  exists st', month_body ra p sra st m = Return st'.
Proof.
  intros H0 H1 H2. unfold month_body.
  destruct (apply_events _ _ _ _) as [[l a] s].
  rewrite (py_div_nonzero _ _ H1), (py_div_nonzero _ _ H2),
    (real_balance_nonneg _ H0).
  destruct (negb (pension1_income_active st) && _);
    destruct (negb (pension2_income_active st) && _); simpl; eauto.
Qed.

Lemma run_months_app (ra : Q) (p : Params) (sra : Q) (l1 l2 : list Z) (st : State) :
  run_months ra p sra st (l1 ++ l2) =
  bind (run_months ra p sra st l1)
       (fun st1 => run_months ra p sra st1 l2).
Proof.
  revert st. induction l1 as [|m l1 IH]; intros st; simpl; [reflexivity|].
  destruct (month_body ra p sra st m) as [st1|e]; simpl; [apply IH|reflexivity].
Qed.

Lemma run_months_returns (ra : Q) (p : Params) (sra : Q) (months : list Z) (st : State) :
  0 <= 1 + r_annual_real p -> ~ mekadem p == 0 -> ~ spouse_mekadem p == 0 ->
  exists st', run_months ra p sra st months = Return st'.
Proof.
  intros H0 H1 H2. revert st.
  induction months as [|m months IH]; intros st; simpl; [eauto|].
  destruct (month_body_returns ra p sra st m H0 H1 H2) as [st1 ->]. simpl. apply IH.
Qed.

Lemma last_cons_default {A : Type} (l : list A) (a d d' : A) :
  List.last (a :: l) d = List.last (a :: l) d'.
Proof.
  revert a. induction l as [|b l IH]; intros a; [reflexivity|].
  change (List.last (b :: l) d = List.last (b :: l) d'). apply IH.
Qed.

(** What a completed run of the loop leaves behind: one row per month, in
    order; the violation flag is the disjunction of the floor tests of the
    rows; [liquid] is the balance of the last row. *)
Lemma run_months_rows (ra : Q) (p : Params) (sra : Q) (months : list Z) (st st' : State) :
  run_months ra p sra st months = Return st' ->
  exists rows, records st' = records st ++ rows /\
    List.map Month.month rows = months /\
    min_assets_violated st' = min_assets_violated st || List.existsb (below_floor p) rows /\
    liquid st' = List.last (List.map Month.liquid rows) (liquid st).
Proof.
  revert st. induction months as [|m months IH]; intros st H; simpl in H.
  - injection H as <-. exists []. rewrite app_nil_r, orb_false_r. repeat split.
  - apply bind_Return in H. destruct H as [st1 [Hm H]].
    destruct (month_body_records _ _ _ _ _ _ Hm) as [row [Hr [Hl [Hmo _]]]].
    pose proof (month_body_violated _ _ _ _ _ _ Hm) as Hv.
    destruct (IH _ H) as [rows [Hrows [Hmonths [Hviol Hliq]]]].
    exists (row :: rows). repeat split.
    + rewrite Hrows, Hr, <- app_assoc. reflexivity.
    + simpl. congruence.
    + rewrite Hviol, Hv. simpl. unfold below_floor at 2. rewrite Hl.
      now rewrite orb_assoc.
    + rewrite Hliq. simpl List.map. rewrite Hl.
      destruct (List.map Month.liquid rows); [reflexivity|].
      rewrite (last_cons_default _ _ (liquid st1) (liquid st)).
      reflexivity.
Qed.

(** ** Input validation *)

Lemma check_income_schedule_None (who : Person) (now retire : Q) (l : list (Q * Q)) :
  check_income_schedule who now retire l = None ->
  forall a i, In (a, i) l -> now <= a /\ a < retire /\ 0 <= i.
Proof.
  induction l as [|[a0 i0] l IH]; simpl; intros H a i Hin; [contradiction|].
  destruct (Qltb a0 now) eqn:E1; [discriminate|].
  destruct (Qleb retire a0) eqn:E2; [discriminate|].
  destruct (Qltb i0 0) eqn:E3; [discriminate|].
  destruct Hin as [[= <- <-]|Hin]; [|now apply IH].
  reflect_cmp. auto.
Qed.

Lemma check_income_schedule_Some (who : Person) (now retire : Q) (l : list (Q * Q))
    (why : Reason) :
  check_income_schedule who now retire l = Some why ->
  is_validation_reason why = true /\
  exists a i, In (a, i) l /\ (a < now \/ retire <= a \/ i < 0).
Proof.
  induction l as [|[a0 i0] l IH]; simpl; intros H; [discriminate|].
  destruct (Qltb a0 now) eqn:E1;
    [|destruct (Qleb retire a0) eqn:E2; [|destruct (Qltb i0 0) eqn:E3]].
  1-3: injection H as <-; split; [reflexivity|]; exists a0, i0; reflect_cmp; auto.
  destruct (IH H) as [Hv [a [i [Hin Hbad]]]]. split; [assumption|].
  exists a, i. auto.
Qed.

Lemma check_one_time_events_None (now horizon : Q) (l : list OneTimeEvent) :
  check_one_time_events now horizon l = None ->
  forall a amount d, In (a, amount, d) l -> now <= a /\ a <= horizon.
Proof.
  induction l as [|[[a0 amount0] d0] l IH]; simpl; intros H a amount d Hin; [contradiction|].
  destruct (Qltb a0 now) eqn:E1; [discriminate|].
  destruct (Qltb horizon a0) eqn:E2; [discriminate|].
  destruct Hin as [[= <- <- <-]|Hin]; [|now apply (IH H a amount d)].
  reflect_cmp. auto.
Qed.

Lemma check_one_time_events_Some (now horizon : Q) (l : list OneTimeEvent)
    (why : Reason) :
  check_one_time_events now horizon l = Some why ->
  is_validation_reason why = true /\
  exists a amount d, In (a, amount, d) l /\ (a < now \/ horizon < a).
Proof.
  induction l as [|[[a0 amount0] d0] l IH]; simpl; intros H; [discriminate|].
  destruct (Qltb a0 now) eqn:E1; [|destruct (Qltb horizon a0) eqn:E2].
  1-2: injection H as <-; split; [reflexivity|]; exists a0, amount0, d0;
       reflect_cmp; auto.
  destruct (IH H) as [Hv [a [amount [d [Hin Hbad]]]]]. split; [assumption|].
  exists a, amount, d. auto.
Qed.

Lemma check_expense_schedule_None (now horizon : Q) (l : list (Q * Q)) :
  check_expense_schedule now horizon l = None ->
  forall a e, In (a, e) l -> now <= a /\ a <= horizon /\ 0 <= e.
Proof.
  induction l as [|[a0 e0] l IH]; simpl; intros H a e Hin; [contradiction|].
  destruct (Qltb a0 now) eqn:E1; [discriminate|].
  destruct (Qltb horizon a0) eqn:E2; [discriminate|].
  destruct (Qltb e0 0) eqn:E3; [discriminate|].
  destruct Hin as [[= <- <-]|Hin]; [|now apply IH].
  reflect_cmp. auto.
Qed.

Lemma check_expense_schedule_Some (now horizon : Q) (l : list (Q * Q)) (why : Reason) :
  check_expense_schedule now horizon l = Some why ->
  is_validation_reason why = true /\
  exists a e, In (a, e) l /\ (a < now \/ horizon < a \/ e < 0).
Proof.
  induction l as [|[a0 e0] l IH]; simpl; intros H; [discriminate|].
  destruct (Qltb a0 now) eqn:E1;
    [|destruct (Qltb horizon a0) eqn:E2; [|destruct (Qltb e0 0) eqn:E3]].
  1-3: injection H as <-; split; [reflexivity|]; exists a0, e0; reflect_cmp; auto.
  destruct (IH H) as [Hv [a [e [Hin Hbad]]]]. split; [assumption|].
  exists a, e. auto.
Qed.

Lemma validate_None (ra : Q) (p : Params) (sra : Q) :
  validate ra p sra = None -> validated ra p sra.
Proof.
  unfold validate. intros H.
  destruct (Qltb ra (age_now p)) eqn:E1; [discriminate|].
  destruct (Qltb sra (spouse_age_now p)) eqn:E2; [discriminate|].
  destruct (Qltb (pension_start_age p) ra) eqn:E3; [discriminate|].
  destruct (Qltb (spouse_pension_start_age p) sra) eqn:E4; [discriminate|].
  destruct (check_income_schedule Person1 _ _ _) eqn:C1; [discriminate|].
  destruct (check_income_schedule Person2 _ _ _) eqn:C2; [discriminate|].
  destruct (check_one_time_events _ _ _) eqn:C3; [discriminate|].
  reflect_cmp. constructor; auto.
  - exact (check_income_schedule_None _ _ _ _ C1).
  - exact (check_income_schedule_None _ _ _ _ C2).
  - exact (check_one_time_events_None _ _ _ C3).
  - exact (check_expense_schedule_None _ _ _ H).
Qed.

Lemma validate_Some (ra : Q) (p : Params) (sra : Q) (why : Reason) :
  validate ra p sra = Some why ->
  is_validation_reason why = true /\ precondition_violated ra p sra.
Proof.
  clear float_pow float_sub.
  unfold validate, precondition_violated. intros H.
  destruct (Qltb ra (age_now p)) eqn:E1;
    [injection H as <-; reflect_cmp; auto|].
  destruct (Qltb sra (spouse_age_now p)) eqn:E2;
    [injection H as <-; reflect_cmp; auto|].
  destruct (Qltb (pension_start_age p) ra) eqn:E3;
    [injection H as <-; reflect_cmp; auto|].
  destruct (Qltb (spouse_pension_start_age p) sra) eqn:E4;
    [injection H as <-; reflect_cmp; auto 6|].
  destruct (check_income_schedule Person1 _ _ _) eqn:C1.
  { injection H as <-. apply check_income_schedule_Some in C1. intuition auto 10. }
  destruct (check_income_schedule Person2 _ _ _) eqn:C2.
  { injection H as <-. apply check_income_schedule_Some in C2. intuition auto 10. }
  destruct (check_one_time_events _ _ _) eqn:C3.
  { injection H as <-. apply check_one_time_events_Some in C3. intuition auto 10. }
  apply check_expense_schedule_Some in H. intuition auto 10.
Qed.

Lemma violated_not_validated (ra : Q) (p : Params) (sra : Q) :
  precondition_violated ra p sra -> validated ra p sra -> False.
Proof.
  intros Hbad [[H1 H1'] [H2 H2'] H3 H4 H5 H6].
  destruct Hbad as [H|[H|[H|[H|[H|[H|[H|H]]]]]]].
  - exact (Qlt_not_le _ _ H H1).
  - exact (Qlt_not_le _ _ H H2).
  - exact (Qlt_not_le _ _ H H1').
  - exact (Qlt_not_le _ _ H H2').
  - destruct H as [a [i [Hin Hbad]]]. destruct (H3 _ _ Hin) as [Ha [Hb Hc]].
    destruct Hbad as [Hbad|[Hbad|Hbad]].
    + exact (Qlt_not_le _ _ Hbad Ha).
    + exact (Qlt_not_le _ _ Hb Hbad).
    + exact (Qlt_not_le _ _ Hbad Hc).
  - destruct H as [a [i [Hin Hbad]]]. destruct (H4 _ _ Hin) as [Ha [Hb Hc]].
    destruct Hbad as [Hbad|[Hbad|Hbad]].
    + exact (Qlt_not_le _ _ Hbad Ha).
    + exact (Qlt_not_le _ _ Hb Hbad).
    + exact (Qlt_not_le _ _ Hbad Hc).
  - destruct H as [a [amount [d [Hin Hbad]]]]. destruct (H5 _ _ _ Hin) as [Ha Hb].
    destruct Hbad as [Hbad|Hbad].
    + exact (Qlt_not_le _ _ Hbad Ha).
    + exact (Qlt_not_le _ _ Hbad Hb).
  - destruct H as [a [e [Hin Hbad]]]. destruct (H6 _ _ Hin) as [Ha [Hb Hc]].
    destruct Hbad as [Hbad|[Hbad|Hbad]].
    + exact (Qlt_not_le _ _ Hbad Ha).
    + exact (Qlt_not_le _ _ Hbad Hb).
    + exact (Qlt_not_le _ _ Hbad Hc).
Qed.

Lemma describe_validation_reason (why : Reason) :
  is_validation_reason why = true -> describe why <> EmptyString.
Proof.
  destruct why as [|[|]|[|]|[|] ? ?|[|] ? ?|[|] ?| | | | | | | |]; simpl;
    intros H; discriminate.
Qed.

(** C2: when a precondition is violated, [simulate] returns, whatever the
    month loop would have done, the result built before the loop: infeasible,
    with one of the reasons of the validation and an empty series, every
    summary figure at its default; a retirement age below the current age
    gives the reason of that ordering violation. *)
Theorem simulate_rejects_invalid_input (ra : Q) (p : Params) (sra : option Q) :
  precondition_violated ra p (default_spouse_retire_age sra p) ->
  exists r, simulate ra p sra = Return r /\
    ok r = false /\ df r = [] /\
    is_validation_reason (reason r) = true /\
    describe (reason r) <> EmptyString /\
    r = rejected (reason r) /\
    (ra < age_now p ->
       reason r = RetireBeforeNow Person1 /\
       describe (reason r) =
         "Person 1 retirement age cannot be before current age"%string).
Proof.
  intros Hbad. unfold simulate.
  destruct (validate ra p (default_spouse_retire_age sra p)) as [why|] eqn:V.
  - exists (rejected why). destruct (validate_Some _ _ _ _ V) as [Hv _].
    split; [reflexivity|]. split; [reflexivity|]. split; [reflexivity|].
    split; [exact Hv|]. split; [now apply describe_validation_reason|].
    split; [reflexivity|].
    intros Hlt. unfold validate in V.
    apply Qltb_lt in Hlt. rewrite Hlt in V. injection V as <-.
    split; reflexivity.
  - exfalso. exact (violated_not_validated _ _ _ Hbad (validate_None _ _ _ V)).
Qed.

(** ** Verdict *)


Lemma simulate_validated (ra : Q) (p : Params) (sra : option Q) :
  validate ra p (default_spouse_retire_age sra p) = None ->
  simulate ra p sra =
  bind (final_state ra p sra) (fun st => Return (verdict p st)).
Proof. intros V. unfold simulate, final_state. now rewrite V. Qed.

Lemma simulate_Return (ra : Q) (p : Params) (sra : option Q) (r : Result) :
  validate ra p (default_spouse_retire_age sra p) = None ->
  simulate ra p sra = Return r ->
  exists st, final_state ra p sra = Return st /\ r = verdict p st.
Proof.
  intros V H. rewrite (simulate_validated _ _ _ V) in H.
  apply bind_Return in H. destruct H as [st [Hst [= <-]]]. eauto.
Qed.

Lemma final_state_rows (ra : Q) (p : Params) (sra : option Q) (st : State) :
  final_state ra p sra = Return st ->
  List.map Month.month (records st) = py_range (total_months p) /\
  min_assets_violated st = List.existsb (below_floor p) (records st) /\
  liquid st = List.last (List.map Month.liquid (records st)) (liquid_now p).
Proof.
  intros H. apply run_months_rows in H.
  destruct H as [rows [Hrec [Hmonths [Hviol Hliq]]]].
  simpl in Hrec, Hviol, Hliq. rewrite Hrec. auto.
Qed.

Lemma verdict_fields (p : Params) (st : State) :
  df (verdict p st) = records st /\ liquid_end (verdict p st) = liquid st /\
  ok (verdict p st) =
    negb (min_assets_violated st) && negb (Qltb (liquid st) (min_assets p)).
Proof.
  unfold verdict.
  destruct (min_assets_violated st); [repeat split|].
  destruct (Qltb (liquid st) (min_assets p)); repeat split.
Qed.

Lemma existsb_below_floor (p : Params) (rows : list Month.t) :
  List.existsb (below_floor p) rows = true <->
  exists row, In row rows /\ Month.liquid row < min_assets p.
Proof.
  rewrite existsb_exists. unfold below_floor.
  split; intros [row [Hin H]]; exists row; (split; [assumption|]);
    now apply Qltb_lt.
Qed.


(** C9: both floor comparisons are strict.  A run past validation is feasible
    exactly when every month's balance after the expense deduction is at
    least the floor and so is the final balance: a balance equal to the floor
    is no violation. *)
Theorem floor_comparison_is_strict (ra : Q) (p : Params) (sra : option Q) (r : Result) :
  validate ra p (default_spouse_retire_age sra p) = None ->
  simulate ra p sra = Return r ->
  (ok r = true <->
     (forall row, In row (df r) -> min_assets p <= Month.liquid row) /\
     min_assets p <= liquid_end r).
Proof.
  intros V H. destruct (simulate_Return _ _ _ _ V H) as [st [Hst ->]].
  destruct (final_state_rows _ _ _ _ Hst) as [_ [Hviol _]].
  destruct (verdict_fields p st) as [-> [-> ->]].
  rewrite andb_true_iff, !negb_true_iff, Hviol, Qltb_ge.
  split; intros [Hrows Hend]; (split; [|assumption]).
  - intros row Hin. apply Qnot_lt_le. intros Hlt.
    assert (Hex : List.existsb (below_floor p) (records st) = true)
      by (apply existsb_below_floor; eauto).
    congruence.
  - destruct (List.existsb (below_floor p) (records st)) eqn:E; [|reflexivity].
    apply existsb_below_floor in E. destruct E as [row [Hin Hlt]].
    exfalso. exact (Qlt_not_le _ _ Hlt (Hrows row Hin)).
Qed.

(** C10: [pension_at_start] and [spouse_pension_at_start] depend on the
    verdict.  With [st] the state the month loop ends in: a feasible result
    reports [0] for a person whose payout never activated and the final
    pension balance otherwise; an infeasible result reports the final pension
    balance whether or not the payout activated. *)
Theorem pension_at_start_depends_on_verdict (ra : Q) (p : Params) (sra : option Q)
    (r : Result) :
  validate ra p (default_spouse_retire_age sra p) = None ->
  simulate ra p sra = Return r ->
  exists st, final_state ra p sra = Return st /\
    (ok r = true ->
       pension_at_start r = (if pension1_income_active st then pension1 st else 0) /\
       spouse_pension_at_start r =
         (if pension2_income_active st then pension2 st else 0)) /\
    (ok r = false ->
       pension_at_start r = pension1 st /\ spouse_pension_at_start r = pension2 st).
Proof.
  intros V H. destruct (simulate_Return _ _ _ _ V H) as [st [Hst ->]].
  exists st. split; [assumption|]. unfold verdict.
  destruct (min_assets_violated st); [split; [discriminate|auto]|].
  destruct (Qltb (liquid st) (min_assets p)); split;
    simpl; intros; try discriminate; auto.
Qed.

(** ** One-time events *)

Lemma due_amount_ext (age : Q) (events : list OneTimeEvent) (idx : nat)
    (s1 s2 : gset nat) :
  (forall j, (idx <= j)%nat -> (j ∈ s1 <-> j ∈ s2)) ->
  due_amount age idx events s1 = due_amount age idx events s2.
Proof.
  clear float_pow float_sub.
  revert idx. induction events as [|ev rest IH]; intros idx H; simpl; [reflexivity|].
  rewrite (IH (S idx)) by (intros j Hj; apply H; lia).
  assert (E : bool_decide (idx ∉ s1) = bool_decide (idx ∉ s2)).
  { apply bool_decide_ext. specialize (H idx (Nat.le_refl _)). tauto. }
  now rewrite E.
Qed.

Lemma apply_events_spec (age : Q) (events : list OneTimeEvent) (idx : nat)
    (l a : Q) (s : gset nat) (l' a' : Q) (s' : gset nat) :
  apply_events age idx events (l, a, s) = (l', a', s') ->
  l' == l + due_amount age idx events s /\
  a' == a + due_amount age idx events s /\
  (forall j, j ∈ s' <->
     j ∈ s \/ exists i ev, nth_error events i = Some ev /\ j = (idx + i)%nat /\
                            event_age ev <= age).
Proof.
  clear float_pow float_sub.
  revert idx l a s. induction events as [|[[ea amount] d] rest IH]; intros idx l a s H.
  - simpl in H. injection H as <- <- <-. simpl. split; [ring|]. split; [ring|].
    intros j. split; [auto|]. intros [Hj|[i [ev [Hn _]]]]; [assumption|].
    destruct i; discriminate.
  - simpl in H. cbn [due_amount event_age event_amount fst snd].
    destruct (Qleb ea age) eqn:Ereach; simpl in H |- *.
    + destruct (bool_decide (idx ∉ s)) eqn:Enew.
      * apply IH in H. destruct H as [Hl [Ha Hs]].
        rewrite (due_amount_ext age rest (S idx) (s ∪ {[idx]}) s) in Hl, Ha
          by (intros j Hj; rewrite elem_of_union, elem_of_singleton; split;
              [intros [?|?]; [assumption|lia] | auto]).
        split; [rewrite Hl; ring|]. split; [rewrite Ha; ring|].
        intros j. rewrite Hs, elem_of_union, elem_of_singleton. split.
        -- intros [[Hj| ->]|[i [ev [Hn [-> Hle]]]]]; [auto| |].
           ++ right. exists 0%nat, (ea, amount, d).
              split; [reflexivity|]. split; [lia|]. now apply Qleb_le.
           ++ right. exists (S i), ev. split; [exact Hn|]. split; [lia|assumption].
        -- intros [Hj|[i [ev [Hn [-> Hle]]]]]; [auto|].
           destruct i as [|i]; [left; right; lia|].
           right. exists i, ev. simpl in Hn. split; [exact Hn|]. split; [lia|assumption].
      * apply IH in H. destruct H as [Hl [Ha Hs]].
        split; [rewrite Hl; ring|]. split; [rewrite Ha; ring|].
        intros j. rewrite Hs. apply bool_decide_eq_false in Enew.
        assert (Hin : idx ∈ s) by (destruct (decide (idx ∈ s)); [assumption|contradiction]).
        split.
        -- intros [Hj|[i [ev [Hn [-> Hle]]]]]; [auto|].
           right. exists (S i), ev. split; [exact Hn|]. split; [lia|assumption].
        -- intros [Hj|[i [ev [Hn [-> Hle]]]]]; [auto|].
           destruct i as [|i]; [left; now rewrite Nat.add_0_r|].
           right. exists i, ev. simpl in Hn. split; [exact Hn|]. split; [lia|assumption].
    + apply IH in H. destruct H as [Hl [Ha Hs]].
      split; [rewrite Hl; ring|]. split; [rewrite Ha; ring|].
      intros j. rewrite Hs. split.
      * intros [Hj|[i [ev [Hn [-> Hle]]]]]; [auto|].
        right. exists (S i), ev. split; [exact Hn|]. split; [lia|assumption].
      * intros [Hj|[i [ev [Hn [-> Hle]]]]]; [auto|].
        destruct i as [|i].
        -- simpl in Hn. injection Hn as <-. unfold event_age in Hle. simpl in Hle.
           apply Qleb_le in Hle. congruence.
        -- right. exists i, ev. simpl in Hn. split; [exact Hn|]. split; [lia|assumption].
Qed.

(** ** One month, field by field *)

(** As [month_body_inv], and identifies [row] with the row the month appends. *)
Ltac month_body_row H Hrow :=
  month_body_inv H; simpl in Hrow; apply app_inj_tail in Hrow;
  destruct Hrow as [_ Hrow]; subst.

Lemma month_body_flags (ra : Q) (p : Params) (sra : Q) (st st' : State) (m : Z) :
  month_body ra p sra st m = Return st' ->
  pension1_income_active st' =
    pension1_income_active st || Qleb (pension_start_age p) (age1_at p m) /\
  pension2_income_active st' =
    pension2_income_active st || Qleb (spouse_pension_start_age p) (age2_at p m) /\
  old_age_pension1_active st' =
    old_age_pension1_active st || Qleb (old_age_pension_start_age p) (age1_at p m) /\
  old_age_pension2_active st' =
    old_age_pension2_active st || Qleb (old_age_pension_start_age p) (age2_at p m).
Proof.
  intros H. month_body_inv H. simpl. unfold age1_at, age2_at.
  destruct (pension1_income_active st), (pension2_income_active st); auto.
Qed.


(** The cash-flow identity of one month: the balance after the month is the
    balance before it with the month's return, plus every inflow of the row,
    minus its expense. *)
Lemma month_body_cash_flow (ra : Q) (p : Params) (sra : Q) (st st' : State) (m : Z)
    (row : Month.t) :
  month_body ra p sra st m = Return st' ->
  records st' = records st ++ [row] ->
  liquid st' ==
    liquid st * (1 + r_month p)
    + Month.hishtalmut1 row + Month.hishtalmut2 row
    + Month.salary1_net row + Month.salary2_net row
    + Month.one_time_event row
    + Month.pension1_income_net row + Month.pension2_income_net row
    + Month.old_age_pension row
    - Month.monthly_expense row /\
  Month.total_pension_income row ==
    Month.pension1_income_net row + Month.pension2_income_net row /\
  liquid st' == liquid st * (1 + r_month p) + Month.liquid_change row.
Proof.
  intros H Hrow. month_body_row H Hrow. simpl.
  apply apply_events_spec in Eev. destruct Eev as [Hl [Ha _]].
  rewrite Hl, Ha.
  destruct (Qltb (age_now p + inject_Z m / 12) ra),
           (Qltb (spouse_age_now p + inject_Z m / 12) sra),
           (pension1_income_active st || _), (pension2_income_active st || _);
    (split; [ring|split; ring]).
Qed.

(** ** The states of a run *)

Lemma py_range_split (k n : nat) :
  (k <= n)%nat ->
  py_range (Z.of_nat n) =
  py_range (Z.of_nat k) ++ List.map Z.of_nat (List.seq k (n - k)).
Proof.
  intros H. unfold py_range. rewrite !Nat2Z.id, <- map_app.
  replace n with (k + (n - k))%nat at 1 by lia.
  now rewrite seq_app.
Qed.

Lemma final_state_horizon (ra : Q) (p : Params) (sra : option Q) :
  final_state ra p sra = state_at ra p sra (horizon p).
Proof.
  unfold final_state, state_at, horizon, py_range. now rewrite Nat2Z.id.
Qed.

Lemma state_at_split (ra : Q) (p : Params) (sra : option Q) (k n : nat) :
  (k <= n)%nat ->
  state_at ra p sra n =
  bind (state_at ra p sra k)
    (fun st => run_months ra p (default_spouse_retire_age sra p) st
                 (List.map Z.of_nat (List.seq k (n - k)))).
Proof.
  intros H. unfold state_at. rewrite (py_range_split k n H). apply run_months_app.
Qed.

Lemma state_at_S (ra : Q) (p : Params) (sra : option Q) (k : nat) :
  state_at ra p sra (S k) =
  bind (state_at ra p sra k)
    (fun st => month_body ra p (default_spouse_retire_age sra p) st
                 (Z.of_nat k)).
Proof.
  rewrite (state_at_split ra p sra k (S k)) by lia.
  replace (S k - k)%nat with 1%nat by lia.
  destruct (state_at ra p sra k) as [st|e]; simpl; [|reflexivity].
  now destruct (month_body _ _ _ _ _).
Qed.

Lemma state_at_prefix (ra : Q) (p : Params) (sra : option Q) (k n : nat) (st' : State) :
  (k <= n)%nat -> state_at ra p sra n = Return st' ->
  exists st, state_at ra p sra k = Return st /\
    run_months ra p (default_spouse_retire_age sra p) st
      (List.map Z.of_nat (List.seq k (n - k))) = Return st'.
Proof.
  intros H Hn. rewrite (state_at_split ra p sra k n H) in Hn.
  now apply bind_Return in Hn.
Qed.

(** The month numbered [k] of a run that completes [n > k] months. *)
Lemma state_at_month (ra : Q) (p : Params) (sra : option Q) (k n : nat) (st_n : State) :
  (k < n)%nat -> state_at ra p sra n = Return st_n ->
  exists st st' row,
    state_at ra p sra k = Return st /\
    month_body ra p (default_spouse_retire_age sra p) st (Z.of_nat k)
      = Return st' /\
    state_at ra p sra (S k) = Return st' /\
    records st' = records st ++ [row] /\
    nth_error (records st_n) k = Some row.
Proof.
  intros H Hn.
  destruct (state_at_prefix ra p sra (S k) n st_n ltac:(lia) Hn) as [st' [HS Hrest]].
  pose proof HS as HS'. rewrite state_at_S in HS'. apply bind_Return in HS'.
  destruct HS' as [st [Hk Hm]].
  destruct (month_body_records _ _ _ _ _ _ Hm) as [row [Hrow _]].
  exists st, st', row. repeat split; try assumption.
  apply run_months_rows in Hrest. destruct Hrest as [rest [Hrec _]].
  unfold state_at in Hk. apply run_months_rows in Hk.
  destruct Hk as [rows [Hrows [Hmonths _]]]. simpl in Hrows.
  assert (Hlen : length (records st) = k).
  { rewrite Hrows, <- (length_map Month.month), Hmonths.
    unfold py_range. now rewrite length_map, length_seq, Nat2Z.id. }
  rewrite Hrec, Hrow, <- app_assoc. simpl.
  rewrite nth_error_app2 by lia.
  replace (k - length (records st))%nat with 0%nat by lia. reflexivity.
Qed.

Lemma state_at_rows (ra : Q) (p : Params) (sra : option Q) (n : nat) (st_n : State)
    (k : nat) (row : Month.t) :
  state_at ra p sra n = Return st_n ->
  nth_error (records st_n) k = Some row -> (k < n)%nat.
Proof.
  intros Hn Hrow. unfold state_at in Hn. apply run_months_rows in Hn.
  destruct Hn as [rows [Hrows [Hmonths _]]]. simpl in Hrows.
  assert (Hlen : length (records st_n) = n).
  { rewrite Hrows, <- (length_map Month.month), Hmonths.
    unfold py_range. now rewrite length_map, length_seq, Nat2Z.id. }
  rewrite <- Hlen. apply nth_error_Some. congruence.
Qed.

Lemma month_fraction_mono (j k : nat) :
  (j <= k)%nat -> inject_Z (Z.of_nat j) / 12 <= inject_Z (Z.of_nat k) / 12.
Proof.
  intros H. apply Qmult_le_compat_r; [|discriminate].
  rewrite <- Zle_Qle. lia.
Qed.

(** Ages grow with the month. *)
Lemma age1_at_mono (p : Params) (j k : nat) :
  (j <= k)%nat -> age1_at p (Z.of_nat j) <= age1_at p (Z.of_nat k).
Proof.
  intros H. unfold age1_at. apply month_fraction_mono in H. lra.
Qed.

Lemma age2_at_mono (p : Params) (j k : nat) :
  (j <= k)%nat -> age2_at p (Z.of_nat j) <= age2_at p (Z.of_nat k).
Proof.
  intros H. unfold age2_at. apply month_fraction_mono in H. lra.
Qed.

(** A flag that starts off and is switched on by [thr <= age] is on after
    [k] months exactly when the threshold was reached in one of them. *)
Lemma flag_invariant (ra : Q) (p : Params) (sra : option Q) (flag : State -> bool)
    (thr : Q) (age : Z -> Q) :
  flag (init_state p) = false ->
  (forall st st' m,
     month_body ra p (default_spouse_retire_age sra p) st m = Return st' ->
     flag st' = flag st || Qleb thr (age m)) ->
  forall k st, state_at ra p sra k = Return st ->
    (flag st = true <-> exists j, (j < k)%nat /\ thr <= age (Z.of_nat j)).
Proof.
  intros H0 Hstep. induction k as [|k IH]; intros st Hk.
  - injection Hk as <-. rewrite H0. split; [discriminate|].
    intros [j [Hj _]]. lia.
  - rewrite state_at_S in Hk. apply bind_Return in Hk.
    destruct Hk as [st0 [Hk Hm]].
    rewrite (Hstep _ _ _ Hm), orb_true_iff, (IH _ Hk), Qleb_le. split.
    + intros [[j [Hj Hle]]|Hle]; [exists j|exists k]; split; auto; lia.
    + intros [j [Hj Hle]].
      destruct (Nat.eq_dec j k) as [->|Hne]; [now right|].
      left. exists j. split; [lia|assumption].
Qed.

(** ** One-time events over a run *)







(** ** Pension payout *)

Lemma month_body_payout1 (ra : Q) (p : Params) (sra : Q) (st st' : State) (m : Z)
    (row : Month.t) :
  month_body ra p sra st m = Return st' ->
  records st' = records st ++ [row] ->
  (pension1_income_active st' = true -> ra <= age1_at p m) ->
  payout_step p pension1_income_active pension1_income_month pension1 (mekadem p)
    (Month.pension1_income row) (Month.pension1_income_net row) st st'.
Proof.
  clear float_sub.
  intros H Hrow Hage. pose proof H as Hflags.
  apply month_body_flags in Hflags. destruct Hflags as [Hflag _].
  assert (Hwork : pension1_income_active st' = true ->
                  Qltb (age_now p + inject_Z m / 12) ra = false).
  { intros Ha. apply Qltb_ge. now apply Hage. }
  clear Hage. month_body_row H Hrow. simpl in *. unfold age1_at in Hflag.
  clear Eev Hpayout2. unfold payout_step.
  destruct (pension1_income_active st) eqn:Ea; simpl in *.
  - injection Hpayout1 as Hp. subst payout1. rewrite (Hwork eq_refl).
    split; [discriminate|]. split; auto.
  - split; [|split; [discriminate|]].
    + intros _ Hact. rewrite Hact in Hpayout1. rewrite (Hwork Hact) in Hpayout1.
      apply py_div_Return in Hpayout1. tauto.
    + intros Hact. rewrite (Hwork Hact). rewrite Hact. auto.
Qed.

Lemma month_body_payout2 (ra : Q) (p : Params) (sra : Q) (st st' : State) (m : Z)
    (row : Month.t) :
  month_body ra p sra st m = Return st' ->
  records st' = records st ++ [row] ->
  (pension2_income_active st' = true -> sra <= age2_at p m) ->
  payout_step p pension2_income_active pension2_income_month pension2 (spouse_mekadem p)
    (Month.pension2_income row) (Month.pension2_income_net row) st st'.
Proof.
  clear float_sub.
  intros H Hrow Hage. pose proof H as Hflags.
  apply month_body_flags in Hflags. destruct Hflags as [_ [Hflag _]].
  assert (Hwork : pension2_income_active st' = true ->
                  Qltb (spouse_age_now p + inject_Z m / 12) sra = false).
  { intros Ha. apply Qltb_ge. now apply Hage. }
  clear Hage. month_body_row H Hrow. simpl in *. unfold age2_at in Hflag.
  clear Eev Hpayout1. unfold payout_step.
  destruct (pension2_income_active st) eqn:Ea; simpl in *.
  - injection Hpayout2 as Hp. subst payout2. rewrite (Hwork eq_refl).
    split; [discriminate|]. split; auto.
  - split; [|split; [discriminate|]].
    + intros _ Hact. rewrite Hact in Hpayout2. rewrite (Hwork Hact) in Hpayout2.
      apply py_div_Return in Hpayout2. tauto.
    + intros Hact. rewrite (Hwork Hact). rewrite Hact. auto.
Qed.

Lemma month_body_payout_fixed (ra : Q) (p : Params) (sra : Q) (st st' : State) (m : Z) :
  month_body ra p sra st m = Return st' ->
  (pension1_income_active st = true ->
     pension1_income_active st' = true /\
     pension1_income_month st' = pension1_income_month st) /\
  (pension2_income_active st = true ->
     pension2_income_active st' = true /\
     pension2_income_month st' = pension2_income_month st).
Proof.
  intros H. month_body_inv H. clear Eev. simpl. split; intros Ha; rewrite Ha in *;
    simpl in *; split; congruence.
Qed.

Lemma payout_fixed_later (ra : Q) (p : Params) (sra : option Q) (k k' : nat)
    (st st' : State) :
  (k <= k')%nat ->
  state_at ra p sra k = Return st -> state_at ra p sra k' = Return st' ->
  (pension1_income_active st = true ->
     pension1_income_active st' = true /\
     pension1_income_month st' = pension1_income_month st) /\
  (pension2_income_active st = true ->
     pension2_income_active st' = true /\
     pension2_income_month st' = pension2_income_month st).
Proof.
  intros Hle Hk. revert st'. induction Hle as [|k' Hle IH]; intros st' Hk'.
  - assert (st' = st) by congruence. subst st'. auto.
  - rewrite state_at_S in Hk'. apply bind_Return in Hk'.
    destruct Hk' as [st0 [Hk0 Hm]].
    destruct (IH _ Hk0) as [IH1 IH2].
    destruct (month_body_payout_fixed _ _ _ _ _ _ Hm) as [F1 F2].
    split; intros Ha.
    + destruct (IH1 Ha) as [Ha0 Hp0]. destruct (F1 Ha0) as [Ha' Hp']. split; congruence.
    + destruct (IH2 Ha) as [Ha0 Hp0]. destruct (F2 Ha0) as [Ha' Hp']. split; congruence.
Qed.

Lemma pension1_active_reached (ra : Q) (p : Params) (sra : option Q) (k : nat)
    (st : State) :
  state_at ra p sra (S k) = Return st -> pension1_income_active st = true ->
  pension_start_age p <= age1_at p (Z.of_nat k).
Proof.
  intros Hst Ha.
  apply (flag_invariant ra p sra pension1_income_active (pension_start_age p)
           (age1_at p)) in Hst.
  - apply Hst in Ha. destruct Ha as [j [Hj Hle]].
    apply Qle_trans with (1 := Hle). apply age1_at_mono. lia.
  - reflexivity.
  - intros st0 st1 m Hm. now apply month_body_flags in Hm.
Qed.

Lemma pension2_active_reached (ra : Q) (p : Params) (sra : option Q) (k : nat)
    (st : State) :
  state_at ra p sra (S k) = Return st -> pension2_income_active st = true ->
  spouse_pension_start_age p <= age2_at p (Z.of_nat k).
Proof.
  intros Hst Ha.
  apply (flag_invariant ra p sra pension2_income_active (spouse_pension_start_age p)
           (age2_at p)) in Hst.
  - apply Hst in Ha. destruct Ha as [j [Hj Hle]].
    apply Qle_trans with (1 := Hle). apply age2_at_mono. lia.
  - reflexivity.
  - intros st0 st1 m Hm. now apply month_body_flags in Hm.
Qed.

(** C5: in a run past validation, for the month numbered [k], with [st] the
    state before it, [st'] the state after it and [row] its row, and for each
    of the two persons: if the payout activates in that month, the monthly
    payout is the person's pension balance at that instant (the balance before
    the month with the month's return) divided by the person's mekadem; if the
    payout was already active, the monthly payout is unchanged; and whenever
    the payout is active after the month, the gross payout has been deducted
    from the person's pension balance, while the liquid balance received the
    net amount (the payout less the tax on what exceeds the tax-free amount).
    Once active, the payout stays active with the same amount in every later
    month. *)
Theorem pension_payout_fixed_at_activation (ra : Q) (p : Params) (sra : option Q)
    (st_final : State) :
  validate ra p (default_spouse_retire_age sra p) = None ->
  final_state ra p sra = Return st_final ->
  (forall k st st' row,
     state_at ra p sra k = Return st -> state_at ra p sra (S k) = Return st' ->
     nth_error (records st_final) k = Some row ->
     payout_step p pension1_income_active pension1_income_month pension1 (mekadem p)
       (Month.pension1_income row) (Month.pension1_income_net row) st st' /\
     payout_step p pension2_income_active pension2_income_month pension2
       (spouse_mekadem p)
       (Month.pension2_income row) (Month.pension2_income_net row) st st' /\
     liquid st' ==
       liquid st * (1 + r_month p)
       + Month.hishtalmut1 row + Month.hishtalmut2 row
       + Month.salary1_net row + Month.salary2_net row
       + Month.one_time_event row
       + Month.pension1_income_net row + Month.pension2_income_net row
       + Month.old_age_pension row
       - Month.monthly_expense row) /\
  (forall k k' st st',
     (k <= k')%nat ->
     state_at ra p sra k = Return st -> state_at ra p sra k' = Return st' ->
     (pension1_income_active st = true ->
        pension1_income_active st' = true /\
        pension1_income_month st' = pension1_income_month st) /\
     (pension2_income_active st = true ->
        pension2_income_active st' = true /\
        pension2_income_month st' = pension2_income_month st)).
Proof.
  intros V Hfinal. rewrite final_state_horizon in Hfinal.
  apply validate_None in V. destruct V as [[_ V1] [_ V2] _ _ _ _].
  split; [|intros k k' st st'; apply payout_fixed_later].
  intros k st st' row Hst HS Hrow.
  pose proof (state_at_rows _ _ _ _ _ _ _ Hfinal Hrow) as Hk.
  destruct (state_at_month ra p sra k (horizon p) st_final Hk Hfinal)
    as [st0 [st0' [row0 [Hst0 [Hm [HS0 [Hrow0 Hnth]]]]]]].
  assert (st0 = st) by congruence. assert (st0' = st') by congruence.
  assert (row0 = row) by congruence. subst st0 st0' row0.
  split; [|split].
  - apply (month_body_payout1 _ _ _ _ _ _ _ Hm Hrow0). intros Ha.
    apply Qle_trans with (1 := V1). exact (pension1_active_reached _ _ _ _ _ HS Ha).
  - apply (month_body_payout2 _ _ _ _ _ _ _ Hm Hrow0). intros Ha.
    apply Qle_trans with (1 := V2). exact (pension2_active_reached _ _ _ _ _ HS Ha).
  - exact (proj1 (month_body_cash_flow _ _ _ _ _ _ _ Hm Hrow0)).
Qed.

(** ** Additive cash flow *)





(** ** Earliest retirement *)

Lemma simulate_returns (ra : Q) (p : Params) (sra : option Q) :
  0 <= 1 + r_annual_real p -> ~ mekadem p == 0 -> ~ spouse_mekadem p == 0 ->
  exists r, simulate ra p sra = Return r.
Proof.
  intros H0 H1 H2. unfold simulate.
  destruct (validate ra p (default_spouse_retire_age sra p)); [eauto|].
  destruct (run_months_returns ra p (default_spouse_retire_age sra p)
              (py_range (total_months p)) (init_state p) H0 H1 H2) as [st ->].
  simpl. eauto.
Qed.

Lemma scan_retirement_spec (p : Params) (lo hi sra : Q) (ms : list Z)
    (res : option (Q * Result)) :
  scan_retirement p lo hi sra ms = Return res ->
  match res with
  | Some (a, r) => first_feasible p sra (scanned_ages lo hi ms) a r
  | None => none_feasible p sra (scanned_ages lo hi ms)
  end.
Proof.
  revert res. induction ms as [|m rest IH]; intros res H; simpl in H.
  - injection H as <-. intros a' [].
  - apply bind_Return in H. destruct H as [result [Hsim H]].
    fold (clamp_age hi (lo + inject_Z m / 12)) in *.
    simpl scanned_ages. set (a := clamp_age hi (lo + inject_Z m / 12)) in *.
    destruct (ok result) eqn:Eok.
    + injection H as <-. exists [], (if Qleb hi a then [] else scanned_ages lo hi rest).
      repeat split; try assumption. intros a' [].
    + destruct (Qleb hi a) eqn:Estop.
      * injection H as <-. intros a' [<-|[]]. eauto.
      * specialize (IH _ H). destruct res as [[a0 r0]|].
        -- destruct IH as [before [after [Hgrid [Hs0 [Hok0 Hbefore]]]]].
           exists (a :: before), after. rewrite Hgrid.
           repeat split; try assumption.
           intros a' [<-|Hin]; [eauto|auto].
        -- intros a' [<-|Hin]; [eauto|auto].
Qed.








Lemma py_round_nonneg (x : Q) : 0 <= x -> (0 <= py_round x)%Z.
Proof.
  intros H. unfold py_round.
  assert (Hf : (0 <= Qfloor x)%Z).
  { change 0%Z with (Qfloor 0). now apply Qfloor_resp_le. }
  destruct (Qcompare _ _); [destruct (Z.even _)| |]; lia.
Qed.


(** ** Maximum monthly expense *)

Lemma meets_target_spec (target tolerance : Q) (r : Result) :
  meets_target target tolerance r = true <->
  ok r = true /\ target - tolerance <= liquid_end r.
Proof. unfold meets_target. now rewrite andb_true_iff, Qleb_le. Qed.

Lemma narrow_best (p : Params) (target ra sra tolerance : Q) (b : Bracket)
    (mid : Q) (result : Result) :
  simulate ra (test_params p mid) (Some sra) = Return result ->
  best_works p target ra sra tolerance b ->
  best_works p target ra sra tolerance (narrow target tolerance b mid result) /\
  (best (narrow target tolerance b mid result) = None <->
     best b = None /\ meets_target target tolerance result = false) /\
  (forall e r, best (narrow target tolerance b mid result) = Some (e, r) ->
     best b = Some (e, r) \/ e = mid).
Proof.
  clear float_sub.
  intros Hsim Hb. unfold narrow, best_works.
  destruct (meets_target target tolerance result) eqn:E; simpl.
  - apply meets_target_spec in E. split; [split; assumption|].
    split; [split; [discriminate|intros [_ ?]; discriminate]|].
    intros e r [= <- <-]. now right.
  - split; [exact Hb|]. split; [tauto|auto].
Qed.

Lemma bisect_spec (p : Params) (target ra sra tolerance : Q) (iterations : nat)
    (b b' : Bracket) :
  bisect p target ra sra tolerance iterations b = Return b' ->
  best_works p target ra sra tolerance b ->
  let mids := midpoints p target ra sra tolerance iterations b in
  best_works p target ra sra tolerance b' /\
  (forall e r, best b' = Some (e, r) -> best b = Some (e, r) \/ In e mids) /\
  (best b' = None <->
     best b = None /\
     forall mid, In mid mids -> forall r,
       simulate ra (test_params p mid) (Some sra) = Return r ->
       meets_target target tolerance r = false) /\
  (length mids <= iterations)%nat /\
  (length mids = iterations \/ high b' - low b' < tolerance / 10).
Proof.
  clear float_sub.
  revert b. induction iterations as [|n IH]; intros b H Hb; simpl in H |- *.
  - injection H as <-. split; [assumption|]. split; [auto|].
    split; [|split; [lia|now left]].
    split; [intros Hn; split; [assumption|intros mid []]|tauto].
  - apply bind_Return in H. destruct H as [result [Hsim H]].
    rewrite Hsim.
    fold (narrow target tolerance b ((low b + high b) / 2) result) in H.
    destruct (narrow_best p target ra sra tolerance b _ _ Hsim Hb) as [Hb1 [Hnone Hsome]].
    set (b1 := narrow target tolerance b ((low b + high b) / 2) result) in *.
    destruct (Qltb (high b1 - low b1) (tolerance / 10)) eqn:Estop.
    + injection H as <-. apply Qltb_lt in Estop.
      split; [assumption|]. split; [|split; [|split; [simpl; lia|now right]]].
      * intros e r He. destruct (Hsome e r He) as [?| ->]; [now left|right; now left].
      * rewrite Hnone. split.
        -- intros [Hbn Hm]. split; [assumption|].
           intros mid [<-|[]] r Hr. congruence.
        -- intros [Hbn Hm]. split; [assumption|]. apply (Hm _ (or_introl eq_refl) _ Hsim).
    + destruct (IH b1 H Hb1) as [Hb' [Hsome' [Hnone' [Hlen Hend]]]].
      split; [assumption|]. split; [|split; [|split; [simpl; lia|]]].
      * intros e r He. destruct (Hsome' e r He) as [He1|Hin].
        -- destruct (Hsome e r He1) as [?| ->]; [now left|right; now left].
        -- right. now right.
      * rewrite Hnone', Hnone. split.
        -- intros [[Hbn Hm] Hrest]. split; [assumption|].
           intros mid [<-|Hin] r Hr; [congruence|eauto].
        -- intros [Hbn Hm]. split; [split; [assumption|]|].
           ++ apply (Hm _ (or_introl eq_refl) _ Hsim).
           ++ intros mid Hin. apply Hm. now right.
      * destruct Hend as [Hend|Hend]; [left; simpl; lia|now right].
Qed.

Lemma bisect_returns (p : Params) (target ra sra tolerance : Q) (iterations : nat)
    (b : Bracket) :
  0 <= 1 + r_annual_real p -> ~ mekadem p == 0 -> ~ spouse_mekadem p == 0 ->
  exists b', bisect p target ra sra tolerance iterations b = Return b'.
Proof.
  intros H0 H1 H2. revert b.
  induction iterations as [|n IH]; intros b; simpl; [eauto|].
  destruct (simulate_returns ra (test_params p ((low b + high b) / 2)) (Some sra))
    as [r ->]; [exact H0|exact H1|exact H2|].
  simpl. destruct (Qltb _ _); eauto.
Qed.

(** C6, amended: when [find_max_monthly_expense] returns an expense, the
    direct simulation of a copy of the parameters with that expense as
    [spend_month], at the same retirement ages, returns the returned result,
    which is feasible and whose end assets are at least
    [target_end_assets - tolerance]; the expense is one of the midpoints
    simulated.  It returns [(None, None)] exactly when no simulated midpoint
    gave a feasible result that meets the target.  Every iteration simulates
    [test_params p mid], which is [p] with [spend_month] replaced by the
    midpoint; the search runs at most [max_iterations] iterations and stops
    earlier only when the bracket is narrower than a tenth of the tolerance.
    The call returns whenever the annual return is not below -1 (so that
    [r_month] is a float) and the payout divisors are not zero. *)
Theorem find_max_monthly_expense_meets_target (p : Params) (target : Q)
    (ra sra : option Q) (tolerance : Q) (max_iterations : Z) :
  let ra' := default_retire_age ra p in
  let sra' := default_spouse_retire_age sra p in
  let mids := midpoints p target ra' sra' tolerance (Z.to_nat max_iterations)
                (initial_bracket p) in
  (forall res,
     find_max_monthly_expense p target ra sra tolerance max_iterations
       = Return res ->
     (forall e r, res = Some (e, r) ->
        simulate ra' (test_params p e) (Some sra') = Return r /\
        ok r = true /\ target - tolerance <= liquid_end r /\ In e mids) /\
     (res = None <->
        forall mid, In mid mids -> forall r,
          simulate ra' (test_params p mid) (Some sra') = Return r ->
          ok r && Qleb (target - tolerance) (liquid_end r) = false) /\
     exists b,
       bisect p target ra' sra' tolerance (Z.to_nat max_iterations)
         (initial_bracket p) = Return b /\
       (length mids = Z.to_nat max_iterations \/ high b - low b < tolerance / 10)) /\
  (length mids <= Z.to_nat max_iterations)%nat /\
  (forall mid, spend_month (test_params p mid) = mid /\
               test_params p (spend_month p) = p /\
               forall mid', test_params (test_params p mid) mid' = test_params p mid') /\
  (0 <= 1 + r_annual_real p -> ~ mekadem p == 0 -> ~ spouse_mekadem p == 0 ->
   exists res,
     find_max_monthly_expense p target ra sra tolerance max_iterations
       = Return res).
Proof.
  intros ra' sra' mids. split; [|split; [|split]].
  - intros res H. unfold find_max_monthly_expense in H. fold ra' sra' in H.
    apply bind_Return in H. destruct H as [b [Hb H]].
    destruct (bisect_spec _ _ _ _ _ _ _ _ Hb I) as [Hworks [Hsome [Hnone [_ Hend]]]].
    fold mids in Hsome, Hnone, Hend. unfold best_works in Hworks.
    split; [|split].
    + intros e r ->. destruct (best b) as [[e0 r0]|] eqn:Eb; [|discriminate].
      destruct (meets_target target tolerance r0); [|discriminate].
      injection H as <- <-. destruct Hworks as [Hsim [Hok Hend']].
      repeat split; try assumption.
      destruct (Hsome e0 r0 eq_refl) as [Hinit|Hin]; [discriminate|assumption].
    + simpl in Hnone. destruct (best b) as [[e0 r0]|] eqn:Eb.
      * destruct Hworks as [Hsim [Hok Hend']].
        assert (E : meets_target target tolerance r0 = true)
          by (apply meets_target_spec; auto).
        rewrite E in H. injection H as <-. split; [discriminate|].
        intros Hall. exfalso.
        destruct Hnone as [_ Hnone]. discriminate (Hnone (conj eq_refl Hall)).
      * injection H as <-. split; [|reflexivity]. intros _.
        destruct Hnone as [Hnone _]. exact (proj2 (Hnone eq_refl)).
    + exists b. auto.
  - destruct (bisect p target ra' sra' tolerance (Z.to_nat max_iterations)
                (initial_bracket p)) as [b|e] eqn:Hb.
    + now destruct (bisect_spec _ _ _ _ _ _ _ _ Hb I) as [_ [_ [_ [Hlen _]]]].
    + clear Hb. unfold mids. generalize (initial_bracket p).
      induction (Z.to_nat max_iterations) as [|n IH]; intros b0; simpl; [lia|].
      destruct (simulate _ _ _); [|simpl; lia].
      destruct (Qltb _ _); simpl; [lia|]. specialize (IH (narrow target tolerance b0
        ((low b0 + high b0) / 2) a)). lia.
  - intros mid. split; [reflexivity|]. split; [now destruct p|reflexivity].
  - intros H0 H1 H2. unfold find_max_monthly_expense.
    destruct (bisect_returns p target ra' sra' tolerance (Z.to_nat max_iterations)
                (initial_bracket p) H0 H1 H2) as [b Hb].
    fold ra' sra'. rewrite Hb. simpl.
    destruct (best b) as [[e0 r0]|]; [destruct (meets_target _ _ _)|]; eauto.
Qed.

(** * Further properties *)

(** ** Tax *)

(** Splits the goal on every comparison it contains. *)
Ltac cmp_cases :=
  repeat match goal with
  | |- context [Qleb ?a ?b] =>
    let E := fresh "E" in
    destruct (Qleb a b) eqn:E; [apply Qleb_le in E|apply Qleb_gt in E]
  | |- context [Qltb ?a ?b] =>
    let E := fresh "E" in
    destruct (Qltb a b) eqn:E; [apply Qltb_lt in E|apply Qltb_ge in E]
  end.

(** X1: the bracket loop of [calculate_income_tax] charges by the bracket
    that contains the income: for the bracket of index [i] of the table, with
    the income above its threshold and not above the threshold of the next
    bracket (if there is one), the tax is the bracket's base tax plus its rate
    on the excess over its threshold. *)
Theorem income_tax_uses_containing_bracket (x : Q) (i : nat)
    (b : IsraeliTax.TaxBracket) :
  nth_error IsraeliTax.ISRAELI_TAX_BRACKETS i = Some b ->
  IsraeliTax.threshold b < x ->
  (forall next, nth_error IsraeliTax.ISRAELI_TAX_BRACKETS (S i) = Some next ->
     x <= IsraeliTax.threshold next) ->
  IsraeliTax.calculate_income_tax x =
  IsraeliTax.base_tax b + (x - IsraeliTax.threshold b) * IsraeliTax.rate b.
Proof using.
  intros Hb Hlo Hhi.
  destruct i as [|[|[|[|[|[|[|i]]]]]]]; simpl in Hb;
    [| | | | | | |destruct i; discriminate];
    injection Hb as <-; simpl in Hlo;
    try (specialize (Hhi _ eq_refl); simpl in Hhi);
    unfold IsraeliTax.calculate_income_tax, IsraeliTax.ISRAELI_TAX_BRACKETS,
      IsraeliTax.income_tax_loop;
    cbn [IsraeliTax.threshold IsraeliTax.rate IsraeliTax.base_tax];
    cmp_cases; try reflexivity; exfalso; lra.
Qed.

Lemma income_tax_bounds (x : Q) :
  0 <= IsraeliTax.calculate_income_tax x /\
  (0 <= x -> IsraeliTax.calculate_income_tax x <= (1 # 2) * x).
Proof using.
  unfold IsraeliTax.calculate_income_tax, IsraeliTax.ISRAELI_TAX_BRACKETS,
    IsraeliTax.income_tax_loop;
    cbn [IsraeliTax.threshold IsraeliTax.rate IsraeliTax.base_tax].
  cmp_cases; split; intros; lra.
Qed.

Lemma national_insurance_bounds (x : Q) :
  0 <= IsraeliTax.calculate_national_insurance x /\
  (0 <= x -> IsraeliTax.calculate_national_insurance x <= (1217 # 10000) * x).
Proof using.
  unfold IsraeliTax.calculate_national_insurance, IsraeliTax.NATIONAL_INSURANCE, py_min;
    cbn [IsraeliTax.rate_low IsraeliTax.rate_high IsraeliTax.threshold_low_monthly
         IsraeliTax.cap_monthly].
  cmp_cases; split; intros; lra.
Qed.

Lemma monthly_tax_nonpositive (x : Q) :
  x <= 0 -> IsraeliTax.calculate_monthly_tax_from_gross x = 0.
Proof using.
  intros H. unfold IsraeliTax.calculate_monthly_tax_from_gross.
  apply Qleb_le in H. now rewrite H.
Qed.

Lemma monthly_tax_unfold (x : Q) :
  0 < x ->
  IsraeliTax.calculate_monthly_tax_from_gross x ==
  IsraeliTax.calculate_income_tax (x * 12) * (1 # 12)
  + IsraeliTax.calculate_national_insurance x.
Proof using.
  intros H. unfold IsraeliTax.calculate_monthly_tax_from_gross.
  destruct (Qleb x 0) eqn:E; [apply Qleb_le in E; lra|]. reflexivity.
Qed.

(** X2: the monthly tax is never negative and, on a non-negative gross
    income, never more than 62.17 percent of it (half for the income tax, 12.17
    percent for national insurance); so the net income lies between 37.83
    percent of the gross income and the gross income. *)
Theorem monthly_tax_bounds (x : Q) :
  0 <= IsraeliTax.calculate_monthly_tax_from_gross x /\
  (0 <= x ->
     IsraeliTax.calculate_monthly_tax_from_gross x <= (6217 # 10000) * x /\
     (3783 # 10000) * x <= IsraeliTax.calculate_net_from_gross x /\
     IsraeliTax.calculate_net_from_gross x <= x).
Proof using.
  unfold IsraeliTax.calculate_net_from_gross.
  destruct (Qlt_le_dec 0 x) as [Hpos|Hneg].
  - rewrite (monthly_tax_unfold x Hpos).
    destruct (income_tax_bounds (x * 12)) as [I0 I1].
    destruct (national_insurance_bounds x) as [N0 N1].
    assert (Hx : 0 <= x * 12) by lra. specialize (I1 Hx).
    assert (Hx' : 0 <= x) by lra. specialize (N1 Hx').
    split; [lra|]. intros _. repeat split; lra.
  - rewrite (monthly_tax_nonpositive x Hneg).
    split; [lra|]. intros Hx. repeat split; lra.
Qed.

(** X3: national insurance is capped: on every income at or above the
    monthly cap it is the contribution of the cap itself. *)
Theorem national_insurance_is_capped (x : Q) :
  IsraeliTax.cap_monthly IsraeliTax.NATIONAL_INSURANCE <= x ->
  IsraeliTax.calculate_national_insurance x ==
  IsraeliTax.calculate_national_insurance
    (IsraeliTax.cap_monthly IsraeliTax.NATIONAL_INSURANCE) /\
  IsraeliTax.calculate_national_insurance x ==
  7522 * (427 # 10000) + (50695 - 7522) * (1217 # 10000).
Proof using.
  intros Hcap. split;
    unfold IsraeliTax.calculate_national_insurance, IsraeliTax.NATIONAL_INSURANCE, py_min
      in *;
    cbn [IsraeliTax.rate_low IsraeliTax.rate_high IsraeliTax.threshold_low_monthly
         IsraeliTax.cap_monthly] in *;
    cmp_cases; lra.
Qed.

Lemma income_tax_monotone (x y : Q) :
  x <= y -> IsraeliTax.calculate_income_tax x <= IsraeliTax.calculate_income_tax y.
Proof using.
  intros Hxy.
  unfold IsraeliTax.calculate_income_tax, IsraeliTax.ISRAELI_TAX_BRACKETS,
    IsraeliTax.income_tax_loop;
    cbn [IsraeliTax.threshold IsraeliTax.rate IsraeliTax.base_tax].
  cmp_cases; lra.
Qed.

Lemma national_insurance_monotone (x y : Q) :
  x <= y ->
  IsraeliTax.calculate_national_insurance x <= IsraeliTax.calculate_national_insurance y.
Proof using.
  intros Hxy.
  unfold IsraeliTax.calculate_national_insurance, IsraeliTax.NATIONAL_INSURANCE, py_min;
    cbn [IsraeliTax.rate_low IsraeliTax.rate_high IsraeliTax.threshold_low_monthly
         IsraeliTax.cap_monthly].
  cmp_cases; lra.
Qed.

(** X4: the monthly tax does not decrease when the gross income increases. *)
Theorem monthly_tax_monotone (x y : Q) :
  x <= y ->
  IsraeliTax.calculate_monthly_tax_from_gross x <=
  IsraeliTax.calculate_monthly_tax_from_gross y.
Proof using.
  intros Hxy. destruct (Qlt_le_dec 0 x) as [Hpos|Hneg].
  - assert (Hy : 0 < y) by lra.
    rewrite (monthly_tax_unfold x Hpos), (monthly_tax_unfold y Hy).
    assert (H12 : x * 12 <= y * 12) by lra.
    pose proof (income_tax_monotone _ _ H12).
    pose proof (national_insurance_monotone _ _ Hxy). lra.
  - rewrite (monthly_tax_nonpositive x Hneg).
    destruct (Qlt_le_dec 0 y) as [Hy|Hy].
    + rewrite (monthly_tax_unfold y Hy).
      pose proof (proj1 (income_tax_bounds (y * 12))).
      pose proof (proj1 (national_insurance_bounds y)). lra.
    + rewrite (monthly_tax_nonpositive y Hy). lra.
Qed.

(** X5: [tax_summary] recomputes the tax without the guard of
    [calculate_monthly_tax_from_gross] and agrees with the other functions on
    every income, positive or not: its total is the monthly tax, its net is
    [calculate_net_from_gross], its rate is [get_effective_tax_rate], and net
    plus total is the gross income. *)
Theorem tax_summary_agrees (x : Q) :
  IsraeliTax.total_tax_monthly (IsraeliTax.tax_summary x) ==
    IsraeliTax.calculate_monthly_tax_from_gross x /\
  IsraeliTax.net_monthly (IsraeliTax.tax_summary x) ==
    IsraeliTax.calculate_net_from_gross x /\
  IsraeliTax.effective_rate_pct (IsraeliTax.tax_summary x) ==
    IsraeliTax.get_effective_tax_rate x /\
  IsraeliTax.net_monthly (IsraeliTax.tax_summary x)
  + IsraeliTax.total_tax_monthly (IsraeliTax.tax_summary x) == x.
Proof using.
  assert (Htotal : IsraeliTax.total_tax_monthly (IsraeliTax.tax_summary x) ==
                   IsraeliTax.calculate_monthly_tax_from_gross x).
  { unfold IsraeliTax.tax_summary, IsraeliTax.calculate_monthly_tax_from_gross.
    cbn [IsraeliTax.total_tax_monthly].
    destruct (Qleb x 0) eqn:E; [|reflexivity]. apply Qleb_le in E.
    assert (E12 : Qleb (x * 12) 0 = true) by (apply Qleb_le; lra).
    unfold IsraeliTax.calculate_income_tax, IsraeliTax.calculate_national_insurance.
    apply Qleb_le in E. rewrite E12, E. reflexivity. }
  split; [exact Htotal|]. split; [|split].
  - unfold IsraeliTax.calculate_net_from_gross. rewrite <- Htotal. reflexivity.
  - unfold IsraeliTax.get_effective_tax_rate.
    change (IsraeliTax.effective_rate_pct (IsraeliTax.tax_summary x)) with
      (if Qltb 0 x
       then IsraeliTax.total_tax_monthly (IsraeliTax.tax_summary x) / x * 100
       else 0).
    unfold Qltb, Qleb. destruct (Qle_bool x 0); simpl; [reflexivity|].
    rewrite Htotal. reflexivity.
  - change (IsraeliTax.net_monthly (IsraeliTax.tax_summary x)) with
      (x - IsraeliTax.total_tax_monthly (IsraeliTax.tax_summary x)).
    ring.
Qed.

(** X6: the effective tax rate is a percentage between 0 and 62.17; it is 0
    on a non-positive income, where the division by the income is not
    made. *)
Theorem effective_tax_rate_range (x : Q) :
  0 <= IsraeliTax.get_effective_tax_rate x /\
  IsraeliTax.get_effective_tax_rate x <= 6217 # 100 /\
  (x <= 0 -> IsraeliTax.get_effective_tax_rate x = 0).
Proof using.
  unfold IsraeliTax.get_effective_tax_rate.
  destruct (Qleb x 0) eqn:E.
  - split; [lra|]. split; [lra|reflexivity].
  - apply Qleb_gt in E.
    destruct (income_tax_bounds (x * 12)) as [I0 I1].
    destruct (national_insurance_bounds x) as [N0 N1].
    assert (Hx : 0 <= x * 12) by lra. specialize (I1 Hx).
    assert (Hx' : 0 <= x) by lra. specialize (N1 Hx').
    pose proof (monthly_tax_unfold x E) as Hu.
    set (t := IsraeliTax.calculate_monthly_tax_from_gross x) in *.
    assert (Hlo : 0 <= t / x).
    { apply Qle_shift_div_l; [assumption|]. lra. }
    assert (Hhi : t / x <= 6217 # 10000).
    { apply Qle_shift_div_r; [assumption|]. lra. }
    split; [lra|]. split; [lra|]. intros Hneg. exfalso. lra.
Qed.

(** ** Rows of a run *)

(** The month numbered [k] of a completed run, from its two states and its
    row. *)
Lemma run_month (ra : Q) (p : Params) (sra : option Q) (st_final : State) (k : nat)
    (st st' : State) (row : Month.t) :
  final_state ra p sra = Return st_final ->
  state_at ra p sra k = Return st -> state_at ra p sra (S k) = Return st' ->
  nth_error (records st_final) k = Some row ->
  month_body ra p (default_spouse_retire_age sra p) st (Z.of_nat k) = Return st' /\
  records st' = records st ++ [row].
Proof.
  intros Hfinal Hst HS Hrow. rewrite final_state_horizon in Hfinal.
  pose proof (state_at_rows _ _ _ _ _ _ _ Hfinal Hrow) as Hk.
  destruct (state_at_month ra p sra k (horizon p) st_final Hk Hfinal)
    as [st0 [st0' [row0 [Hst0 [Hm [HS0 [Hrow0 Hnth]]]]]]].
  assert (st0 = st) by congruence. assert (st0' = st') by congruence.
  assert (row0 = row) by congruence. subst st0 st0' row0. auto.
Qed.

(** Every row of a completed run has its two states. *)
Lemma run_row_states (ra : Q) (p : Params) (sra : option Q) (st_final : State) (k : nat)
    (row : Month.t) :
  final_state ra p sra = Return st_final ->
  nth_error (records st_final) k = Some row ->
  exists st st',
    state_at ra p sra k = Return st /\ state_at ra p sra (S k) = Return st' /\
    month_body ra p (default_spouse_retire_age sra p) st (Z.of_nat k) = Return st' /\
    records st' = records st ++ [row].
Proof.
  intros Hfinal Hrow. pose proof Hfinal as Hf. rewrite final_state_horizon in Hf.
  pose proof (state_at_rows _ _ _ _ _ _ _ Hf Hrow) as Hk.
  destruct (state_at_month ra p sra k (horizon p) st_final Hk Hf)
    as [st [st' [row0 [Hst [Hm [HS [Hrow0 Hnth]]]]]]].
  assert (row0 = row) by congruence. subst row0. eauto 8.
Qed.

Lemma month_body_salary (ra : Q) (p : Params) (sra : Q) (st st' : State) (m : Z)
    (row : Month.t) :
  month_body ra p sra st m = Return st' ->
  records st' = records st ++ [row] ->
  let g1 := get_income_at_age (age1_at p m) (gross_income_month p) (income_schedule p) in
  let g2 := get_income_at_age (age2_at p m) (spouse_gross_income_month p)
              (spouse_income_schedule p) in
  (Month.person1_working row = Qltb (age1_at p m) ra /\
   Month.salary1_gross row = (if Qltb (age1_at p m) ra then g1 else 0) /\
   Month.salary1_net row =
     (if Qltb (age1_at p m) ra
      then g1 - IsraeliTax.calculate_monthly_tax_from_gross g1 - g1 * pension_rate p
           - py_min g1 (hishtalmut_salary_cap p) * hishtalmut_rate_employee p
      else 0) /\
   Month.hishtalmut1 row =
     (if Qltb (age1_at p m) ra
      then py_min g1 (hishtalmut_salary_cap p) * hishtalmut_rate_employee p
           + py_min g1 (hishtalmut_salary_cap p) * hishtalmut_rate_employer p
      else 0)) /\
  (Month.person2_working row = Qltb (age2_at p m) sra /\
   Month.salary2_gross row = (if Qltb (age2_at p m) sra then g2 else 0) /\
   Month.salary2_net row =
     (if Qltb (age2_at p m) sra
      then g2 - IsraeliTax.calculate_monthly_tax_from_gross g2 - g2 * spouse_pension_rate p
           - py_min g2 (spouse_hishtalmut_salary_cap p)
             * spouse_hishtalmut_rate_employee p
      else 0) /\
   Month.hishtalmut2 row =
     (if Qltb (age2_at p m) sra
      then py_min g2 (spouse_hishtalmut_salary_cap p) * spouse_hishtalmut_rate_employee p
           + py_min g2 (spouse_hishtalmut_salary_cap p)
             * spouse_hishtalmut_rate_employer p
      else 0)).
Proof.
  intros H Hrow. month_body_row H Hrow. simpl. unfold age1_at, age2_at.
  repeat split.
Qed.

(** The pension balances of one month: the balance before it with the month's
    return, plus the contributions on the gross salary, less the payout. *)
Lemma month_body_pension_balance (ra : Q) (p : Params) (sra : Q) (st st' : State) (m : Z)
    (row : Month.t) :
  month_body ra p sra st m = Return st' ->
  records st' = records st ++ [row] ->
  (Month.pension1 row = pension1 st' /\ Month.pension2 row = pension2 st') /\
  pension1 st' ==
    pension1 st * (1 + r_month p)
    + Month.salary1_gross row * (pension_rate p + pension_rate_employer p)
    - Month.pension1_income row /\
  pension2 st' ==
    pension2 st * (1 + r_month p)
    + Month.salary2_gross row * (spouse_pension_rate p + spouse_pension_rate_employer p)
    - Month.pension2_income row.
Proof.
  intros H Hrow. month_body_row H Hrow. clear Eev. simpl.
  split; [split; reflexivity|].
  destruct (Qltb (age_now p + inject_Z m / 12) ra),
           (Qltb (spouse_age_now p + inject_Z m / 12) sra),
           (pension1_income_active st || _), (pension2_income_active st || _);
    split; ring.
Qed.

Lemma get_income_at_age_falsy (age base : Q) (s : Schedule) :
  falsy s = true -> get_income_at_age age base s = base.
Proof. intros H. unfold get_income_at_age. now rewrite H. Qed.

(** X7: the contribution properties of [Params] are what a month of the run
    applies to a working person who has no income schedule: the row's gross
    salary is the base income, its hishtalmut deposit is
    [contrib_hishtalmut_month], its net salary is the gross less tax less the
    two employee contributions, and the pension balance receives
    [contrib_pension_month] on top of the month's return. *)
Theorem contributions_of_params_are_applied (ra : Q) (p : Params) (sra : option Q)
    (st_final : State) (k : nat) (st st' : State) (row : Month.t) :
  final_state ra p sra = Return st_final ->
  state_at ra p sra k = Return st -> state_at ra p sra (S k) = Return st' ->
  nth_error (records st_final) k = Some row ->
  (falsy (income_schedule p) = true -> Month.person1_working row = true ->
     Month.salary1_gross row = gross_income_month p /\
     Month.hishtalmut1 row = contrib_hishtalmut_month p /\
     Month.salary1_net row =
       gross_income_month p
       - IsraeliTax.calculate_monthly_tax_from_gross (gross_income_month p)
       - contrib_pension_employee_month p - contrib_hishtalmut_employee_month p /\
     pension1 st' ==
       pension1 st * (1 + r_month p) + contrib_pension_month p
       - Month.pension1_income row) /\
  (falsy (spouse_income_schedule p) = true -> Month.person2_working row = true ->
     Month.salary2_gross row = spouse_gross_income_month p /\
     Month.hishtalmut2 row = spouse_contrib_hishtalmut_month p /\
     Month.salary2_net row =
       spouse_gross_income_month p
       - IsraeliTax.calculate_monthly_tax_from_gross (spouse_gross_income_month p)
       - spouse_contrib_pension_employee_month p
       - spouse_contrib_hishtalmut_employee_month p /\
     pension2 st' ==
       pension2 st * (1 + r_month p) + spouse_contrib_pension_month p
       - Month.pension2_income row).
Proof.
  intros Hfinal Hst HS Hrow.
  destruct (run_month _ _ _ _ _ _ _ _ Hfinal Hst HS Hrow) as [Hm Hrec].
  destruct (month_body_salary _ _ _ _ _ _ _ Hm Hrec)
    as [[W1 [G1 [N1 H1]]] [W2 [G2 [N2 H2]]]].
  destruct (month_body_pension_balance _ _ _ _ _ _ _ Hm Hrec) as [_ [P1 P2]].
  split; intros Hs Hw.
  - rewrite W1 in Hw. rewrite Hw, (get_income_at_age_falsy _ _ _ Hs) in G1, N1, H1.
    repeat split; try assumption.
    rewrite P1, G1. unfold contrib_pension_month. ring.
  - rewrite W2 in Hw. rewrite Hw, (get_income_at_age_falsy _ _ _ Hs) in G2, N2, H2.
    repeat split; try assumption.
    rewrite P2, G2. unfold spouse_contrib_pension_month. ring.
Qed.

Lemma py_min_le_r (a b : Q) : py_min a b <= b.
Proof.
  unfold py_min. destruct (Qltb b a) eqn:E; reflect_cmp; [apply Qle_refl|assumption].
Qed.

Lemma capped_deposit_le (g cap re rr : Q) :
  0 <= re -> 0 <= rr -> py_min g cap * re + py_min g cap * rr <= cap * (re + rr).
Proof using.
  intros Hre Hrr. pose proof (py_min_le_r g cap) as Hmin.
  assert (H1 : py_min g cap * re <= cap * re) by now apply Qmult_le_compat_r.
  assert (H2 : py_min g cap * rr <= cap * rr) by now apply Qmult_le_compat_r.
  lra.
Qed.

(** X8: the hishtalmut deposit is capped.  With a non-negative salary cap
    and non-negative hishtalmut rates, the deposit a row records for a person
    is never more than the cap times the sum of the employee and employer
    rates, whatever the income or the income schedule. *)
Theorem hishtalmut_deposit_is_capped (ra : Q) (p : Params) (sra : option Q)
    (st_final : State) (k : nat) (row : Month.t) :
  final_state ra p sra = Return st_final ->
  nth_error (records st_final) k = Some row ->
  (0 <= hishtalmut_salary_cap p -> 0 <= hishtalmut_rate_employee p ->
   0 <= hishtalmut_rate_employer p ->
   Month.hishtalmut1 row <=
     hishtalmut_salary_cap p * (hishtalmut_rate_employee p + hishtalmut_rate_employer p)) /\
  (0 <= spouse_hishtalmut_salary_cap p -> 0 <= spouse_hishtalmut_rate_employee p ->
   0 <= spouse_hishtalmut_rate_employer p ->
   Month.hishtalmut2 row <=
     spouse_hishtalmut_salary_cap p
     * (spouse_hishtalmut_rate_employee p + spouse_hishtalmut_rate_employer p)).
Proof.
  intros Hfinal Hrow.
  destruct (run_row_states _ _ _ _ _ _ Hfinal Hrow) as [st [st' [_ [_ [Hm Hrec]]]]].
  destruct (month_body_salary _ _ _ _ _ _ _ Hm Hrec)
    as [[_ [_ [_ H1]]] [_ [_ [_ H2]]]].
  split; intros Hcap Hre Hrr.
  - rewrite H1. destruct (Qltb _ ra).
    + now apply capped_deposit_le.
    + apply Qmult_le_0_compat; lra.
  - rewrite H2. destruct (Qltb _ (default_spouse_retire_age sra p)).
    + now apply capped_deposit_le.
    + apply Qmult_le_0_compat; lra.
Qed.

(** X9: each pension balance follows one recurrence in every month of a run:
    the balance before the month with the month's return, plus the employee
    and employer pension contributions on the month's gross salary (not
    capped), less the gross payout of the month; the row records the balance
    after the month. *)
Theorem pension_balance_recurrence (ra : Q) (p : Params) (sra : option Q)
    (st_final : State) (k : nat) (st st' : State) (row : Month.t) :
  final_state ra p sra = Return st_final ->
  state_at ra p sra k = Return st -> state_at ra p sra (S k) = Return st' ->
  nth_error (records st_final) k = Some row ->
  Month.pension1 row = pension1 st' /\ Month.pension2 row = pension2 st' /\
  pension1 st' ==
    pension1 st * (1 + r_month p)
    + Month.salary1_gross row * (pension_rate p + pension_rate_employer p)
    - Month.pension1_income row /\
  pension2 st' ==
    pension2 st * (1 + r_month p)
    + Month.salary2_gross row * (spouse_pension_rate p + spouse_pension_rate_employer p)
    - Month.pension2_income row.
Proof.
  intros Hfinal Hst HS Hrow.
  destruct (run_month _ _ _ _ _ _ _ _ Hfinal Hst HS Hrow) as [Hm Hrec].
  destruct (month_body_pension_balance _ _ _ _ _ _ _ Hm Hrec) as [[R1 R2] [P1 P2]].
  auto.
Qed.

(** X10: the series of a result is indexed by the month: the row of index
    [k] has month [k] and the two ages [age_now + k / 12] and
    [spouse_age_now + k / 12]; and [liquid_end] is the liquid balance of the
    last row, or the starting balance when the series is empty. *)
Theorem result_series_shape (ra : Q) (p : Params) (sra : option Q) (r : Result) :
  validate ra p (default_spouse_retire_age sra p) = None ->
  simulate ra p sra = Return r ->
  liquid_end r = List.last (List.map Month.liquid (df r)) (liquid_now p) /\
  forall k row, nth_error (df r) k = Some row ->
    Month.month row = Z.of_nat k /\
    Month.age1 row = age_now p + inject_Z (Z.of_nat k) / 12 /\
    Month.age2 row = spouse_age_now p + inject_Z (Z.of_nat k) / 12.
Proof.
  intros V H. destruct (simulate_Return _ _ _ _ V H) as [st [Hst ->]].
  destruct (final_state_rows _ _ _ _ Hst) as [_ [_ Hliq]].
  destruct (verdict_fields p st) as [-> [-> _]].
  split; [exact Hliq|]. intros k row Hrow.
  destruct (run_row_states _ _ _ _ _ _ Hst Hrow) as [st0 [st' [_ [_ [Hm Hrec]]]]].
  destruct (month_body_records _ _ _ _ _ _ Hm) as [row' [Hrec' [_ [Hmo [Ha1 Ha2]]]]].
  rewrite Hrec in Hrec'. apply app_inj_tail in Hrec'. destruct Hrec' as [_ <-].
  auto.
Qed.

Lemma py_range_nonpositive (n : Z) : (n <= 0)%Z -> py_range n = [].
Proof.
  intros H. unfold py_range. replace (Z.to_nat n) with 0%nat by lia. reflexivity.
Qed.

(** X11: with a horizon that is not after the older person's current age
    (a month count of zero or less) a run past validation simulates nothing:
    the series is empty, the end balance is the starting balance, no payout is
    reported, and the verdict is the comparison of the starting balance with
    the floor; no payout divisor is used, so the call returns even when one is
    zero. *)
Theorem empty_horizon_result (ra : Q) (p : Params) (sra : option Q) :
  validate ra p (default_spouse_retire_age sra p) = None ->
  (total_months p <= 0)%Z ->
  exists r, simulate ra p sra = Return r /\
    df r = [] /\ liquid_end r = liquid_now p /\
    ok r = negb (Qltb (liquid_now p) (min_assets p)) /\
    pension_income_month r = 0 /\ spouse_pension_income_month r = 0 /\
    liquid_at_pension_start r = 0 /\
    (ok r = true -> reason r = Feasible /\ pension_at_start r = 0) /\
    (ok r = false ->
       reason r = BelowMinimumAtEnd (min_assets p / 1000) (liquid_now p / 1000) /\
       pension_at_start r = pension_now p).
Proof.
  intros V Hn. unfold simulate. rewrite V, (py_range_nonpositive _ Hn). simpl.
  eexists. split; [reflexivity|]. unfold verdict. simpl.
  destruct (Qltb (liquid_now p) (min_assets p)); simpl;
    repeat split; try discriminate; reflexivity.
Qed.







(** ** The metric frozen at the first payout *)

Lemma month_body_first_pension (ra : Q) (p : Params) (sra : Q) (st st' : State) (m : Z)
    (row : Month.t) :
  month_body ra p sra st m = Return st' ->
  records st' = records st ++ [row] ->
  let starts :=
    negb (pension1_income_active st) && Qleb (pension_start_age p) (age1_at p m)
    || negb (pension2_income_active st)
       && Qleb (spouse_pension_start_age p) (age2_at p m) in
  first_pension_started st' = first_pension_started st || starts /\
  (first_pension_started st = true ->
     liquid_at_first_pension_start st' = liquid_at_first_pension_start st) /\
  (starts = false ->
     liquid_at_first_pension_start st' = liquid_at_first_pension_start st) /\
  (first_pension_started st = false -> starts = true ->
     liquid_at_first_pension_start st' ==
       liquid st * (1 + r_month p)
       + Month.hishtalmut1 row + Month.hishtalmut2 row
       + Month.salary1_net row + Month.salary2_net row
       + Month.one_time_event row).
Proof.
  intros H Hrow. month_body_row H Hrow. clear Hpayout1 Hpayout2.
  apply apply_events_spec in Eev. destruct Eev as [Hl [Ha _]].
  simpl. unfold age1_at, age2_at.
  destruct (first_pension_started st);
    destruct (negb (pension1_income_active st) && _) eqn:A1;
    destruct (negb (pension2_income_active st) && _) eqn:A2; simpl;
    (split; [reflexivity|]); (split; [try discriminate; auto|]);
    (split; [try discriminate; auto|]); intros; try discriminate;
    rewrite Hl, Ha;
    destruct (Qltb (age_now p + inject_Z m / 12) ra),
             (Qltb (spouse_age_now p + inject_Z m / 12) sra); ring.
Qed.

Lemma first_pension_invariant (ra : Q) (p : Params) (sra : option Q) (k : nat)
    (st : State) :
  state_at ra p sra k = Return st ->
  first_pension_started st = pension1_income_active st || pension2_income_active st /\
  (first_pension_started st = false -> liquid_at_first_pension_start st = 0).
Proof.
  revert st. induction k as [|k IH]; intros st Hk.
  - injection Hk as <-. split; reflexivity.
  - rewrite state_at_S in Hk. apply bind_Return in Hk.
    destruct Hk as [st0 [Hk Hm]]. destruct (IH _ Hk) as [Hflag Hzero].
    destruct (month_body_records _ _ _ _ _ _ Hm) as [row [Hrow _]].
    destruct (month_body_first_pension _ _ _ _ _ _ _ Hm Hrow) as [Hs [_ [Hkeep _]]].
    destruct (month_body_flags _ _ _ _ _ _ Hm) as [F1 [F2 _]].
    split.
    + rewrite Hs, F1, F2, Hflag.
      destruct (pension1_income_active st0), (pension2_income_active st0),
        (Qleb (pension_start_age p) _), (Qleb (spouse_pension_start_age p) _);
        reflexivity.
    + intros Hoff. rewrite Hs in Hoff. apply orb_false_iff in Hoff.
      destruct Hoff as [Hoff0 Hstarts]. rewrite (Hkeep Hstarts). auto.
Qed.

(** X14: [liquid_at_pension_start] is the liquid balance at the first payout
    activation of the household.  It is 0 as long as no payout has started; in
    the month in which the first payout starts it is set to the balance of that
    moment (the balance before the month with its return, plus the month's
    hishtalmut deposits, net salaries and one-time events, before any pension
    income and before the expense); afterwards it never changes; and the
    result of a run reports it, feasible or not. *)
Theorem liquid_at_pension_start_is_frozen (ra : Q) (p : Params) (sra : option Q)
    (st_final : State) :
  final_state ra p sra = Return st_final ->
  liquid_at_pension_start (verdict p st_final) = liquid_at_first_pension_start st_final /\
  (pension1_income_active st_final = false -> pension2_income_active st_final = false ->
     liquid_at_first_pension_start st_final = 0) /\
  (forall k st st' row,
     state_at ra p sra k = Return st -> state_at ra p sra (S k) = Return st' ->
     nth_error (records st_final) k = Some row ->
     (first_pension_started st = true ->
        liquid_at_first_pension_start st' = liquid_at_first_pension_start st) /\
     (first_pension_started st = false -> first_pension_started st' = true ->
        liquid_at_first_pension_start st' ==
          liquid st * (1 + r_month p)
          + Month.hishtalmut1 row + Month.hishtalmut2 row
          + Month.salary1_net row + Month.salary2_net row
          + Month.one_time_event row)).
Proof.
  intros Hfinal. split; [|split].
  - unfold verdict. destruct (min_assets_violated st_final); [reflexivity|].
    destruct (Qltb _ _); reflexivity.
  - intros A1 A2. pose proof Hfinal as Hf. rewrite final_state_horizon in Hf.
    destruct (first_pension_invariant _ _ _ _ _ Hf) as [Hflag Hzero].
    apply Hzero. now rewrite Hflag, A1, A2.
  - intros k st st' row Hst HS Hrow.
    destruct (run_month _ _ _ _ _ _ _ _ Hfinal Hst HS Hrow) as [Hm Hrec].
    destruct (month_body_first_pension _ _ _ _ _ _ _ Hm Hrec)
      as [Hs [Hkeep [_ Hset]]].
    split; [exact Hkeep|]. intros Hoff Hon. apply Hset; [exact Hoff|].
    rewrite Hs, Hoff in Hon. exact Hon.
Qed.

(** ** The reason of a result *)

Lemma month_body_reason (ra : Q) (p : Params) (sra : Q) (st st' : State) (m : Z) :
  month_body ra p sra st m = Return st' ->
  min_assets_violation_reason st' =
    if negb (min_assets_violated st) && Qltb (liquid st') (min_assets p)
    then FellBelowMinimum (min_assets p / 1000) (age1_at p m) (age2_at p m)
    else min_assets_violation_reason st.
Proof. intros H. month_body_inv H. reflexivity. Qed.

Lemma find_snoc {A : Type} (f : A -> bool) (l : list A) (x : A) :
  List.find f (l ++ [x]) =
  match List.find f l with
  | Some y => Some y
  | None => if f x then Some x else None
  end.
Proof.
  induction l as [|a l IH]; simpl; [reflexivity|].
  destruct (f a); [reflexivity|exact IH].
Qed.

Lemma existsb_find {A : Type} (f : A -> bool) (l : list A) :
  List.existsb f l = match List.find f l with Some _ => true | None => false end.
Proof.
  induction l as [|a l IH]; simpl; [reflexivity|].
  destruct (f a); [reflexivity|exact IH].
Qed.

Lemma find_first {A : Type} (f : A -> bool) (l : list A) (x : A) :
  List.find f l = Some x ->
  exists k, nth_error l k = Some x /\ f x = true /\
    forall j y, (j < k)%nat -> nth_error l j = Some y -> f y = false.
Proof.
  induction l as [|a l IH]; simpl; [discriminate|].
  destruct (f a) eqn:Ea.
  - intros Hx. injection Hx as <-. exists 0%nat. split; [reflexivity|].
    split; [exact Ea|]. intros j y Hj. lia.
  - intros Hx. destruct (IH Hx) as [k [Hk [Hfx Hbefore]]].
    exists (S k). split; [exact Hk|]. split; [exact Hfx|].
    intros [|j] y Hj Hy.
    + simpl in Hy. injection Hy as <-. exact Ea.
    + simpl in Hy. apply (Hbefore j y); [lia|exact Hy].
Qed.

Lemma last_map_in {A : Type} (g : A -> Q) (a : A) (l : list A) (d : Q) :
  exists x, In x (a :: l) /\ List.last (List.map g (a :: l)) d = g x.
Proof.
  revert a. induction l as [|b l IH]; intros a.
  - exists a. split; [now left|reflexivity].
  - destruct (IH b) as [x [Hin Hx]]. exists x. split; [now right|].
    exact Hx.
Qed.

Lemma reason_invariant (ra : Q) (p : Params) (sra : option Q) (k : nat) (st : State) :
  state_at ra p sra k = Return st ->
  min_assets_violated st = List.existsb (below_floor p) (records st) /\
  min_assets_violation_reason st =
    match List.find (below_floor p) (records st) with
    | Some row => FellBelowMinimum (min_assets p / 1000) (Month.age1 row) (Month.age2 row)
    | None => NoReason
    end.
Proof.
  revert st. induction k as [|k IH]; intros st Hk.
  - injection Hk as <-. split; reflexivity.
  - rewrite state_at_S in Hk. apply bind_Return in Hk.
    destruct Hk as [st0 [Hk Hm]]. destruct (IH _ Hk) as [Hv Hr].
    destruct (month_body_records _ _ _ _ _ _ Hm) as [row [Hrow [Hl [_ [Ha1 Ha2]]]]].
    rewrite (month_body_reason _ _ _ _ _ _ Hm), (month_body_violated _ _ _ _ _ _ Hm).
    rewrite Hrow, existsb_app, find_snoc, Hr, Hv. simpl.
    rewrite orb_false_r.
    rewrite (existsb_find (below_floor p) (records st0)).
    assert (Hb : below_floor p row = Qltb (liquid st) (min_assets p))
      by (unfold below_floor; now rewrite Hl).
    rewrite Hb.
    destruct (List.find (below_floor p) (records st0)); simpl; [auto|].
    destruct (Qltb (liquid st) (min_assets p)); [|auto].
    split; [reflexivity|]. now rewrite Ha1, Ha2.
Qed.

(** X15: the reason of a run past validation is decided by the series.  If
    some row is below the floor, the reason names the ages of the first such
    row (every row before it is at or above the floor); otherwise the run is
    feasible.  The reason "below the minimum at the end" is only ever given
    with an empty series: the end balance of a non-empty series is the
    balance of its last row, which the monthly check has seen. *)
Theorem reason_names_the_first_violation (ra : Q) (p : Params) (sra : option Q)
    (r : Result) :
  validate ra p (default_spouse_retire_age sra p) = None ->
  simulate ra p sra = Return r ->
  reason r = reason_of_series p (df r) (liquid_end r) /\
  (forall row, List.find (below_floor p) (df r) = Some row ->
     reason r = FellBelowMinimum (min_assets p / 1000) (Month.age1 row) (Month.age2 row) /\
     exists k, nth_error (df r) k = Some row /\
       Month.liquid row < min_assets p /\
       forall j row', (j < k)%nat -> nth_error (df r) j = Some row' ->
         min_assets p <= Month.liquid row') /\
  (List.find (below_floor p) (df r) = None -> df r <> [] -> reason r = Feasible) /\
  (forall m e, reason r = BelowMinimumAtEnd m e -> df r = []).
Proof.
  intros V H. destruct (simulate_Return _ _ _ _ V H) as [st [Hst ->]].
  pose proof Hst as Hf. rewrite final_state_horizon in Hf.
  destruct (reason_invariant _ _ _ _ _ Hf) as [Hv Hr].
  destruct (final_state_rows _ _ _ _ Hst) as [_ [_ Hliq]].
  assert (Hreason : reason (verdict p st) =
                    reason_of_series p (records st) (liquid st)).
  { unfold verdict, reason_of_series. rewrite Hv, existsb_find, Hr.
    destruct (List.find (below_floor p) (records st)); [reflexivity|].
    simpl. destruct (Qltb (liquid st) (min_assets p)); reflexivity. }
  assert (Hnonempty : List.find (below_floor p) (records st) = None ->
                      records st <> [] ->
                      Qltb (liquid st) (min_assets p) = false).
  { intros Efind Hne. destruct (records st) as [|row0 rows] eqn:Erec; [congruence|].
    destruct (last_map_in Month.liquid row0 rows (liquid_now p)) as [x [Hin Hx]].
    rewrite Hliq, Hx. exact (find_none _ _ Efind _ Hin). }
  destruct (verdict_fields p st) as [Hdf [Hend _]]. rewrite Hdf, Hend.
  split; [exact Hreason|]. split; [|split].
  - intros row Hfind. split.
    + rewrite Hreason. unfold reason_of_series. now rewrite Hfind.
    + destruct (find_first _ _ _ Hfind) as [k [Hk [Hrow Hbefore]]].
      exists k. split; [exact Hk|]. split.
      * apply Qltb_lt. exact Hrow.
      * intros j row' Hj Hrow'. apply Qltb_ge. exact (Hbefore j row' Hj Hrow').
  - intros Efind Hne. rewrite Hreason. unfold reason_of_series.
    now rewrite Efind, (Hnonempty Efind Hne).
  - intros m e Hre. rewrite Hreason in Hre. unfold reason_of_series in Hre.
    destruct (List.find (below_floor p) (records st)) eqn:Efind; [discriminate|].
    destruct (Qltb (liquid st) (min_assets p)) eqn:Elt; [|discriminate].
    destruct (records st) as [|row0 rows] eqn:Erec; [reflexivity|]. exfalso.
    assert (Hge : true = false) by (apply Hnonempty; [reflexivity|discriminate]).
    discriminate.
Qed.

(** ** When a run raises *)









(** ** The three kinds of result *)

(** X17: the reason of a result tells which of three ends the call took.  It
    is a reason of the validation exactly when a precondition is violated; it
    is "Feasible" exactly when the result is feasible; and a result that is
    neither is infeasible for the floor, with one of the two floor reasons. *)
Theorem result_reason_classification (ra : Q) (p : Params) (sra : option Q) (r : Result) :
  simulate ra p sra = Return r ->
  (is_validation_reason (reason r) = true <->
     precondition_violated ra p (default_spouse_retire_age sra p)) /\
  (ok r = true <-> reason r = Feasible) /\
  (is_validation_reason (reason r) = false -> ok r = false ->
     (exists a1 a2, reason r = FellBelowMinimum (min_assets p / 1000) a1 a2) \/
     reason r = BelowMinimumAtEnd (min_assets p / 1000) (liquid_end r / 1000)).
Proof.
  clear float_sub.
  intros H.
  destruct (validate ra p (default_spouse_retire_age sra p)) as [why|] eqn:V.
  - unfold simulate in H. rewrite V in H. injection H as <-.
    destruct (validate_Some _ _ _ _ V) as [Hwhy Hbad]. simpl.
    split; [tauto|]. split.
    + split; [discriminate|]. intros ->. discriminate.
    + congruence.
  - destruct (simulate_Return _ _ _ _ V H) as [st [Hst ->]].
    pose proof Hst as Hf. rewrite final_state_horizon in Hf.
    destruct (reason_invariant _ _ _ _ _ Hf) as [Hv Hr].
    rewrite existsb_find in Hv.
    assert (Hgood : ~ precondition_violated ra p (default_spouse_retire_age sra p)).
    { intros Hbad. exact (violated_not_validated _ _ _ Hbad (validate_None _ _ _ V)). }
    unfold verdict. rewrite Hv, Hr.
    destruct (List.find (below_floor p) (records st)) as [row|]; simpl.
    + split; [split; [discriminate|contradiction]|].
      split; [split; discriminate|]. intros _ _. left. eauto.
    + destruct (Qltb (liquid st) (min_assets p)); simpl.
      * split; [split; [discriminate|contradiction]|].
        split; [split; discriminate|]. intros _ _. now right.
      * split; [split; [discriminate|contradiction]|].
        split; [split; reflexivity|]. discriminate.
Qed.

(** ** The joint search *)


Lemma py_min_le (a b : Q) : py_min a b <= a /\ py_min a b <= b.
Proof.
  unfold py_min. destruct (Qltb b a) eqn:E; reflect_cmp; split;
    try apply Qle_refl; [now apply Qlt_le_weak|assumption].
Qed.










(** ** Batches of scenarios *)

Lemma compare_loop_spec (p : Params) (sra : Q) (ages : list Q)
    (acc scs : list Scenario.t) :
  compare_loop p sra ages acc = Return scs ->
  exists new, scs = acc ++ new /\ Forall2 (scenario_for p sra) ages new.
Proof.
  revert acc. induction ages as [|a rest IH]; intros acc H; simpl in H.
  - injection H as <-. exists []. split; [now rewrite app_nil_r|constructor].
  - apply bind_Return in H. destruct H as [r [Hsim H]].
    apply IH in H. destruct H as [new [-> Hnew]].
    exists (scenario_of p sra a r :: new). split; [now rewrite <- app_assoc|].
    constructor; [|exact Hnew]. exists r. auto.
Qed.

Lemma compare_loop_returns (p : Params) (sra : Q) (ages : list Q) (acc : list Scenario.t) :
  (forall a, In a ages -> exists r, simulate a p (Some sra) = Return r) ->
  exists scs, compare_loop p sra ages acc = Return scs.
Proof.
  revert acc. induction ages as [|a rest IH]; intros acc H; simpl; [eauto|].
  destruct (H a (or_introl eq_refl)) as [r ->]. simpl.
  apply IH. intros a' Hin. apply H. now right.
Qed.

Lemma scan_retirement_returns_on (p : Params) (lo hi sra : Q) (ms : list Z) :
  (forall a, In a (scanned_ages lo hi ms) ->
     exists r, simulate a p (Some sra) = Return r) ->
  exists res, scan_retirement p lo hi sra ms = Return res.
Proof.
  induction ms as [|m rest IH]; intros H; simpl; [eauto|].
  simpl in H. fold (clamp_age hi (lo + inject_Z m / 12)) in *.
  destruct (H _ (or_introl eq_refl)) as [r ->]. simpl.
  destruct (ok r); [eauto|].
  destruct (Qleb hi (clamp_age hi (lo + inject_Z m / 12))); [eauto|].
  apply IH. intros a Hin. apply H. now right.
Qed.

(** X19: [compare_scenarios] returns one record per retirement age, in the
    order of the ages: the record of an age carries that age, person 2's
    retirement age of the call, the working years counted from the current
    ages, and the verdict and summary figures of [simulate] at that age.  An
    age that fails validation does not stop the batch: its record is
    infeasible with the reason of the validation.  The call returns whenever
    [simulate] returns for every age of the list. *)
Theorem compare_scenarios_one_record_per_age (p : Params) (ages : list Q)
    (sra : option Q) :
  let sra' := default_spouse_retire_age sra p in
  (forall scs, compare_scenarios p ages sra = Return scs ->
     length scs = length ages /\
     forall i a, nth_error ages i = Some a ->
       exists r s, simulate a p (Some sra') = Return r /\
         nth_error scs i = Some s /\ s = scenario_of p sra' a r /\
         Scenario.retirement_age s = a /\
         Scenario.working_years s = a - age_now p /\
         Scenario.feasible s = ok r /\
         (precondition_violated a p sra' ->
            Scenario.feasible s = false /\
            is_validation_reason (Scenario.reason s) = true /\
            Scenario.liquid_end s = 0)) /\
  ((forall a, In a ages -> exists r, simulate a p (Some sra') = Return r) ->
   exists scs, compare_scenarios p ages sra = Return scs).
Proof.
  intros sra'. split.
  - intros scs H. unfold compare_scenarios in H. fold sra' in H.
    apply compare_loop_spec in H. destruct H as [new [-> Hall]]. simpl.
    split; [symmetry; eapply List.Forall2_length; exact Hall|].
    intros i a Hi. revert i Hi.
    induction Hall as [|a0 s0 ages0 new0 [r [Hsim Hs]] Hrest IH]; intros i Hi.
    + destruct i; discriminate.
    + destruct i as [|i].
      * injection Hi as <-. exists r, s0. split; [exact Hsim|].
        split; [reflexivity|]. split; [exact Hs|]. subst s0. simpl.
        split; [reflexivity|]. split; [reflexivity|]. split; [reflexivity|].
        intros Hbad. unfold simulate in Hsim. simpl in Hsim.
        destruct (validate a0 p sra') as [why|] eqn:V.
        -- injection Hsim as <-. destruct (validate_Some _ _ _ _ V) as [Hwhy _].
           simpl. auto.
        -- exfalso.
           exact (violated_not_validated _ _ _ Hbad (validate_None _ _ _ V)).
      * simpl in Hi. destruct (IH i Hi) as [r' [s' H']]. exists r', s'. exact H'.
  - intros H. unfold compare_scenarios. now apply compare_loop_returns.
Qed.

(** X20: the batch over the grid of the search and the search agree.  When
    [compare_scenarios] is run on the candidate ages of
    [find_earliest_retirement], the search returns, and its answer is the
    first record of the batch that is feasible: the records before it are
    infeasible, and the record carries the age and the figures of the result
    the search returns.  The search returns nothing exactly when no record of
    the batch is feasible. *)
Theorem search_agrees_with_batch (p : Params) (min_age max_age sra : option Q)
    (step_months : Z) (scs : list Scenario.t) :
  (1 <= step_months)%Z ->
  compare_scenarios p (retirement_grid p min_age max_age step_months) sra
    = Return scs ->
  exists res,
    find_earliest_retirement p min_age max_age sra step_months = Return res /\
    match res with
    | Some (a, r) =>
      exists before after,
        scs = before ++ scenario_of p (default_spouse_retire_age sra p) a r :: after /\
        ok r = true /\
        forall s, In s before -> Scenario.feasible s = false
    | None => forall s, In s scs -> Scenario.feasible s = false
    end.
Proof.
  intros Hstep H. unfold compare_scenarios in H.
  set (sra' := default_spouse_retire_age sra p) in *.
  apply compare_loop_spec in H. destruct H as [new [-> Hall]]. simpl.
  assert (Hreturns : forall a, In a (retirement_grid p min_age max_age step_months) ->
            exists r, simulate a p (Some sra') = Return r).
  { intros a Hin. apply In_nth_error in Hin. destruct Hin as [i Hi].
    clear - Hall Hi. revert i Hi.
    induction Hall as [|a0 s0 l l' [r [Hsim _]] _ IH]; intros i Hi.
    - destruct i; discriminate.
    - destruct i as [|i]; [injection Hi as <-; eauto|exact (IH i Hi)]. }
  assert (Hinfeasible : forall l l',
            Forall2 (scenario_for p sra') l l' ->
            (forall a', In a' l ->
               exists r', simulate a' p (Some sra') = Return r' /\ ok r' = false) ->
            forall s, In s l' -> Scenario.feasible s = false).
  { clear. induction 1 as [|a0 s0 l l' [r [Hsim Hs]] _ IH]; intros Hbad s Hin.
    - contradiction.
    - destruct Hin as [<-|Hin].
      + destruct (Hbad a0 (or_introl eq_refl)) as [r' [Hsim' Hok]].
        subst s0. simpl. congruence.
      + apply IH; [|exact Hin]. intros a' Ha'. apply Hbad. now right. }
  unfold retirement_grid, find_earliest_retirement in *. fold sra'.
  set (lo := clamped_min_age p min_age) in *.
  set (hi := clamped_max_age p max_age) in *.
  destruct (Qltb hi lo) eqn:Ebounds.
  { exists None. split; [reflexivity|]. inversion Hall. intros s []. }
  destruct (py_range3 0 (py_round ((hi - lo) * 12) + 1) step_months) as [ms|e] eqn:Ems.
  2:{ exfalso. unfold py_range3 in Ems.
      destruct (Z.eqb_spec step_months 0); [lia|discriminate]. }
  simpl bind.
  destruct (scan_retirement_returns_on p lo hi sra' ms Hreturns) as [res Hres].
  exists res. split; [exact Hres|].
  pose proof (scan_retirement_spec p lo hi sra' ms res Hres) as Hspec.
  destruct res as [[a r]|].
  - destruct Hspec as [before [after [Hgrid [Hs [Hok Hbefore]]]]].
    rewrite Hgrid in Hall. apply List.Forall2_app_inv_l in Hall.
    destruct Hall as [sb [sa [Hb [Ha ->]]]].
    inversion Ha as [|a0 s0 l l' [r' [Hsim' Hs']] Hafter]; subst.
    exists sb, l'. split; [|split; [exact Hok|]].
    + f_equal. f_equal. congruence.
    + exact (Hinfeasible _ _ Hb Hbefore).
  - exact (Hinfeasible _ _ Hall Hspec).
Qed.

(** ** Spending less *)

Lemma apply_events_shift (age : Q) (events : list OneTimeEvent) (idx : nat)
    (l l' a : Q) (s : gset nat) (l1 a1 : Q) (s1 : gset nat) :
  apply_events age idx events (l, a, s) = (l1, a1, s1) ->
  exists l1', apply_events age idx events (l', a, s) = (l1', a1, s1) /\
    l1' - l1 == l' - l.
Proof.
  revert idx l l' a s. induction events as [|[[ea amount] d] rest IH];
    intros idx l l' a s H; simpl in H |- *.
  - injection H as <- <- <-. exists l'. split; [reflexivity|ring].
  - destruct (Qleb ea age && bool_decide (idx ∉ s)).
    + destruct (IH _ _ (l' + amount) _ _ H) as [l1' [H1 H2]].
      exists l1'. split; [exact H1|]. rewrite H2. ring.
    + exact (IH _ _ l' _ _ H).
Qed.

Lemma violated_mono (v v' : bool) (a a' f : Q) :
  (v' = true -> v = true) -> a <= a' ->
  v' || negb v' && Qltb a' f = true -> v || negb v && Qltb a f = true.
Proof.
  intros Hv Ha. destruct v; [reflexivity|]. destruct v'; [discriminate (Hv eq_refl)|].
  simpl. rewrite !Qltb_lt. intros H. eapply Qle_lt_trans; eassumption.
Qed.

Lemma get_expense_at_age_mono (age x y : Q) (sch : Schedule) :
  x <= y -> get_expense_at_age age x sch <= get_expense_at_age age y sch.
Proof.
  intros H. unfold get_expense_at_age. destruct (falsy sch); [exact H|].
  destruct (List.rev _); [exact H|apply Qle_refl].
Qed.

Lemma month_body_spend_mono (ra : Q) (p : Params) (sra : Q) (x y : Q)
    (st st' st1 : State) (m : Z) :
  0 <= 1 + r_month p -> x <= y ->
  cash_le st st' ->
  month_body ra (test_params p y) sra st m = Return st1 ->
  exists st1', month_body ra (test_params p x) sra st' m = Return st1' /\
    cash_le st1 st1'.
Proof.
  intros Hr Hxy Hrel H.
  destruct Hrel as [Hl [E1 [E2 [E3 [E4 [E5 [E6 [E7 [E8 [E9 [Hf [Hv [E10 Hrows]]]]]]]]]]]]].
  assert (Hmul : liquid st * (1 + r_month p) <= liquid st' * (1 + r_month p))
    by (apply Qmult_le_compat_r; assumption).
  pose proof (get_expense_at_age_mono (age_now p + inject_Z m / 12) x y
                (expense_schedule p) Hxy) as Hexp.
  unfold month_body in H |- *.
  change (r_month (test_params p y)) with (r_month p) in H.
  change (r_month (test_params p x)) with (r_month p).
  change (real_balance (test_params p y)) with (real_balance p) in H.
  change (real_balance (test_params p x)) with (real_balance p).
  cbn [test_params age_now retire_age pension_start_age income_schedule spouse_age_now
       spouse_retire_age spouse_pension_start_age spouse_income_schedule one_time_events
       expense_schedule end_age r_annual_real gross_income_month pension_rate
       pension_rate_employer hishtalmut_rate_employee hishtalmut_rate_employer
       hishtalmut_salary_cap spouse_gross_income_month spouse_pension_rate
       spouse_pension_rate_employer spouse_hishtalmut_rate_employee
       spouse_hishtalmut_rate_employer spouse_hishtalmut_salary_cap spend_month
       liquid_now min_assets pension_now spouse_pension_now mekadem spouse_mekadem
       old_age_pension_month old_age_pension_start_age pension_tax_free_amount] in H |- *.
  rewrite E1, E2, E3, E4, E5, E6, E7, E8, E9, E10.
  destruct (Qltb (age_now p + inject_Z m / 12) ra) eqn:W1;
    destruct (Qltb (spouse_age_now p + inject_Z m / 12) sra) eqn:W2.
  all: match type of H with
       | context [apply_events ?a ?i ?e (?L, ?z, ?s)] =>
         destruct (apply_events a i e (L, z, s)) as [[l1 a1] s1] eqn:Eev
       end.
  all: match goal with
       | |- context [apply_events ?a ?i ?e (?L', ?z, ?s)] =>
         destruct (apply_events_shift a e i _ L' _ _ _ _ _ Eev) as [l1' [Eev' Hshift]];
         rewrite Eev'
       end.
  all: destruct (negb (pension1_income_active st) && _) eqn:A1;
       [destruct (py_div _ (mekadem p)) as [q1|e1]; [|discriminate]|];
       (destruct (negb (pension2_income_active st) && _) eqn:A2;
        [destruct (py_div _ (spouse_mekadem p)) as [q2|e2]; [|discriminate]|]).
  all: destruct (real_balance p) as [compared|e3]; [|discriminate].
  all: simpl in H; injection H as <-; simpl; eexists; (split; [reflexivity|]).
  all: assert (Hl1 : l1 <= l1') by lra.
  all: clear Eev Eev' Hshift.
  all: unfold cash_le; simpl.
  all: (split; [|split; [reflexivity|split; [reflexivity|split; [reflexivity|
        split; [reflexivity|split; [reflexivity|split; [reflexivity|
        split; [reflexivity|split; [reflexivity|split; [reflexivity|
        split; [|split; [|split; [reflexivity|]]]]]]]]]]]]]).
  all: first
    [ lra
    | destruct (first_pension_started st); simpl; lra
    | apply violated_mono; [exact Hv|lra]
    | apply Forall2_app; [exact Hrows|constructor; [simpl; lra|constructor]] ].
Qed.

Lemma init_state_test_params (p : Params) (x : Q) :
  init_state (test_params p x) = init_state p.
Proof. reflexivity. Qed.

Lemma cash_le_refl (st : State) : cash_le st st.
Proof.
  unfold cash_le. split; [apply Qle_refl|]. do 9 (split; [reflexivity|]).
  split; [apply Qle_refl|]. split; [auto|]. split; [reflexivity|].
  induction (records st); constructor; [apply Qle_refl|assumption].
Qed.

Lemma run_months_spend_mono (ra : Q) (p : Params) (sra : Q) (x y : Q) (ms : list Z)
    (st st' st1 : State) :
  0 <= 1 + r_month p -> x <= y ->
  cash_le st st' ->
  run_months ra (test_params p y) sra st ms = Return st1 ->
  exists st1', run_months ra (test_params p x) sra st' ms = Return st1' /\
    cash_le st1 st1'.
Proof.
  intros Hr Hxy. revert st st'. induction ms as [|m rest IH]; intros st st' Hrel H.
  - injection H as <-. exists st'. split; [reflexivity|exact Hrel].
  - simpl in H. apply bind_Return in H. destruct H as [st2 [Hm H]].
    destruct (month_body_spend_mono ra p sra x y st st' st2 m Hr Hxy Hrel Hm)
      as [st2' [Hm' Hrel2]].
    simpl. rewrite Hm'. simpl. exact (IH st2 st2' Hrel2 H).
Qed.

Lemma simulate_spend_mono (ra : Q) (p : Params) (sra : option Q) (x y : Q) (r : Result) :
  0 <= 1 + r_month p -> x <= y ->
  simulate ra (test_params p y) sra = Return r ->
  exists r', simulate ra (test_params p x) sra = Return r' /\
    (ok r = true -> ok r' = true) /\
    liquid_end r <= liquid_end r' /\
    liquid_at_pension_start r <= liquid_at_pension_start r' /\
    pension_income_month r' = pension_income_month r /\
    spouse_pension_income_month r' = spouse_pension_income_month r /\
    Forall2 (fun row row' => Month.liquid row <= Month.liquid row') (df r) (df r').
Proof.
  intros Hr Hxy H. unfold simulate in H |- *.
  change (default_spouse_retire_age sra (test_params p y))
    with (default_spouse_retire_age sra p) in H.
  change (default_spouse_retire_age sra (test_params p x))
    with (default_spouse_retire_age sra p).
  change (validate ra (test_params p y) (default_spouse_retire_age sra p))
    with (validate ra p (default_spouse_retire_age sra p)) in H.
  change (validate ra (test_params p x) (default_spouse_retire_age sra p))
    with (validate ra p (default_spouse_retire_age sra p)).
  destruct (validate ra p (default_spouse_retire_age sra p)) as [why|].
  - injection H as <-. exists (rejected why). split; [reflexivity|]. simpl.
    split; [auto|]. split; [apply Qle_refl|]. split; [apply Qle_refl|].
    do 2 (split; [reflexivity|]). constructor.
  - change (total_months (test_params p y)) with (total_months p) in H.
    change (total_months (test_params p x)) with (total_months p).
    rewrite init_state_test_params in *.
    apply bind_Return in H. destruct H as [st [Hrun [= <-]]].
    destruct (run_months_spend_mono ra p _ x y _ _ (init_state p) st Hr Hxy
                (cash_le_refl _) Hrun) as [st' [Hrun' Hrel]].
    rewrite Hrun'. simpl. eexists. split; [reflexivity|].
    destruct Hrel as [Hl [E1 [E2 [E3 [E4 [E5 [E6 [E7 [E8 [E9 [Hf [Hv [E10 Hrows]]]]]]]]]]]]].
    unfold verdict. rewrite E1, E2, E3, E4, E5, E6.
    change (min_assets (test_params p y)) with (min_assets p).
    change (min_assets (test_params p x)) with (min_assets p).
    destruct (min_assets_violated st) eqn:V.
    + destruct (min_assets_violated st');
        [|destruct (Qltb (liquid st') (min_assets p))]; simpl;
        (split; [discriminate|]); repeat match goal with |- _ /\ _ => split end; auto.
    + destruct (min_assets_violated st') eqn:V'; [discriminate (Hv eq_refl)|].
      destruct (Qltb (liquid st) (min_assets p)) eqn:F.
      * destruct (Qltb (liquid st') (min_assets p)); simpl;
          (split; [discriminate|]); repeat match goal with |- _ /\ _ => split end; auto.
      * assert (F' : Qltb (liquid st') (min_assets p) = false).
        { apply Qltb_ge. apply Qltb_ge in F. eapply Qle_trans; eassumption. }
        rewrite F'. simpl. repeat match goal with |- _ /\ _ => split end; auto.
Qed.
Lemma test_params_same (p : Params) : test_params p (spend_month p) = p.
Proof. destruct p; reflexivity. Qed.

(** X21: spending less is never worse.  With a monthly return factor that is
    not negative, the run with [spend_month] lowered to [x] returns whenever
    the run of [p] does; every row of its series has at least the liquid
    balance of the same row of the run of [p], so do the end balance and the
    balance at the first payout; the payouts are the same; and it is feasible
    if the run of [p] is. *)
Theorem lower_expense_is_safer (ra : Q) (p : Params) (sra : option Q) (x : Q)
    (r : Result) :
  0 <= 1 + r_month p -> x <= spend_month p ->
  simulate ra p sra = Return r ->
  exists r', simulate ra (test_params p x) sra = Return r' /\
    (ok r = true -> ok r' = true) /\
    liquid_end r <= liquid_end r' /\
    liquid_at_pension_start r <= liquid_at_pension_start r' /\
    pension_income_month r' = pension_income_month r /\
    spouse_pension_income_month r' = spouse_pension_income_month r /\
    Forall2 (fun row row' => Month.liquid row <= Month.liquid row') (df r) (df r').
Proof.
  intros Hr Hx H. rewrite <- (test_params_same p) in H.
  exact (simulate_spend_mono ra p sra x (spend_month p) r Hr Hx H).
Qed.

Lemma midpoint_bounds (lo hi : Q) :
  lo <= hi ->
  lo <= (lo + hi) / 2 /\ (lo + hi) / 2 <= hi /\
  (hi - (lo + hi) / 2) * 2 == hi - lo /\ ((lo + hi) / 2 - lo) * 2 == hi - lo.
Proof.
  intros H. assert (E : (lo + hi) / 2 == (lo + hi) * (1 # 2)) by reflexivity.
  rewrite E. repeat split; lra.
Qed.

Lemma pow2_succ (k : nat) :
  inject_Z (2 ^ Z.of_nat (S k)) == 2 * inject_Z (2 ^ Z.of_nat k).
Proof.
  rewrite Nat2Z.inj_succ, Z.pow_succ_r by lia. now rewrite inject_Z_mult.
Qed.

Lemma bisect_bracket (p : Params) (target ra sra tolerance : Q) (iterations : nat)
    (b b' : Bracket) :
  bisect p target ra sra tolerance iterations b = Return b' ->
  low b <= high b ->
  low b <= low b' /\ low b' <= high b' /\ high b' <= high b /\
  (high b' - low b')
    * inject_Z (2 ^ Z.of_nat (length (midpoints p target ra sra tolerance iterations b)))
    == high b - low b /\
  (best b' = best b /\ low b' = low b \/ exists r, best b' = Some (low b', r)) /\
  (high b' = high b \/
   exists r, simulate ra (test_params p (high b')) (Some sra) = Return r /\
     meets_target target tolerance r = false).
Proof.
  revert b. induction iterations as [|n IH]; intros b H Hb; simpl in H |- *.
  - injection H as <-. split; [apply Qle_refl|]. split; [exact Hb|].
    split; [apply Qle_refl|]. split; [exact (Qmult_1_r _)|].
    split; [now left|now left].
  - apply bind_Return in H. destruct H as [result [Hsim H]]. rewrite Hsim.
    fold (narrow target tolerance b ((low b + high b) / 2) result) in H |- *.
    destruct (midpoint_bounds (low b) (high b) Hb) as [M1 [M2 [M3 M4]]].
    set (mid := (low b + high b) / 2) in *.
    set (b1 := narrow target tolerance b mid result) in *.
    assert (Hb1 : low b <= low b1 /\ low b1 <= high b1 /\ high b1 <= high b /\
              (high b1 - low b1) * 2 == high b - low b /\
              (best b1 = best b /\ low b1 = low b \/
               exists r, best b1 = Some (low b1, r)) /\
              (high b1 = high b \/
               exists r, simulate ra (test_params p (high b1)) (Some sra) = Return r /\
                 meets_target target tolerance r = false)).
    { unfold b1, narrow. destruct (meets_target target tolerance result) eqn:E; simpl.
      - split; [exact M1|]. split; [exact M2|]. split; [apply Qle_refl|].
        split; [exact M3|]. split; [right; eauto|now left].
      - split; [apply Qle_refl|]. split; [exact M1|]. split; [exact M2|].
        split; [exact M4|]. split; [now left|right; eauto]. }
    destruct Hb1 as [L1 [L2 [L3 [L4 [L5 L6]]]]].
    destruct (Qltb (high b1 - low b1) (tolerance / 10)).
    + injection H as <-. simpl length.
      split; [exact L1|]. split; [exact L2|]. split; [exact L3|].
      split; [exact L4|].
      split; assumption.
    + destruct (IH b1 H L2) as [I1 [I2 [I3 [I4 [I5 I6]]]]].
      split; [eapply Qle_trans; eassumption|]. split; [exact I2|].
      split; [eapply Qle_trans; eassumption|]. split.
      * simpl length. rewrite pow2_succ.
        rewrite <- L4, <- I4. ring.
      * split.
        -- destruct I5 as [[E1 E2]|I5]; [|now right].
           destruct L5 as [[E3 E4]|[r0 L5]]; [left; split; congruence|].
           right. exists r0. congruence.
        -- destruct I6 as [E|I6]; [|now right].
           destruct L6 as [E'|[r0 L6]]; [left; congruence|].
           right. exists r0. now rewrite E.
Qed.

(** X22: the expense [find_max_monthly_expense] returns is the lower end of
    the final bracket of a bisection, and the bracket does enclose the
    largest expense that meets the target.  With a monthly return factor and
    an initial upper bound that are not negative: the returned expense lies
    between 0 and the initial upper bound; every expense at or below it gives
    a feasible run whose end assets meet the target; unless no simulated
    midpoint failed, every expense at or above the upper end of the final
    bracket fails; and the width of the final bracket is the initial upper
    bound halved once per simulated midpoint. *)
Theorem find_max_monthly_expense_brackets_the_maximum (p : Params) (target : Q)
    (ra sra : option Q) (tolerance : Q) (max_iterations : Z) (e : Q) (r : Result) :
  0 <= 1 + r_month p -> 0 <= high (initial_bracket p) ->
  find_max_monthly_expense p target ra sra tolerance max_iterations
    = Return (Some (e, r)) ->
  let ra' := default_retire_age ra p in
  let sra' := default_spouse_retire_age sra p in
  let mids := midpoints p target ra' sra' tolerance (Z.to_nat max_iterations)
                (initial_bracket p) in
  exists b,
    bisect p target ra' sra' tolerance (Z.to_nat max_iterations) (initial_bracket p)
      = Return b /\
    e = low b /\ 0 <= e /\ e <= high b /\ high b <= high (initial_bracket p) /\
    (high b - e) * inject_Z (2 ^ Z.of_nat (length mids)) == high (initial_bracket p) /\
    (forall x, x <= e ->
       exists r', simulate ra' (test_params p x) (Some sra') = Return r' /\
         ok r' = true /\ target - tolerance <= liquid_end r') /\
    (high b = high (initial_bracket p) \/
     forall x r', high b <= x ->
       simulate ra' (test_params p x) (Some sra') = Return r' ->
       meets_target target tolerance r' = false).
Proof.
  intros Hr Hhigh H ra' sra' mids.
  unfold find_max_monthly_expense in H. fold ra' sra' in H.
  apply bind_Return in H. destruct H as [b [Hb H]].
  assert (Hlow0 : low (initial_bracket p) = 0) by reflexivity.
  assert (Hbest0 : best (initial_bracket p) = None) by reflexivity.
  assert (H0 : low (initial_bracket p) <= high (initial_bracket p))
    by (rewrite Hlow0; exact Hhigh).
  destruct (bisect_bracket p target ra' sra' tolerance _ _ b Hb H0)
    as [B1 [B2 [B3 [B4 [B5 B6]]]]].
  destruct (bisect_spec p target ra' sra' tolerance _ _ b Hb) as [Hworks _];
    [unfold best_works; now rewrite Hbest0|].
  unfold best_works in Hworks.
  destruct (best b) as [[e0 r0]|] eqn:Ebest; [|discriminate].
  destruct (meets_target target tolerance r0); [|discriminate].
  injection H as <- <-. destruct Hworks as [Hsim [Hok Hend]].
  assert (He : e0 = low b).
  { destruct B5 as [[E _]|[r1 E]]; [rewrite Hbest0 in E; discriminate|].
    congruence. }
  exists b. split; [exact Hb|]. split; [exact He|].
  rewrite Hlow0 in B1, B4. subst e0.
  split; [exact B1|]. split; [exact B2|]. split; [exact B3|].
  split; [fold mids in B4; rewrite B4; ring|]. split.
  - intros x Hx.
    destruct (simulate_spend_mono ra' p (Some sra') x (low b) r0 Hr Hx Hsim)
      as [r' [Hsim' [Hok' [Hend' _]]]].
    exists r'. split; [exact Hsim'|]. split; [auto|].
    eapply Qle_trans; eassumption.
  - destruct B6 as [E|[rf [Hf Hfail]]]; [now left|right].
    intros x r' Hx Hsim'.
    destruct (meets_target target tolerance r') eqn:Em; [|reflexivity]. exfalso.
    apply meets_target_spec in Em. destruct Em as [Hok' Hend'].
    destruct (simulate_spend_mono ra' p (Some sra') (high b) x r' Hr Hx Hsim')
      as [r'' [Hsim'' [Hok'' [Hend'' _]]]].
    assert (r'' = rf) by congruence. subst r''.
    assert (Hm : meets_target target tolerance rf = true).
    { apply meets_target_spec. split; [auto|]. eapply Qle_trans; eassumption. }
    congruence.
Qed.

(** ** The step of the searches *)

Lemma py_range3_negative_step (stop step : Z) :
  (0 < stop)%Z -> (step < 0)%Z -> py_range3 0 stop step = Return [].
Proof.
  intros Hstop Hstep. unfold py_range3.
  destruct (Z.eqb_spec step 0) as [|_]; [lia|].
  destruct (Z.ltb_spec 0 step) as [|_]; [lia|].
  assert (Hn : ((0 - stop - step - 1) / - step <= 0)%Z).
  { destruct (Z.le_gt_cases 0 (0 - stop - step - 1)) as [Hpos|Hneg].
    - rewrite Z.div_small; lia.
    - apply Z.lt_le_incl. apply Z.div_lt_upper_bound; lia. }
  replace (Z.to_nat _) with 0%nat by lia. reflexivity.
Qed.

(** X23: the step of the two searches for a retirement age.  With bounds
    that do not cross, a step of 0 months makes the call raise [ValueError],
    and a negative step makes it return nothing without a single simulation;
    with bounds that cross the step is never looked at. *)
Theorem search_step_must_be_positive (p : Params) (min_age max_age sra : option Q)
    (step_months : Z) :
  (clamped_min_age p min_age <= clamped_max_age p max_age ->
     (step_months = 0%Z ->
        find_earliest_retirement p min_age max_age sra step_months = Raise ValueError) /\
     ((step_months < 0)%Z ->
        find_earliest_retirement p min_age max_age sra step_months = Return None /\
        retirement_grid p min_age max_age step_months = [])) /\
  (joint_min_age p min_age <= joint_max_age p max_age ->
     (step_months = 0%Z ->
        find_earliest_joint_retirement p min_age max_age step_months
          = Raise ValueError) /\
     ((step_months < 0)%Z ->
        find_earliest_joint_retirement p min_age max_age step_months = Return None /\
        joint_grid p min_age max_age step_months = [])) /\
  (clamped_max_age p max_age < clamped_min_age p min_age ->
     find_earliest_retirement p min_age max_age sra step_months = Return None) /\
  (joint_max_age p max_age < joint_min_age p min_age ->
     find_earliest_joint_retirement p min_age max_age step_months = Return None).
Proof.
  assert (Hstop : forall lo hi : Q, lo <= hi -> (0 < py_round ((hi - lo) * 12) + 1)%Z).
  { intros lo hi Hle. assert (H : 0 <= (hi - lo) * 12) by lra.
    apply py_round_nonneg in H. lia. }
  split; [|split; [|split]].
  - intros Hle. unfold find_earliest_retirement, retirement_grid.
    assert (E : Qltb (clamped_max_age p max_age) (clamped_min_age p min_age) = false)
      by (now apply Qltb_ge).
    rewrite E. split.
    + intros ->. reflexivity.
    + intros Hneg. rewrite (py_range3_negative_step _ _ (Hstop _ _ Hle) Hneg).
      split; reflexivity.
  - intros Hle. unfold find_earliest_joint_retirement, joint_grid.
    assert (E : Qltb (joint_max_age p max_age) (joint_min_age p min_age) = false)
      by (now apply Qltb_ge).
    rewrite E. split.
    + intros ->. reflexivity.
    + intros Hneg. rewrite (py_range3_negative_step _ _ (Hstop _ _ Hle) Hneg).
      split; reflexivity.
  - intros Hlt. unfold find_earliest_retirement.
    apply Qltb_lt in Hlt. now rewrite Hlt.
  - intros Hlt. unfold find_earliest_joint_retirement.
    apply Qltb_lt in Hlt. now rewrite Hlt.
Qed.

(** ** The columns of a row *)

Lemma row_liquid_is_state (ra : Q) (p : Params) (sra : option Q) (st_final : State)
    (k : nat) (row : Month.t) (st' : State) :
  final_state ra p sra = Return st_final ->
  nth_error (records st_final) k = Some row ->
  state_at ra p sra (S k) = Return st' ->
  Month.liquid row = liquid st'.
Proof.
  intros Hfinal Hrow HS.
  destruct (run_row_states _ _ _ _ _ _ Hfinal Hrow) as [st [st0 [_ [HS0 [Hm Hrec]]]]].
  assert (st0 = st') by congruence. subst st0.
  destruct (month_body_records _ _ _ _ _ _ Hm) as [row0 [Hrec0 [Hl _]]].
  rewrite Hrec in Hrec0. apply app_inv_head in Hrec0. injection Hrec0 as <-.
  exact Hl.
Qed.

(** X24: the columns of the series account for the liquid balance.  In
    every row, [liquid] is the balance before the month (the starting balance
    for the first row, the [liquid] of the row before otherwise) with the
    month's return, plus the row's [liquid_change]; and [liquid_change] is the
    sum of the row's net salaries, hishtalmut deposits, net pension income,
    old-age pension and one-time events, less its [monthly_expense]. *)
Theorem liquid_change_accounts_for_balance (ra : Q) (p : Params) (sra : option Q)
    (r : Result) :
  validate ra p (default_spouse_retire_age sra p) = None ->
  simulate ra p sra = Return r ->
  forall k row, nth_error (df r) k = Some row ->
    Month.liquid row ==
      liquid_before p (df r) k * (1 + r_month p) + Month.liquid_change row /\
    Month.liquid_change row ==
      Month.salary1_net row + Month.salary2_net row
      + Month.hishtalmut1 row + Month.hishtalmut2 row
      + Month.total_pension_income row + Month.old_age_pension row
      + Month.one_time_event row - Month.monthly_expense row /\
    Month.total_pension_income row ==
      Month.pension1_income_net row + Month.pension2_income_net row.
Proof.
  intros V H k row Hrow.
  destruct (simulate_Return _ _ _ _ V H) as [st_final [Hfinal ->]].
  destruct (verdict_fields p st_final) as [Hdf _]. rewrite Hdf in *.
  destruct (run_row_states _ _ _ _ _ _ Hfinal Hrow) as [st [st' [Hst [HS [Hm Hrec]]]]].
  destruct (month_body_cash_flow _ _ _ _ _ _ _ Hm Hrec) as [Hflow [Htotal Hchange]].
  rewrite (row_liquid_is_state _ _ _ _ _ _ _ Hfinal Hrow HS).
  assert (Hbefore : liquid_before p (records st_final) k = liquid st).
  { destruct k as [|j]; simpl.
    - injection Hst as <-. reflexivity.
    - assert (Hj : (j < length (records st_final))%nat).
      { apply Nat.lt_trans with (S j); [lia|]. apply nth_error_Some. congruence. }
      destruct (nth_error (records st_final) j) as [prev|] eqn:Hprev;
        [|apply nth_error_None in Hprev; lia].
      rewrite <- (row_liquid_is_state _ _ _ _ _ _ _ Hfinal Hprev Hst).
      apply List.nth_error_nth. now rewrite nth_error_map, Hprev. }
  rewrite Hbefore. split; [exact Hchange|]. split; [|exact Htotal].
  rewrite Hflow in Hchange. rewrite Htotal. lra.
Qed.

End Engine.

(** * Closed instances *)



Lemma simulate_rejects_invalid_input_witness :
  precondition_violated 30 working_year (default_spouse_retire_age None working_year) /\
  exists r, simulate pow_at_one 30 working_year None = Return r /\
    ok r = false /\ df r = [] /\ reason r = RetireBeforeNow Person1.
Proof.
  assert (Hbad : precondition_violated 30 working_year
                   (default_spouse_retire_age None working_year))
    by (left; reflexivity).
  split; [exact Hbad|].
  destruct (simulate_rejects_invalid_input pow_at_one 30 working_year None Hbad)
    as [r [Hr [Hok [Hdf [_ [_ [_ Hreason]]]]]]].
  exists r. split; [exact Hr|]. split; [exact Hok|]. split; [exact Hdf|].
  apply Hreason. reflexivity.
Defined.

Lemma schedule_resolver_latest_at_or_before_witness :
  sorted_by_age [(40, 100); (50, 200)] /\
  exists e, latest_at_or_before 45 [(40, 100); (50, 200)] e /\
    get_income_at_age 45 50 (Some [(40, 100); (50, 200)]) = snd e /\
    get_expense_at_age 45 50 (Some [(40, 100); (50, 200)]) = snd e.
Proof.
  assert (Hs : sorted_by_age [(40, 100); (50, 200)]).
  { repeat constructor. unfold by_age. simpl. intros H. discriminate H. }
  split; [exact Hs|].
  apply (proj1 (proj2 (schedule_resolver_latest_at_or_before 45 50
                         [(40, 100); (50, 200)] Hs))).
  exists (40, 100). split; [now left|]. simpl. intros H. discriminate H.
Defined.



Lemma pension_payout_fixed_at_activation_witness :
  exists st_final,
    validate 66 payout_starts (default_spouse_retire_age None payout_starts) = None /\
    final_state pow_at_one 66 payout_starts None = Return st_final /\
    forall k k' st st',
      (k <= k')%nat ->
      state_at pow_at_one 66 payout_starts None k = Return st ->
      state_at pow_at_one 66 payout_starts None k' = Return st' ->
      (pension1_income_active st = true ->
         pension1_income_active st' = true /\
         pension1_income_month st' = pension1_income_month st) /\
      (pension2_income_active st = true ->
         pension2_income_active st' = true /\
         pension2_income_month st' = pension2_income_month st).
Proof.
  assert (H : exists st, final_state pow_at_one 66 payout_starts None = Return st)
    by (eexists; vm_compute; reflexivity).
  destruct H as [st H]. exists st. split; [reflexivity|]. split; [exact H|].
  exact (proj2 (pension_payout_fixed_at_activation pow_at_one 66 payout_starts None st
                  eq_refl H)).
Defined.

(** The payout of [payout_starts]: it activates in the month numbered 12, at
    400000 / 200, and a year later it is the same while the balance has been
    drawn down by twelve payouts. *)
Example payout_starts_values :
  exists st12 st13 st24,
    state_at pow_at_one 66 payout_starts None 12 = Return st12 /\
    state_at pow_at_one 66 payout_starts None 13 = Return st13 /\
    state_at pow_at_one 66 payout_starts None 24 = Return st24 /\
    pension1_income_active st12 = false /\ pension1 st12 == 400000 /\
    pension1_income_active st13 = true /\
    pension1_income_month st13 == 2000 /\ pension1 st13 == 398000 /\
    liquid st13 == liquid st12 + 2000 + 2000 - 1000 /\
    pension1_income_month st24 == 2000 /\ pension1 st24 == 376000.
Proof.
  do 3 eexists. split; [vm_compute; reflexivity|].
  split; [vm_compute; reflexivity|]. split; [vm_compute; reflexivity|].
  repeat split.
Qed.

(** C6, as stated, fails: the floor, not the target, limits the expense of
    [floor_binds], and the end assets of the returned result are far above the
    target. *)
Lemma end_assets_far_above_target :
  (exists r0, simulate pow_at_one 40 floor_binds (Some 40) = Return r0 /\ ok r0 = true) /\
  exists e r,
    find_max_monthly_expense pow_at_one floor_binds 0 (Some 40) (Some 40) 1000 50
      = Return (Some (e, r)) /\
    simulate pow_at_one 40 (test_params floor_binds e) (Some 40) = Return r /\
    ok r = true /\
    ~ (0 - 1000 <= liquid_end r /\ liquid_end r <= 0 + 1000) /\
    900000 <= liquid_end r.
Proof.
  split.
  - eexists. split; [vm_compute; reflexivity|reflexivity].
  - do 2 eexists. split; [vm_compute; reflexivity|].
    split; [vm_compute; reflexivity|]. split; [reflexivity|]. split.
    + intros [_ H]. vm_compute in H. apply H. reflexivity.
    + vm_compute. discriminate.
Qed.





Lemma floor_comparison_is_strict_witness :
  exists r,
    validate 40 touches_floor (default_spouse_retire_age None touches_floor) = None /\
    simulate pow_at_one 40 touches_floor None = Return r /\
    liquid_end r == min_assets touches_floor /\
    ok r = true /\
    (forall row, In row (df r) -> min_assets touches_floor <= Month.liquid row) /\
    min_assets touches_floor <= liquid_end r.
Proof.
  assert (H : exists r, simulate pow_at_one 40 touches_floor None = Return r /\
                liquid_end r == min_assets touches_floor /\ ok r = true).
  { eexists. split; [vm_compute; reflexivity|]. split; reflexivity. }
  destruct H as [r [H [Hend Hok]]]. exists r.
  split; [reflexivity|]. split; [exact H|]. split; [exact Hend|]. split; [exact Hok|].
  exact (proj1 (floor_comparison_is_strict pow_at_one 40 touches_floor None r
                  eq_refl H) Hok).
Defined.

Lemma pension_at_start_depends_on_verdict_witness :
  exists r,
    validate 40 breaks_floor (default_spouse_retire_age None breaks_floor) = None /\
    simulate pow_at_one 40 breaks_floor None = Return r /\
    ok r = false /\
    exists st, final_state pow_at_one 40 breaks_floor None = Return st /\
      pension1_income_active st = false /\
      pension_at_start r = pension1 st /\ spouse_pension_at_start r = pension2 st.
Proof.
  assert (H : exists r, simulate pow_at_one 40 breaks_floor None = Return r /\
                ok r = false).
  { eexists. split; [vm_compute; reflexivity|reflexivity]. }
  destruct H as [r [H Hok]]. exists r.
  split; [reflexivity|]. split; [exact H|]. split; [exact Hok|].
  destruct (pension_at_start_depends_on_verdict pow_at_one 40 breaks_floor None r
              eq_refl H) as [st [Hst [_ Hbad]]].
  exists st. split; [exact Hst|]. split; [|exact (Hbad Hok)].
  assert (E : final_state pow_at_one 40 breaks_floor None =
              Return st -> pension1_income_active st = false).
  { intros E. vm_compute in E. injection E as <-. reflexivity. }
  exact (E Hst).
Defined.

(** The two runs differ in the floor only, and no payout activates in either:
    the feasible one reports 0, the infeasible one the final pension
    balance. *)
Example pension_at_start_twin_runs :
  exists r_ok r_bad,
    simulate pow_at_one 40 touches_floor None = Return r_ok /\
    simulate pow_at_one 40 breaks_floor None = Return r_bad /\
    ok r_ok = true /\ ok r_bad = false /\
    pension_income_month r_ok == 0 /\ pension_income_month r_bad == 0 /\
    pension_at_start r_ok == 0 /\ pension_at_start r_bad == 400000 /\
    spouse_pension_at_start r_ok == 0 /\ spouse_pension_at_start r_bad == 400000.
Proof.
  do 2 eexists. split; [vm_compute; reflexivity|].
  split; [vm_compute; reflexivity|]. repeat split.
Qed.

(** ** The tax functions on the values of the repository's tests *)

Example income_tax_zero : IsraeliTax.calculate_income_tax 0 == 0.
Proof. reflexivity. Qed.

Example income_tax_lowest_bracket :
  IsraeliTax.calculate_income_tax 50000 == 50000 * (10 # 100).
Proof. reflexivity. Qed.

Example income_tax_second_bracket :
  IsraeliTax.calculate_income_tax 100000 == 8412 + (100000 - 84120) * (14 # 100).
Proof. reflexivity. Qed.

Example income_tax_third_bracket :
  IsraeliTax.calculate_income_tax 150000 == 13536 + (150000 - 120720) * (20 # 100).
Proof. reflexivity. Qed.

Example income_tax_high_income :
  IsraeliTax.calculate_income_tax 1000000 == 229203 + (1000000 - 721560) * (50 # 100).
Proof. reflexivity. Qed.

Example national_insurance_above_cap :
  IsraeliTax.calculate_national_insurance 60000 ==
  7522 * (427 # 10000) + (50695 - 7522) * (1217 # 10000).
Proof. reflexivity. Qed.

Example monthly_tax_typical_income_20k :
  IsraeliTax.calculate_monthly_tax_from_gross 20000 ==
  (28152 + (240000 - 193800) * (31 # 100)) / 12
  + (7522 * (427 # 10000) + (20000 - 7522) * (1217 # 10000)).
Proof. reflexivity. Qed.

(** ** Instances of the further properties *)

Lemma income_tax_uses_containing_bracket_witness :
  exists b,
    nth_error IsraeliTax.ISRAELI_TAX_BRACKETS 1 = Some b /\
    IsraeliTax.threshold b < 100000 /\
    (forall next, nth_error IsraeliTax.ISRAELI_TAX_BRACKETS 2 = Some next ->
       100000 <= IsraeliTax.threshold next) /\
    IsraeliTax.calculate_income_tax 100000 =
      IsraeliTax.base_tax b + (100000 - IsraeliTax.threshold b) * IsraeliTax.rate b.
Proof.
  assert (Hnext : forall next,
            nth_error IsraeliTax.ISRAELI_TAX_BRACKETS 2 = Some next ->
            100000 <= IsraeliTax.threshold next).
  { intros next [= <-]. intros H. discriminate H. }
  eexists. split; [reflexivity|]. split; [reflexivity|]. split; [exact Hnext|].
  exact (income_tax_uses_containing_bracket 100000 1 _ eq_refl eq_refl Hnext).
Defined.

Lemma national_insurance_is_capped_witness :
  IsraeliTax.cap_monthly IsraeliTax.NATIONAL_INSURANCE <= 60000 /\
  IsraeliTax.calculate_national_insurance 60000 ==
  IsraeliTax.calculate_national_insurance
    (IsraeliTax.cap_monthly IsraeliTax.NATIONAL_INSURANCE).
Proof.
  assert (H : IsraeliTax.cap_monthly IsraeliTax.NATIONAL_INSURANCE <= 60000)
    by (intros H; discriminate H).
  split; [exact H|]. exact (proj1 (national_insurance_is_capped 60000 H)).
Defined.

Lemma monthly_tax_monotone_witness :
  10000 <= 20000 /\
  IsraeliTax.calculate_monthly_tax_from_gross 10000 <=
  IsraeliTax.calculate_monthly_tax_from_gross 20000.
Proof.
  assert (H : 10000 <= 20000) by (intros H; discriminate H).
  split; [exact H|]. exact (monthly_tax_monotone 10000 20000 H).
Defined.

Lemma contributions_of_params_are_applied_witness :
  exists st_final st st' row,
    final_state pow_at_one 65 saving_year None = Return st_final /\
    state_at pow_at_one 65 saving_year None 0 = Return st /\
    state_at pow_at_one 65 saving_year None 1 = Return st' /\
    nth_error (records st_final) 0 = Some row /\
    Month.person1_working row = true /\
    Month.salary1_gross row = gross_income_month saving_year /\
    Month.hishtalmut1 row = contrib_hishtalmut_month saving_year /\
    pension1 st' ==
      pension1 st * (1 + r_month pow_at_one saving_year)
      + contrib_pension_month saving_year - Month.pension1_income row.
Proof.
  assert (H : exists st_final st st' row,
    final_state pow_at_one 65 saving_year None = Return st_final /\
    state_at pow_at_one 65 saving_year None 0 = Return st /\
    state_at pow_at_one 65 saving_year None 1 = Return st' /\
    nth_error (records st_final) 0 = Some row /\
    Month.person1_working row = true).
  { do 4 eexists. split; [vm_compute; reflexivity|].
    split; [vm_compute; reflexivity|]. split; [vm_compute; reflexivity|].
    split; reflexivity. }
  destruct H as [st_final [st [st' [row [Hf [Hst [HS [Hrow Hw]]]]]]]].
  exists st_final, st, st', row.
  split; [exact Hf|]. split; [exact Hst|]. split; [exact HS|].
  split; [exact Hrow|]. split; [exact Hw|].
  destruct (proj1 (contributions_of_params_are_applied pow_at_one 65 saving_year None
                     st_final 0 st st' row Hf Hst HS Hrow) eq_refl Hw)
    as [H1 [H2 [_ H4]]].
  split; [exact H1|]. split; [exact H2|exact H4].
Defined.

Lemma hishtalmut_deposit_is_capped_witness :
  exists st_final row,
    final_state pow_at_one 65 saving_year None = Return st_final /\
    nth_error (records st_final) 0 = Some row /\
    Month.hishtalmut1 row <=
      hishtalmut_salary_cap saving_year
      * (hishtalmut_rate_employee saving_year + hishtalmut_rate_employer saving_year).
Proof.
  assert (H : exists st_final row,
    final_state pow_at_one 65 saving_year None = Return st_final /\
    nth_error (records st_final) 0 = Some row).
  { do 2 eexists. split; [vm_compute; reflexivity|reflexivity]. }
  destruct H as [st_final [row [Hf Hrow]]]. exists st_final, row.
  split; [exact Hf|]. split; [exact Hrow|].
  apply (proj1 (hishtalmut_deposit_is_capped pow_at_one 65 saving_year None
                  st_final 0 row Hf Hrow)); intros H; discriminate H.
Defined.

Lemma pension_balance_recurrence_witness :
  exists st_final st st' row,
    final_state pow_at_one 65 saving_year None = Return st_final /\
    state_at pow_at_one 65 saving_year None 0 = Return st /\
    state_at pow_at_one 65 saving_year None 1 = Return st' /\
    nth_error (records st_final) 0 = Some row /\
    Month.pension1 row = pension1 st' /\
    pension1 st' ==
      pension1 st * (1 + r_month pow_at_one saving_year)
      + Month.salary1_gross row
        * (pension_rate saving_year + pension_rate_employer saving_year)
      - Month.pension1_income row.
Proof.
  assert (H : exists st_final st st' row,
    final_state pow_at_one 65 saving_year None = Return st_final /\
    state_at pow_at_one 65 saving_year None 0 = Return st /\
    state_at pow_at_one 65 saving_year None 1 = Return st' /\
    nth_error (records st_final) 0 = Some row).
  { do 4 eexists. split; [vm_compute; reflexivity|].
    split; [vm_compute; reflexivity|]. split; [vm_compute; reflexivity|].
    reflexivity. }
  destruct H as [st_final [st [st' [row [Hf [Hst [HS Hrow]]]]]]].
  exists st_final, st, st', row.
  split; [exact Hf|]. split; [exact Hst|]. split; [exact HS|]. split; [exact Hrow|].
  destruct (pension_balance_recurrence pow_at_one 65 saving_year None
              st_final 0 st st' row Hf Hst HS Hrow) as [H1 [_ [H3 _]]].
  split; [exact H1|exact H3].
Defined.

Lemma result_series_shape_witness :
  exists r,
    validate 65 working_year (default_spouse_retire_age None working_year) = None /\
    simulate pow_at_one 65 working_year None = Return r /\
    liquid_end r = List.last (List.map Month.liquid (df r)) (liquid_now working_year).
Proof.
  assert (H : exists r, simulate pow_at_one 65 working_year None = Return r)
    by (eexists; vm_compute; reflexivity).
  destruct H as [r H]. exists r. split; [reflexivity|]. split; [exact H|].
  exact (proj1 (result_series_shape pow_at_one 65 working_year None r eq_refl H)).
Defined.

Lemma empty_horizon_result_witness :
  validate 65 horizon_in_the_past (default_spouse_retire_age None horizon_in_the_past)
    = None /\
  (total_months horizon_in_the_past <= 0)%Z /\
  exists r, simulate pow_at_one 65 horizon_in_the_past None = Return r /\
    df r = [] /\ liquid_end r = liquid_now horizon_in_the_past.
Proof.
  assert (Hm : (total_months horizon_in_the_past <= 0)%Z)
    by (intros H; discriminate H).
  split; [reflexivity|]. split; [exact Hm|].
  destruct (empty_horizon_result pow_at_one 65 horizon_in_the_past None eq_refl Hm)
    as [r [Hr [Hdf [Hend _]]]].
  exists r. split; [exact Hr|]. split; [exact Hdf|exact Hend].
Defined.



Lemma liquid_at_pension_start_is_frozen_witness :
  exists st_final,
    final_state pow_at_one 66 payout_starts None = Return st_final /\
    liquid_at_pension_start (verdict payout_starts st_final)
      = liquid_at_first_pension_start st_final.
Proof.
  assert (H : exists st, final_state pow_at_one 66 payout_starts None = Return st)
    by (eexists; vm_compute; reflexivity).
  destruct H as [st H]. exists st. split; [exact H|].
  exact (proj1 (liquid_at_pension_start_is_frozen pow_at_one 66 payout_starts None
                  st H)).
Defined.

Lemma reason_names_the_first_violation_witness :
  exists r,
    validate 40 breaks_floor (default_spouse_retire_age None breaks_floor) = None /\
    simulate pow_at_one 40 breaks_floor None = Return r /\
    reason r = reason_of_series breaks_floor (df r) (liquid_end r).
Proof.
  assert (H : exists r, simulate pow_at_one 40 breaks_floor None = Return r)
    by (eexists; vm_compute; reflexivity).
  destruct H as [r H]. exists r. split; [reflexivity|]. split; [exact H|].
  exact (proj1 (reason_names_the_first_violation pow_at_one 40 breaks_floor None r
                  eq_refl H)).
Defined.

Lemma result_reason_classification_witness :
  exists r,
    simulate pow_at_one 40 breaks_floor None = Return r /\
    (ok r = true <-> reason r = Feasible).
Proof.
  assert (H : exists r, simulate pow_at_one 40 breaks_floor None = Return r)
    by (eexists; vm_compute; reflexivity).
  destruct H as [r H]. exists r. split; [exact H|].
  exact (proj1 (proj2 (result_reason_classification pow_at_one 40 breaks_floor None r
                         H))).
Defined.


(** The rounding of the subtraction at work.  22.8 as a float is
    6417629469002957 / 2^48.  With person 1 aged 55, the age difference
    rounds to 2265873562520781 / 2^46, and 55 less that difference is
    1604407367250739 / 2^46, which is below the float 22.8: the candidate of
    m = 0 is skipped and the search returns the candidate of m = 1.  With an
    exact subtraction it returns the candidate of m = 0. *)
Example joint_search_skips_a_rounded_candidate :
  spouse_age_now ages_55_and_22_8 == 6417629469002957 # 281474976710656 /\
  binary64_sub 55 (spouse_age_now ages_55_and_22_8)
    == 2265873562520781 # 70368744177664 /\
  snd (joint_candidate binary64_sub ages_55_and_22_8 55 0)
    == 1604407367250739 # 70368744177664 /\
  before_current_age ages_55_and_22_8
    (joint_candidate binary64_sub ages_55_and_22_8 55 0) /\
  (exists a2 r,
     find_earliest_joint_retirement pow_at_one binary64_sub ages_55_and_22_8 None None 1
       = Return (Some (55 + inject_Z 1 / 12, a2, r)) /\
     spouse_age_now ages_55_and_22_8 <= a2) /\
  (exists a2 r,
     find_earliest_joint_retirement pow_at_one Qminus ages_55_and_22_8 None None 1
       = Return (Some (55 + inject_Z 0 / 12, a2, r)) /\
     a2 == spouse_age_now ages_55_and_22_8).
Proof.
  split; [vm_compute; reflexivity|]. split; [vm_compute; reflexivity|].
  split; [vm_compute; reflexivity|]. split; [right; vm_compute; reflexivity|].
  split.
  - do 2 eexists. split; [vm_compute; reflexivity|].
    vm_compute. intros H. discriminate H.
  - do 2 eexists. split; [vm_compute; reflexivity|]. vm_compute. reflexivity.
Qed.

Lemma search_agrees_with_batch_witness :
  (1 <= 6)%Z /\
  exists scs,
    compare_scenarios pow_at_one working_year
      (retirement_grid working_year None (Some 41) 6) None = Return scs /\
    exists res,
      find_earliest_retirement pow_at_one working_year None (Some 41) None 6
        = Return res /\
      match res with
      | Some (a, r) =>
        exists before after,
          scs = before
                ++ scenario_of working_year
                     (default_spouse_retire_age None working_year) a r :: after /\
          ok r = true /\
          forall s, In s before -> Scenario.feasible s = false
      | None => forall s, In s scs -> Scenario.feasible s = false
      end.
Proof.
  assert (Hstep : (1 <= 6)%Z) by lia.
  split; [exact Hstep|].
  assert (H : exists scs,
    compare_scenarios pow_at_one working_year
      (retirement_grid working_year None (Some 41) 6) None = Return scs)
    by (eexists; vm_compute; reflexivity).
  destruct H as [scs H]. exists scs. split; [exact H|].
  exact (search_agrees_with_batch pow_at_one working_year None (Some 41) None 6 scs
           Hstep H).
Defined.

Lemma lower_expense_is_safer_witness :
  0 <= 1 + r_month pow_at_one touches_floor /\
  500 <= spend_month touches_floor /\
  exists r r',
    simulate pow_at_one 40 touches_floor None = Return r /\
    simulate pow_at_one 40 (test_params touches_floor 500) None = Return r' /\
    (ok r = true -> ok r' = true) /\ liquid_end r <= liquid_end r'.
Proof.
  assert (Hr : 0 <= 1 + r_month pow_at_one touches_floor)
    by (intros H; discriminate H).
  assert (Hx : 500 <= spend_month touches_floor) by (intros H; discriminate H).
  split; [exact Hr|]. split; [exact Hx|].
  assert (H : exists r, simulate pow_at_one 40 touches_floor None = Return r)
    by (eexists; vm_compute; reflexivity).
  destruct H as [r H]. exists r.
  destruct (lower_expense_is_safer pow_at_one 40 touches_floor None 500 r Hr Hx H)
    as [r' [H' [Hok [Hend _]]]].
  exists r'. split; [exact H|]. split; [exact H'|]. split; [exact Hok|exact Hend].
Defined.

Lemma find_max_monthly_expense_brackets_the_maximum_witness :
  0 <= 1 + r_month pow_at_one floor_binds /\
  0 <= high (initial_bracket floor_binds) /\
  exists e r,
    find_max_monthly_expense pow_at_one floor_binds 0 (Some 40) (Some 40) 1000 50
      = Return (Some (e, r)) /\
    0 <= e /\ e <= high (initial_bracket floor_binds) /\
    forall x, x <= e ->
      exists r', simulate pow_at_one 40 (test_params floor_binds x) (Some 40)
                   = Return r' /\
        ok r' = true /\ 0 - 1000 <= liquid_end r'.
Proof.
  assert (Hr : 0 <= 1 + r_month pow_at_one floor_binds)
    by (intros H; discriminate H).
  assert (Hh : 0 <= high (initial_bracket floor_binds))
    by (intros H; discriminate H).
  split; [exact Hr|]. split; [exact Hh|].
  assert (H : exists e r,
    find_max_monthly_expense pow_at_one floor_binds 0 (Some 40) (Some 40) 1000 50
      = Return (Some (e, r)))
    by (do 2 eexists; vm_compute; reflexivity).
  destruct H as [e [r H]]. exists e, r. split; [exact H|].
  destruct (find_max_monthly_expense_brackets_the_maximum pow_at_one floor_binds 0
              (Some 40) (Some 40) 1000 50 e r Hr Hh H)
    as [b [_ [He [H0 [H1 [H2 [_ [Hall _]]]]]]]].
  split; [exact H0|]. split; [eapply Qle_trans; eassumption|exact Hall].
Defined.


Lemma liquid_change_accounts_for_balance_witness :
  exists r row,
    validate 65 saving_year (default_spouse_retire_age None saving_year) = None /\
    simulate pow_at_one 65 saving_year None = Return r /\
    nth_error (df r) 3 = Some row /\
    Month.liquid row ==
      liquid_before saving_year (df r) 3 * (1 + r_month pow_at_one saving_year)
      + Month.liquid_change row.
Proof.
  assert (H : exists r row,
    simulate pow_at_one 65 saving_year None = Return r /\
    nth_error (df r) 3 = Some row).
  { do 2 eexists. split; [vm_compute; reflexivity|reflexivity]. }
  destruct H as [r [row [H Hrow]]]. exists r, row.
  split; [reflexivity|]. split; [exact H|]. split; [exact Hrow|].
  exact (proj1 (liquid_change_accounts_for_balance pow_at_one 65 saving_year None r
                  eq_refl H 3%nat row Hrow)).
Defined.
